(** * ishell: command tree, path resolution, help rendering and completion

    A shallow embedding of the command-registration and tab-completion
    core of the [ishell] package (the [Cmd] tree and the [iCompleter]),
    together with the properties of its specification.

    Go values are modelled as follows.
    - A [*Cmd] is an address ([ptr]) into an explicit store ([heap]); the
      nil pointer of a field is [None].  Every assignment through a
      pointer is a store update, performed in the order of the source, so
      that aliasing between the arguments of a call is respected.
    - A Go [string] is a [string] of bytes; [s[0]] on the empty string is
      the run-time fault [IndexOutOfRange], an explicit [panic(msg)] is
      [Panic msg].
    - A Go [map[string]*Cmd] is a [gmap string ptr]; the nil map is [None].
      The order in which [range] visits a map is unspecified in Go: it is
      a parameter ([map_order]) of every function that ranges over a map.
    - [sort.Sort] is not stable: the sorting routine is a parameter
      ([sort_by]) of which only "returns a sorted permutation" is assumed.
    - The callbacks [Func], [Completer] and [CompleterWithPrefix] are never
      called by the code modelled here and are left out of [Cmd]. *)

From Stdlib Require Import String Ascii ZArith List Permutation Sorted Lia.
From stdpp Require Import base option list gmap strings sorting.

Local Open Scope string_scope.
Local Open Scope list_scope.

(** ** Run-time faults and the result monad *)

Inductive fault : Type :=
| NilDeref                      (* dereference of an address with no object *)
| IndexOutOfRange               (* s[i] with i outside of s *)
| Panic (msg : string).         (* panic(msg) *)

Inductive result (A : Type) : Type :=
| Ok (a : A)
| Fault (f : fault).
Arguments Ok {A} a.
Arguments Fault {A} f.

Definition bind {A B : Type} (m : result A) (k : A -> result B) : result B :=
  match m with
  | Ok a => k a
  | Fault f => Fault f
  end.

#[global] Instance result_bind : MBind result := fun A B k m => bind m k.
#[global] Instance result_ret : MRet result := fun A a => Ok a.

Definition is_ok {A : Type} (m : result A) : bool :=
  match m with Ok _ => true | Fault _ => false end.

(** ** The [strings] functions used by the package *)

(** [s[0]]. *)
Definition index0 (s : string) : result ascii :=
  match s with
  | EmptyString => Fault IndexOutOfRange
  | String a _ => Ok a
  end.

(** [s[1:]], for a non-empty [s]. *)
Definition slice1 (s : string) : string :=
  match s with
  | EmptyString => EmptyString
  | String _ s' => s'
  end.

Definition HasPrefix (s p : string) : bool := String.prefix p s.

Definition HasSuffix (s p : string) : bool :=
  (String.length p <=? String.length s)%nat &&
  String.eqb (substring (String.length s - String.length p) (String.length p) s) p.

Definition TrimPrefix (s p : string) : string :=
  if HasPrefix s p
  then substring (String.length p) (String.length s - String.length p) s
  else s.

Definition TrimSuffix (s p : string) : string :=
  if HasSuffix s p
  then substring 0 (String.length s - String.length p) s
  else s.

Definition rev_string (s : string) : string :=
  string_of_list_ascii (rev (list_ascii_of_string s)).

(** [strings.Split(s, sep)] for a non-empty separator: [skip] counts the
    bytes of an occurrence of [sep] still to be passed over, [cur] is the
    current piece, reversed. *)
Fixpoint split_from (sep : string) (skip : nat) (cur : string) (s : string)
  : list string :=
  match s with
  | EmptyString => [rev_string cur]
  | String a s' =>
      match skip with
      | S k => split_from sep k cur s'
      | O =>
          if String.prefix sep s
          then rev_string cur :: split_from sep (String.length sep - 1) EmptyString s'
          else split_from sep 0 (String a cur) s'
      end
  end.

Definition Split (s sep : string) : list string := split_from sep 0 EmptyString s.

(** ** Data model *)

Definition ptr := nat.

Inductive kind : Type := StaticKind | ParamKind.

Module Arg.
Record t : Type := mk
  { Name : string; Pair : bool; Optional : bool; Help : string }.
End Arg.

Module Cmd.
#[local] Abbreviation kind_t := kind.
Record t : Type := mk
  { Name : string;
    Aliases : list string;
    Help : string;
    LongHelp : string;
    Args : list Arg.t;
    parent : option ptr;
    staticChildren : option (gmap string ptr);
    paramChild : option ptr;
    kind : kind_t }.

(** [&Cmd{Name: name}] *)
Definition new (name : string) : t :=
  mk name [] "" "" [] None None None StaticKind.

Definition set_Name (v : string) (c : t) : t :=
  mk v (Aliases c) (Help c) (LongHelp c) (Args c) (parent c)
     (staticChildren c) (paramChild c) (kind c).
Definition set_parent (v : option ptr) (c : t) : t :=
  mk (Name c) (Aliases c) (Help c) (LongHelp c) (Args c) v
     (staticChildren c) (paramChild c) (kind c).
Definition set_staticChildren (v : option (gmap string ptr)) (c : t) : t :=
  mk (Name c) (Aliases c) (Help c) (LongHelp c) (Args c) (parent c)
     v (paramChild c) (kind c).
Definition set_paramChild (v : option ptr) (c : t) : t :=
  mk (Name c) (Aliases c) (Help c) (LongHelp c) (Args c) (parent c)
     (staticChildren c) v (kind c).
Definition set_kind (v : kind_t) (c : t) : t :=
  mk (Name c) (Aliases c) (Help c) (LongHelp c) (Args c) (parent c)
     (staticChildren c) (paramChild c) v.
End Cmd.

Module Param.
Record t : Type := mk { Key : string; Value : string }.
End Param.

Module Suggestion.
Record t : Type := mk
  { Word : string; Param : bool; Optional : bool; Help : string }.
End Suggestion.

(** [Context], as far as this code uses it: the list of bound parameters. *)
Definition Context := list Param.t.

Abbreviation heap := (gmap ptr Cmd.t).

Definition load (h : heap) (p : ptr) : result Cmd.t :=
  match h !! p with
  | Some c => Ok c
  | None => Fault NilDeref
  end.

(** [p.f = v]: read the object at [p], write it back with one field changed. *)
Definition assign (h : heap) (p : ptr) (f : Cmd.t -> Cmd.t) : result heap :=
  c ← load h p; Ok (<[p := f c]> h).

(** The address of a freshly allocated object. *)
Definition alloc (h : heap) : ptr := fresh (dom h).

Definition paramLabel : ascii := ":"%char.
Definition spliter : string := "/".

(** [len(m)] and [m[k]] also work on the nil map. *)
Definition map_of (m : option (gmap string ptr)) : gmap string ptr :=
  match m with Some m => m | None => ∅ end.

(** ** Tree construction *)

Definition addCmd (h : heap) (parent child : ptr) : result (heap * ptr) :=
  c ← load h child;
  let name := Cmd.Name c in
  c0 ← index0 name;
  if Ascii.eqb c0 paramLabel then
    p ← load h parent;
    match Cmd.paramChild p with
    | None =>
        h1 ← assign h child (Cmd.set_Name (slice1 name));
        h2 ← assign h1 child (Cmd.set_kind ParamKind);
        h3 ← assign h2 child (Cmd.set_parent (Some parent));
        h4 ← assign h3 parent (Cmd.set_paramChild (Some child));
        Ok (h4, child)
    | Some q => Ok (h, q)
    end
  else
    p ← load h parent;
    h1 ← match Cmd.staticChildren p with
          | None => assign h parent (Cmd.set_staticChildren (Some ∅))
          | Some _ => Ok h
          end;
    p1 ← load h1 parent;
    match map_of (Cmd.staticChildren p1) !! name with
    | None =>
        h2 ← assign h1 child (Cmd.set_kind StaticKind);
        h3 ← assign h2 child (Cmd.set_parent (Some parent));
        p3 ← load h3 parent;
        h4 ← assign h3 parent
                (Cmd.set_staticChildren
                   (Some (<[name := child]> (map_of (Cmd.staticChildren p3)))));
        Ok (h4, child)
    | Some q => Ok (h1, q)
    end.

(** The loop of [AddCmd] over [names[:len(names)-1]]. *)
Fixpoint addPath (h : heap) (last : ptr) (cmdName : string) (names : list string)
  : result (heap * ptr) :=
  match names with
  | [] => Ok (h, last)
  | name :: rest =>
      c0 ← index0 name;
      if Ascii.eqb c0 paramLabel && (String.length name <? 2)%nat then
        Fault (Panic ("wildcards must be named with a non-empty name '"
                        +:+ cmdName +:+ "'"))
      else
        let p := alloc h in
        let h1 := <[p := Cmd.new name]> h in
        '(h2, q) ← addCmd h1 last p;
        addPath h2 q cmdName rest
  end.

(** The segments of a registration path. *)
Definition path_segments (path : string) : list string :=
  Split (TrimSuffix (TrimPrefix path spliter) spliter) spliter.

Definition AddCmd (h : heap) (c cmd : ptr) : result heap :=
  cm ← load h cmd;
  if String.eqb (Cmd.Name cm) "" then
    Fault (Panic "cmd name should not be empty")
  else
    let trimmed := TrimSuffix (TrimPrefix (Cmd.Name cm) spliter) spliter in
    h1 ← assign h cmd (Cmd.set_Name trimmed);
    let names := Split trimmed spliter in
    '(h2, last) ← addPath h1 c trimmed (removelast names);
    let name := List.last names "" in
    h3 ← assign h2 cmd (Cmd.set_Name name);
    '(h4, _) ← addCmd h3 last cmd;
    Ok h4.

Definition DeleteCmd (h : heap) (c : ptr) (name : string) : result heap :=
  c0 ← index0 name;
  if Ascii.eqb c0 paramLabel then
    cc ← load h c;
    match Cmd.paramChild cc with
    | Some q =>
        qc ← load h q;
        if String.eqb (Cmd.Name qc) (slice1 name)
        then assign h c (Cmd.set_paramChild None)
        else Ok h
    | None => Ok h
    end
  else
    cc ← load h c;
    match Cmd.staticChildren cc with
    | Some m => assign h c (Cmd.set_staticChildren (Some (delete name m)))
    | None => Ok h
    end.

(** ** The links of the store

    Resolution only follows the child links of the nodes and reads their
    aliases.  [hview] keeps that part of every object; the functions
    [v_addCmd], [v_addPath] and [v_register] are what [addCmd], the loop of
    [AddCmd] and [AddCmd] do to it. *)

Record view : Type := mkview
  { v_static : gmap string ptr;
    v_param : option ptr;
    v_aliases : list string }.

Definition view_of (c : Cmd.t) : view :=
  mkview (map_of (Cmd.staticChildren c)) (Cmd.paramChild c) (Cmd.Aliases c).

Definition hview (h : heap) : gmap ptr view := view_of <$> h.

Definition v_empty : view := mkview ∅ None [].

(** A segment that begins with the wildcard marker. *)
Definition is_wild (seg : string) : bool :=
  match seg with
  | EmptyString => false
  | String a _ => Ascii.eqb a paramLabel
  end.

(** The child a segment leads to: the param child for a wildcard segment,
    the static child of that name otherwise. *)
Definition v_edge (v : view) (seg : string) : option ptr :=
  if is_wild seg then v_param v else v_static v !! seg.

Definition edge (V : gmap ptr view) (p : ptr) (seg : string) : option ptr :=
  v ← V !! p; v_edge v seg.

Fixpoint walk (V : gmap ptr view) (p : ptr) (segs : list string) : option ptr :=
  match segs with
  | [] => Some p
  | s :: rest => q ← edge V p s; walk V q rest
  end.

(** Link [child] under [seg] unless the slot is taken. *)
Definition v_attach (seg : string) (child : ptr) (v : view) : view :=
  match v_edge v seg with
  | Some _ => v
  | None =>
      if is_wild seg
      then mkview (v_static v) (Some child) (v_aliases v)
      else mkview (<[seg := child]> (v_static v)) (v_param v) (v_aliases v)
  end.

Definition v_addCmd (V : gmap ptr view) (parent : ptr) (seg : string) (child : ptr)
  : gmap ptr view * ptr :=
  let v := default v_empty (V !! parent) in
  (<[parent := v_attach seg child v]> V, default child (v_edge v seg)).

Fixpoint v_addPath (V : gmap ptr view) (last : ptr) (names : list string)
  : gmap ptr view * ptr :=
  match names with
  | [] => (V, last)
  | name :: rest =>
      let p := fresh (dom V) in
      let '(V2, q) := v_addCmd (<[p := mkview ∅ None []]> V) last name p in
      v_addPath V2 q rest
  end.

Definition v_register (V : gmap ptr view) (c : ptr) (segs : list string) (cmd : ptr)
  : gmap ptr view :=
  let '(V2, last) := v_addPath V c (removelast segs) in
  fst (v_addCmd V2 last (List.last segs "") cmd).

Definition childless (V : gmap ptr view) (p : ptr) : Prop :=
  exists v, V !! p = Some v /\ v_static v = ∅ /\ v_param v = None.

(** Every link leads to an object of the store. *)
Definition closed (V : gmap ptr view) : Prop :=
  forall p v, V !! p = Some v ->
    (forall k q, v_static v !! k = Some q -> is_Some (V !! q)) /\
    (forall q, v_param v = Some q -> is_Some (V !! q)).

(** No static child is stored under a wildcard-marked name. *)
Definition keys_plain (V : gmap ptr view) : Prop :=
  forall p v k q, V !! p = Some v -> v_static v !! k = Some q -> is_wild k = false.

(** No static child carries a wildcard-marked alias. *)
Definition aliases_plain (V : gmap ptr view) : Prop :=
  forall p v k q vq, V !! p = Some v -> v_static v !! k = Some q ->
    V !! q = Some vq -> Forall (fun a => is_wild a = false) (v_aliases vq).

Definition wf (V : gmap ptr view) : Prop :=
  closed V /\ keys_plain V /\ aliases_plain V.

(** Two segments lead to the same slot of a node: the same static name, or
    two wildcard segments (whatever their names). *)
Definition seg_sim (s t : string) : bool :=
  (is_wild s && is_wild t) || String.eqb s t.

(** [l1] leads, slot by slot, along a prefix of [l2]. *)
Fixpoint sim_prefix (l1 l2 : list string) : bool :=
  match l1, l2 with
  | [], _ => true
  | s :: l1', t :: l2' => seg_sim s t && sim_prefix l1' l2'
  | _ :: _, [] => false
  end.

(** The node [n] heads a chain of only children spelling [segs] and ending
    in the childless node [c]; no node of the chain is [avoid]. *)
Fixpoint chain (V : gmap ptr view) (avoid n : ptr) (segs : list string) (c : ptr)
  : Prop :=
  n <> avoid /\
  match segs with
  | [] => n = c /\ childless V c
  | s :: rest =>
      exists v x, V !! n = Some v /\ v_edge v s = Some x /\
        (forall t, seg_sim t s = false -> v_edge v t = None) /\
        chain V avoid x rest c
  end.

(** A segment [AddCmd] accepts before the last one. *)
Definition valid_segment (s : string) : bool :=
  negb (String.eqb s "") && negb (String.eqb s ":").

(** ** Formatting helpers: [fmt] and [text/tabwriter] *)

Definition nl : string := String (ascii_of_nat 10) EmptyString.
Definition tab : string := String (ascii_of_nat 9) EmptyString.

Fixpoint spaces (n : nat) : string :=
  match n with
  | O => EmptyString
  | S k => String " "%char (spaces k)
  end.

(** [fmt.Fprintln(&b, s...)] on string operands: the operands separated by
    single spaces, then a newline. *)
Definition Sprintln (s : list string) : string := String.concat " " s +:+ nl.

(** [utf8.RuneCount] and [utf8.RuneCountInString].  [utf8_first] is the
    table [first] of the package: for a leading byte, the length of the
    sequence it starts and the range its second byte must lie in; length 1
    stands for one-byte characters and for bytes that start no sequence. *)
Definition utf8_first (c : nat) : nat * nat * nat :=
  if (c <? 194)%nat then (1, 0, 0)%nat
  else if (c <? 224)%nat then (2, 128, 191)%nat
  else if (c =? 224)%nat then (3, 160, 191)%nat
  else if (c =? 237)%nat then (3, 128, 159)%nat
  else if (c <? 240)%nat then (3, 128, 191)%nat
  else if (c =? 240)%nat then (4, 144, 191)%nat
  else if (c <? 244)%nat then (4, 128, 191)%nat
  else if (c =? 244)%nat then (4, 128, 143)%nat
  else (1, 0, 0)%nat.

Definition byte_in (lo hi : nat) (s : string) (i : nat) : bool :=
  match String.get i s with
  | Some b => ((lo <=? nat_of_ascii b) && (nat_of_ascii b <=? hi))%nat
  | None => false
  end.

(** The number of bytes the loop of [RuneCount] advances by at the byte
    [c] followed by [rest]: the length of a well-formed sequence, or 1. *)
Definition rune_size (c : ascii) (rest : string) : nat :=
  let '(size, lo, hi) := utf8_first (nat_of_ascii c) in
  if (size <=? 1)%nat then 1
  else if (String.length rest <? size - 1)%nat then 1
  else if negb (byte_in lo hi rest 0) then 1
  else if (size =? 2)%nat then 2
  else if negb (byte_in 128 191 rest 1) then 1
  else if (size =? 3)%nat then 3
  else if negb (byte_in 128 191 rest 2) then 1
  else 4.

(** [skip] bytes of the sequence being read are still to be passed. *)
Fixpoint rune_count (skip : nat) (s : string) : nat :=
  match s with
  | EmptyString => O
  | String c rest =>
      match skip with
      | S k => rune_count k rest
      | O => S (rune_count (rune_size c rest - 1) rest)
      end
  end.

Definition RuneCount (s : string) : nat := rune_count 0 s.

(** [fmt.Sprintf("%-15s", s)]: [s] padded on the right to [n] characters
    (runes, as [fmt] counts them). *)
Definition pad_right (n : nat) (s : string) : string :=
  s +:+ spaces (n - RuneCount s).

(** *** [text/tabwriter]

    A cell is its text and its width in runes.  A line is the list of its
    terminated cells; the last cell of a line belongs to no column.
    [tw_format] follows [Writer.format]: at column [length widths], lines
    without a cell in that column are written with the widths known so
    far; a maximal run of consecutive lines with such a cell is a column
    block, whose width is the widest cell plus the padding (at least
    [minwidth]), and which is formatted with that width appended.  Cells
    are padded with spaces (the pad character of [HelpText]) and aligned
    left (no flag is set). *)
Definition tw_cell : Type := (string * nat)%type.

Definition tw_has_col (col : nat) (line : list tw_cell) : bool :=
  (col <? length line - 1)%nat.

Fixpoint tw_span (col : nat) (lines : list (list tw_cell))
  : list (list tw_cell) * list (list tw_cell) :=
  match lines with
  | [] => ([], [])
  | l :: ls =>
      if tw_has_col col l
      then let '(b, r) := tw_span col ls in (l :: b, r)
      else ([], lines)
  end.

Definition tw_block_width (minwidth padding col : nat) (block : list (list tw_cell))
  : nat :=
  fold_left
    (fun width line =>
       let w := (snd (nth col line ("", O)) + padding)%nat in
       if (width <? w)%nat then w else width)
    block minwidth.

Fixpoint tw_write_line (widths : list nat) (cells : list tw_cell) : string :=
  match cells with
  | [] => ""
  | c :: cs =>
      match widths with
      | w :: ws => fst c +:+ spaces (w - snd c) +:+ tw_write_line ws cs
      | [] => fst c +:+ tw_write_line [] cs
      end
  end.

Fixpoint tw_format (fuel minwidth padding : nat) (widths : list nat)
  (lines : list (list tw_cell)) : list string :=
  match fuel with
  | O => map (tw_write_line widths) lines
  | S fuel' =>
      match lines with
      | [] => []
      | l :: ls =>
          let column := length widths in
          if tw_has_col column l then
            let '(block, rest) := tw_span column lines in
            let width := tw_block_width minwidth padding column block in
            tw_format fuel' minwidth padding (widths ++ [width]) block
              ++ tw_format fuel' minwidth padding widths rest
          else
            tw_write_line widths l :: tw_format fuel' minwidth padding widths ls
      end
  end.

Definition tw_fuel (lines : list (list tw_cell)) : nat :=
  fold_right (fun l n => S (length l + n)) 1%nat lines.

(** What a flush writes for the buffered lines: every line but the last
    is followed by a newline. *)
Definition tw_flush (minwidth padding : nat) (lines : list (list tw_cell)) : string :=
  String.concat nl (tw_format (tw_fuel lines) minwidth padding [] lines).

Definition tw_tab : ascii := ascii_of_nat 9.
Definition tw_newline : ascii := ascii_of_nat 10.
Definition tw_vtab : ascii := ascii_of_nat 11.
Definition tw_formfeed : ascii := ascii_of_nat 12.
(** [tabwriter.Escape] *)
Definition tw_Escape : ascii := ascii_of_nat 255.

(** [Writer.Write] byte by byte, then [Writer.Flush] at the end of the
    text; the state of the writer is kept from one [Write] to the next, so
    the writes of [HelpText] are one text.  [esc] tells whether an escaped
    sequence is open, [lines] are the buffered lines before the current
    one, [line] the terminated cells of the current line, [text] and
    [width] the cell being read, [seg] its bytes not yet counted in
    [width].  A tab or a vertical tab ends a cell; a newline or a form
    feed ends a cell and its line, and the buffer is flushed at a form
    feed and after a line of a single cell; [Escape] opens and closes an
    escaped sequence, whose bytes are text and whose two [Escape] bytes
    are written but not counted.  (For an escape that the last byte of
    the text opens, the code counts the width of the last cell as -1, here
    it is 0: [tw_format] does not read the width of the last cell of a
    line.) *)
Fixpoint tw_write (minwidth padding : nat) (esc : bool)
  (lines : list (list tw_cell)) (line : list tw_cell)
  (text : string) (width : nat) (seg : string) (s : string) : string :=
  match s with
  | EmptyString =>
      let line :=
        if String.eqb text "" then line
        else line ++ [(text, if esc then width + RuneCount seg - 2 else width)] in
      tw_flush minwidth padding (lines ++ [line])
  | String ch rest =>
      let text' := text +:+ String ch "" in
      let seg' := seg +:+ String ch "" in
      if esc then
        if Ascii.eqb ch tw_Escape
        then tw_write minwidth padding false lines line text'
               (width + RuneCount seg' - 2) "" rest
        else tw_write minwidth padding true lines line text' width seg' rest
      else if Ascii.eqb ch tw_tab || Ascii.eqb ch tw_vtab then
        tw_write minwidth padding false lines
          (line ++ [(text, width + RuneCount seg)]) "" 0 "" rest
      else if Ascii.eqb ch tw_newline || Ascii.eqb ch tw_formfeed then
        let line := line ++ [(text, width + RuneCount seg)] in
        if Ascii.eqb ch tw_formfeed || (length line =? 1)%nat
        then tw_flush minwidth padding (lines ++ [line; []])
               +:+ tw_write minwidth padding false [] [] "" 0 "" rest
        else tw_write minwidth padding false (lines ++ [line]) [] "" 0 "" rest
      else if Ascii.eqb ch tw_Escape then
        tw_write minwidth padding true lines line text'
          (width + RuneCount seg) (String ch "") rest
      else tw_write minwidth padding false lines line text' width seg' rest
  end.

(** [w := tabwriter.NewWriter(&b, minwidth, _, padding, ' ', 0)], the
    writes of [text] to [w], and [w.Flush()]. *)
Definition tabwriter (minwidth padding : nat) (text : string) : string :=
  tw_write minwidth padding false [] [] "" 0 "" text.

(** ** Tokenizing, for the fallback of [Do] *)

(** [unicode.IsSpace] on one-byte characters. *)
Definition isSpace (a : ascii) : bool :=
  let n := nat_of_ascii a in
  ((9 <=? n) && (n <=? 13) || (n =? 32))%nat.

(** [strings.Fields]: the maximal runs of non-space characters; [cur] is
    the run being read, reversed. *)
Fixpoint fields_from (cur : string) (s : string) : list string :=
  match s with
  | EmptyString => if String.eqb cur "" then [] else [rev_string cur]
  | String a s' =>
      if isSpace a
      then (if String.eqb cur "" then fields_from "" s'
            else rev_string cur :: fields_from "" s')
      else fields_from (String a cur) s'
  end.

Definition Fields (s : string) : list string := fields_from "" s.

(** ** Instances of the unspecified parts, used to run the model *)

(** The store that holds the objects [cs] at the addresses 0, 1, ... *)
Definition store_of (cs : list Cmd.t) : heap :=
  list_to_map (zip (seq 0 (length cs)) cs).

(** One admissible iteration order of a map. *)
Definition order_canonical (m : gmap string ptr) : list (string * ptr) :=
  map_to_list m.

(** Another one. *)
Definition order_reversed (m : gmap string ptr) : list (string * ptr) :=
  rev (map_to_list m).

(** The order of Go's [<] on strings: bytewise lexicographic. *)
Definition string_le : relation string := fun a b => String.leb a b = true.

Definition key_le {A : Type} (key : A -> string) : relation A :=
  fun x y => string_le (key x) (key y).

#[global] Instance key_le_dec {A : Type} (key : A -> string) (x y : A)
  : Decision (key_le key x y).
Proof. unfold key_le, string_le. apply _. Defined.

(** One admissible sorting routine. *)
Definition sort_merge (A : Type) (key : A -> string) (l : list A) : list A :=
  merge_sort (key_le key) l.

(** A tokenizer that honours no quoting: it agrees with [shlex.Split] on
    lines without quote, escape and comment characters. *)
Definition shlex_unquoted (line : string) : option (list string) :=
  Some (Fields line).

(** ** Example stores *)

(** A root and one unregistered node named by the path [path]. *)
Definition ex_one (path : string) : heap :=
  store_of [Cmd.new ""; Cmd.new path].

(** A root and two unregistered nodes named by the paths [p1] and [p2]. *)
Definition ex_two (p1 p2 : string) : heap :=
  store_of [Cmd.new ""; Cmd.new p1; Cmd.new p2].

(** The store after [root.AddCmd(node 1)], then [root.AddCmd(node 2)]. *)
Definition registered (h : heap) (cmds : list ptr) : heap :=
  fold_left (fun h cmd => match AddCmd h 0 cmd with Ok h' => h' | Fault _ => h end)
            cmds h.

(** A root, an unregistered node named [:a], and an unregistered node
    named [b] that carries the alias [:a]. *)
Definition ex_marked_alias : heap :=
  store_of [Cmd.new ""; Cmd.new ":a";
            Cmd.mk "b" [":a"] "" "" [] None None None StaticKind].

(** A root (address 0) with the static children [start] (with the alias
    [st] and a one-line help), [stop] (with a long help) and [status]. *)
Definition ex_service : heap :=
  store_of
    [ Cmd.mk "" [] "" "" [] None
        (Some (<["start" := 1]> (<["stop" := 2]> (<["status" := 3]> ∅))))
        None StaticKind;
      Cmd.mk "start" ["st"] "starts the service" "" [] (Some 0) None None StaticKind;
      Cmd.mk "stop" [] "stops the service" "stops the service, waiting for it"
        [] (Some 0) None None StaticKind;
      Cmd.mk "status" [] "" "" [] (Some 0) None None StaticKind ].

(** The same with the alias [st] also on [stop]. *)
Definition ex_two_aliases : heap :=
  store_of
    [ Cmd.mk "" [] "" "" [] None
        (Some (<["start" := 1]> (<["stop" := 2]> ∅))) None StaticKind;
      Cmd.mk "start" ["st"] "" "" [] (Some 0) None None StaticKind;
      Cmd.mk "stop" ["st"] "" "" [] (Some 0) None None StaticKind ].

(** A root with the static child [run], which takes the pair argument
    [--out] and the flag [--verbose]. *)
Definition ex_run : heap :=
  store_of
    [ Cmd.mk "" [] "" "" [] None (Some (<["run" := 1]> ∅)) None StaticKind;
      Cmd.mk "run" [] "runs" ""
        [Arg.mk "--out" true false "output file"; Arg.mk "--verbose" false true "talk"]
        (Some 0) None None StaticKind ].

(** A root whose param child (address 1) is named [a], and an
    unregistered node named [:b]. *)
Definition ex_wild : heap :=
  store_of
    [ Cmd.mk "" [] "" "" [] None None (Some 1) StaticKind;
      Cmd.mk "a" [] "" "" [] (Some 0) None None ParamKind;
      Cmd.new ":b" ].

(** A root named [app] whose only child is the static child [help]. *)
Definition ex_help : heap :=
  store_of
    [ Cmd.mk "app" [] "an app" "" [] None (Some (<["help" := 1]> ∅)) None StaticKind;
      Cmd.mk "help" [] "shows help" "" [] (Some 0) None None StaticKind ].

Section Ishell.

(** The order in which [range] visits the entries of a map. *)
Variable map_order : gmap string ptr -> list (string * ptr).

(** [sort.Sort] of a slice ordered by a string key. *)
Variable sort_by : forall A : Type, (A -> string) -> list A -> list A.

(** [shlex.Split] of the external tokenizer; [None] is its error. *)
Variable shlex_Split : string -> option (list string).

(** *** Children and help *)

Fixpoint load_all (h : heap) (ps : list ptr) : result (list (ptr * Cmd.t)) :=
  match ps with
  | [] => Ok []
  | p :: ps' =>
      c ← load h p;
      cs ← load_all h ps';
      Ok ((p, c) :: cs)
  end.

Definition Children (h : heap) (c : ptr) : result (list ptr) :=
  cc ← load h c;
  let cmds := map snd (map_order (map_of (Cmd.staticChildren cc))) in
  let cmds := match Cmd.paramChild cc with
              | Some q => cmds ++ [q]
              | None => cmds
              end in
  cs ← load_all h cmds;
  Ok (map fst (sort_by _ (fun pc => Cmd.Name (snd pc)) cs)).

Definition hasSubcommand (h : heap) (c : ptr) : result bool :=
  cc ← load h c;
  let m := map_of (Cmd.staticChildren cc) in
  if (1 <? size m)%nat || bool_decide (Cmd.paramChild cc ≠ None) then Ok true
  else match m !! "help" with
       | None => Ok (0 <? size m)%nat
       | Some _ => Ok false
       end.

(** The closure [p] of [HelpText], as a function of the buffer. *)
Definition HelpText_p (b : string) (s : list string) : string :=
  let b := b +:+ nl in
  match s with
  | [] => b
  | _ => b +:+ Sprintln s
  end.

(** The text of [fmt.Fprintf(w, "\t%s\t\t\t%s\n", child.Name, child.Help)]
    over the children. *)
Fixpoint HelpText_rows (h : heap) (children : list ptr) : result string :=
  match children with
  | [] => Ok ""
  | p :: ps =>
      child ← load h p;
      rest ← HelpText_rows h ps;
      Ok (tab +:+ Cmd.Name child +:+ tab +:+ tab +:+ tab +:+ Cmd.Help child
              +:+ nl +:+ rest)
  end.

Definition HelpText (h : heap) (c : ptr) : result string :=
  cc ← load h c;
  let b := "" in
  let b :=
    if negb (String.eqb (Cmd.LongHelp cc) "") then HelpText_p b [Cmd.LongHelp cc]
    else if negb (String.eqb (Cmd.Help cc) "") then HelpText_p b [Cmd.Help cc]
    else if negb (String.eqb (Cmd.Name cc) "")
         then HelpText_p b [Cmd.Name cc; "has no help"]
    else b in
  sub ← hasSubcommand h c;
  if sub : bool then
    let b := HelpText_p b ["Commands:"] in
    children ← Children h c;
    rows ← HelpText_rows h children;
    let b := b +:+ tabwriter 0 2 rows in
    Ok (HelpText_p b [])
  else Ok b.

Definition helpText (c : Cmd.t) : string :=
  if negb (String.eqb (Cmd.LongHelp c) "") then Cmd.LongHelp c else Cmd.Help c.

(** *** Path resolution *)

(** The alias loop of [findChildCmd], over the entries in iteration order. *)
Fixpoint findAlias (h : heap) (name : string) (entries : list (string * ptr))
  : result (option ptr) :=
  match entries with
  | [] => Ok None
  | (_, cmd) :: rest =>
      c ← load h cmd;
      if existsb (fun alias => String.eqb alias name) (Cmd.Aliases c)
      then Ok (Some cmd)
      else findAlias h name rest
  end.

Definition findChildCmd (h : heap) (c : ptr) (name : string)
  : result (option ptr) :=
  cc ← load h c;
  let m := map_of (Cmd.staticChildren cc) in
  match m !! name with
  | Some cmd => Ok (Some cmd)
  | None =>
      r ← findAlias h name (map_order m);
      match r with
      | Some cmd => Ok (Some cmd)
      | None => Ok (Cmd.paramChild cc)
      end
  end.

(** The loop of [FindCmd]: [_c] is the node reached, [cmd] the last match. *)
Fixpoint FindCmd_loop (h : heap) (_c : ptr) (cmd : option ptr)
  (args : list string) (ctx : Context)
  : result (option ptr * list string * Context) :=
  match args with
  | [] => Ok (cmd, [], ctx)
  | arg :: rest =>
      r ← findChildCmd h _c arg;
      match r with
      | Some cmd1 =>
          c1 ← load h cmd1;
          let ctx :=
            match Cmd.kind c1 with
            | ParamKind => ctx ++ [Param.mk (Cmd.Name c1) arg]
            | StaticKind => ctx
            end in
          FindCmd_loop h cmd1 (Some cmd1) rest ctx
      | None => Ok (cmd, args, ctx)
      end
  end.

(** [c.FindCmd(args, ctx)]: the matched node, the remaining arguments, and
    the context after the call.  (For a nil [ctx] the code binds the
    parameters in a context of its own, which the caller never sees.) *)
Definition FindCmd (h : heap) (c : ptr) (args : list string) (ctx : Context)
  : result (option ptr * list string * Context) :=
  FindCmd_loop h c None args ctx.

(** *** Completion *)

(** The loop of [getWords] over the static children, in iteration order. *)
Fixpoint staticWords (h : heap) (prefix : string) (entries : list (string * ptr))
  : result (list Suggestion.t) :=
  match entries with
  | [] => Ok []
  | (k, child) :: rest =>
      if negb (HasPrefix k prefix) then staticWords h prefix rest
      else
        c ← load h child;
        s ← staticWords h prefix rest;
        Ok (Suggestion.mk k false false (helpText c) :: s)
  end.

(** The first loop over [cmd.Args]: the value slot of the first [Pair]
    argument named [last], if any. *)
Fixpoint pairSlot (last : string) (specs : list Arg.t) : option Suggestion.t :=
  match specs with
  | [] => None
  | arg :: rest =>
      if String.eqb (Arg.Name arg) last && Arg.Pair arg
      then Some (Suggestion.mk (Arg.Name arg) true (Arg.Optional arg) (Arg.Help arg))
      else pairSlot last rest
  end.

(** The second loop over [cmd.Args]: the arguments not yet given. *)
Fixpoint argWords (argMap : gset string) (specs : list Arg.t)
  : list Suggestion.t :=
  match specs with
  | [] => []
  | arg :: rest =>
      if bool_decide (Arg.Name arg ∈ argMap) then argWords argMap rest
      else Suggestion.mk (Arg.Name arg) false (Arg.Optional arg) (Arg.Help arg)
             :: argWords argMap rest
  end.

(** The body of [getWords] after resolution: the suggestions for node
    [cmd] and leftover arguments [args], sorted by the deferred call. *)
Definition candidates (h : heap) (prefix : string) (cmd : ptr)
  (args : list string) : result (list Suggestion.t) :=
  cc ← load h cmd;
  s ← staticWords h prefix (map_order (map_of (Cmd.staticChildren cc)));
  s ← match Cmd.paramChild cc with
      | Some q =>
          qc ← load h q;
          Ok (s ++ [Suggestion.mk (Cmd.Name qc) true false (helpText qc)])
      | None => Ok s
      end;
  let argMap : gset string := list_to_set args in
  let slot := match args with
              | [] => None
              | _ => pairSlot (List.last args "") (Cmd.Args cc)
              end in
  match slot with
  | Some sg => Ok (sort_by _ Suggestion.Word (s ++ [sg]))
  | None => Ok (sort_by _ Suggestion.Word (s ++ argWords argMap (Cmd.Args cc)))
  end.

Definition getWords (h : heap) (ic_cmd : ptr) (prefix : string)
  (w : list string) : result (list Suggestion.t) :=
  '(cmd, args, _) ← FindCmd h ic_cmd w [];
  let cmd := match cmd with
             | None => ic_cmd
             | Some c => c
             end in
  candidates h prefix cmd args.

(** The tokens of [Do]: [shlex.Split], or [strings.Fields] on its error. *)
Definition Do_words (line : string) : list string :=
  match shlex_Split line with
  | Some w => w
  | None => Fields line
  end.

(** The prefix and the words handed to [getWords] by [Do]. *)
Definition Do_prefix (line : string) (pos : Z) (words : list string)
  : result (string * list string) :=
  if bool_decide (0 < length words)%nat && bool_decide (0 < pos)%Z then
    match String.get (Z.to_nat (pos - 1)) line with
    | None => Fault IndexOutOfRange
    | Some a =>
        if negb (Ascii.eqb a " "%char)
        then Ok (List.last words "", removelast words)
        else Ok ("", words)
    end
  else Ok ("", words).

Definition Do_tip (w : Suggestion.t) : string :=
  let leftBracket :=
    if Suggestion.Optional w && negb (Suggestion.Param w) then "[" else "" in
  let righeBracket :=
    if Suggestion.Optional w && negb (Suggestion.Param w) then "]" else "" in
  let leftAngle := if Suggestion.Param w then "<" else "" in
  let rightAngel := if Suggestion.Param w then ">" else "" in
  let tip := leftBracket +:+ leftAngle +:+ Suggestion.Word w
               +:+ rightAngel +:+ righeBracket in
  pad_right 15 tip +:+ " " +:+ Suggestion.Help w.

(** The loop of [Do] over [cWords]: suggestions, tips and [hasParam]. *)
Fixpoint Do_scan (prefix : string) (cWords : list Suggestion.t)
  : list string * list string * bool :=
  match cWords with
  | [] => ([], [], false)
  | w :: ws =>
      let '(suggestions, tips, hasParam) := Do_scan prefix ws in
      (if negb (Suggestion.Param w) && HasPrefix (Suggestion.Word w) prefix
       then TrimPrefix (Suggestion.Word w) prefix :: suggestions
       else suggestions,
       Do_tip w :: tips,
       Suggestion.Param w || hasParam)
  end.

(** [ic.Do(line, pos)]: the suggestions, [length], [offset], and the lines
    printed on the shell.  [disabled] is the outcome of [ic.disabled()],
    or [None] for a nil [ic.disabled]. *)
Definition Do (h : heap) (ic_cmd : ptr) (disabled : option bool)
  (line : string) (pos : Z) : result (list string * Z * Z * list string) :=
  if bool_decide (disabled = Some true)
  then Ok ([], 0%Z, Z.of_nat (String.length line), [])
  else
    let words := Do_words line in
    '(prefix, w) ← Do_prefix line pos words;
    cWords ← getWords h ic_cmd prefix w;
    let '(suggestions, tips, hasParam) := Do_scan prefix cWords in
    let '(suggestions, hasParam) :=
      match suggestions with
      | [s0] =>
          if negb (String.eqb prefix "") && String.eqb s0 ""
          then ([" "], false)
          else (suggestions, hasParam)
      | _ => (suggestions, hasParam)
      end in
    let length := (Z.of_nat (length suggestions)
                   + (if hasParam then 1 else 0))%Z in
    let printed :=
      if bool_decide (1 < length)%Z || hasParam
      then match tips with
           | [] => []
           | _ => "" :: tips
           end
      else [] in
    Ok (suggestions, length, Z.of_nat (String.length prefix), printed).


(** *** The rules as the specification words them *)

(** The prefix rule of the specification: the last token is the prefix
    when the character before the cursor is not whitespace and there is
    a token; otherwise the prefix is empty and all tokens are resolved. *)
Definition Do_prefix_spec (line : string) (pos : Z) (words : list string)
  : string * list string :=
  match String.get (Z.to_nat (pos - 1)) line with
  | Some a =>
      if bool_decide (0 < pos)%Z && negb (isSpace a)
         && bool_decide (0 < length words)%nat
      then (List.last words "", removelast words)
      else ("", words)
  | None => ("", words)
  end.

(** Some static child of the node lists [name] among its aliases. *)
Definition has_alias (h : heap) (name : string) (q : ptr) : Prop :=
  exists cq, h !! q = Some cq /\ name ∈ Cmd.Aliases cq.


(** [resolvedHelp] of the specification. *)
Definition resolvedHelp (c : Cmd.t) : string :=
  if negb (String.eqb (Cmd.LongHelp c) "") then Cmd.LongHelp c
  else if negb (String.eqb (Cmd.Help c) "") then Cmd.Help c
  else if negb (String.eqb (Cmd.Name c) "") then Cmd.Name c +:+ " has no help"
  else "".

(** The rows of [FullHelp] as the specification words them: every child
    is paired with its resolved help text. *)
Fixpoint FullHelp_rows (h : heap) (children : list ptr) : result string :=
  match children with
  | [] => Ok ""
  | p :: ps =>
      child ← load h p;
      rest ← FullHelp_rows h ps;
      Ok (tab +:+ Cmd.Name child +:+ tab +:+ tab +:+ tab +:+ resolvedHelp child
              +:+ nl +:+ rest)
  end.

(** [FullHelp] of the specification, laid out as [HelpText] lays its
    text out. *)
Definition FullHelp (h : heap) (c : ptr) : result string :=
  cc ← load h c;
  let b := match resolvedHelp cc with
           | EmptyString => ""
           | text => HelpText_p "" [text]
           end in
  sub ← hasSubcommand h c;
  if sub : bool then
    let b := HelpText_p b ["Commands:"] in
    children ← Children h c;
    rows ← FullHelp_rows h children;
    let b := b +:+ tabwriter 0 2 rows in
    Ok (HelpText_p b [])
  else Ok b.

(** The help paragraph [HelpText] starts with. *)
Definition helpParagraph (c : Cmd.t) : string :=
  match resolvedHelp c with
  | EmptyString => ""
  | text => nl +:+ text +:+ nl
  end.

(** A byte the tabwriter gives a meaning to: tab, vertical tab, newline,
    form feed and [Escape]. *)
Definition tw_special (ch : ascii) : bool :=
  Ascii.eqb ch tw_tab || Ascii.eqb ch tw_vtab || Ascii.eqb ch tw_newline
  || Ascii.eqb ch tw_formfeed || Ascii.eqb ch tw_Escape.

(** A name or help text without such bytes. *)
Fixpoint plain_text (s : string) : bool :=
  match s with
  | EmptyString => true
  | String ch s' => negb (tw_special ch) && plain_text s'
  end.

(** One line of the table of children: two columns of padding, the name
    padded to the width [w] of its column, two empty columns, the help. *)
Definition aligned_row (w : nat) (name help : string) : string :=
  "  " +:+ name +:+ spaces (w - RuneCount name) +:+ "    " +:+ help.

Definition name_of (h : heap) (p : ptr) : string :=
  match h !! p with Some c => Cmd.Name c | None => "" end.

Definition help_of (h : heap) (p : ptr) : string :=
  match h !! p with Some c => Cmd.Help c | None => "" end.

(** The width of the name column: the longest name, in runes, and the
    padding. *)
Definition name_width (h : heap) (children : list ptr) : nat :=
  max_list ((fun p => RuneCount (name_of h p)) <$> children) + 2.

Definition aligned_rows (h : heap) (children : list ptr) : string :=
  String.concat ""
    ((fun p => aligned_row (name_width h children) (name_of h p) (help_of h p) +:+ nl)
       <$> children).

(** The addresses of the children of a node, in any order. *)
Definition child_ptrs (cc : Cmd.t) : list ptr :=
  (map_to_list (map_of (Cmd.staticChildren cc))).*2
    ++ match Cmd.paramChild cc with Some q => [q] | None => [] end.


(** The text [HelpText] writes to the tabwriter for one child, without
    its newline, and for a list of (name, help) pairs. *)
Definition row_text (name help : string) : string :=
  tab +:+ name +:+ tab +:+ tab +:+ tab +:+ help.

Definition rows_text (rows : list (string * string)) : string :=
  fold_right (fun r acc => row_text r.1 r.2 +:+ nl +:+ acc) "" rows.

Definition row_cells (r : string * string) : list tw_cell :=
  [("", O); (r.1, RuneCount r.1); ("", O); ("", O); (r.2, RuneCount r.2)].


(** Every node of [V] is still there in [V'], with all its static
    children, its param child if it had one, and its aliases. *)
Definition links_kept (V V' : gmap ptr view) : Prop :=
  forall x v, V !! x = Some v ->
    exists v', V' !! x = Some v' /\
      v_static v ⊆ v_static v' /\
      (forall q, v_param v = Some q -> v_param v' = Some q) /\
      v_aliases v' = v_aliases v.

(** The path that [AddCmd] accepts: a non-empty name whose segments
    before the last are neither empty nor the bare marker, and whose last
    segment is not empty. *)
Definition valid_path (name : string) : Prop :=
  name <> "" /\
  Forall (fun s => valid_segment s = true) (removelast (path_segments name)) /\
  List.last (path_segments name) "" <> "".


(** The tokens that follow a registered path: equal to the segment at a
    static segment, any token at a wildcard segment. *)
Fixpoint path_matches (segs toks : list string) : bool :=
  match segs, toks with
  | [], [] => true
  | s :: segs', t :: toks' =>
      (is_wild s || String.eqb s t) && path_matches segs' toks'
  | _, _ => false
  end.

(** The parameters such tokens give: at every wildcard segment, its name
    without the marker bound to the token. *)
Fixpoint path_bindings (segs toks : list string) : Context :=
  match segs, toks with
  | s :: segs', t :: toks' =>
      (if is_wild s then [Param.mk (slice1 s) t] else [])
        ++ path_bindings segs' toks'
  | _, _ => []
  end.

(** An object without children. *)
Definition bare (c : Cmd.t) : Prop :=
  map_of (Cmd.staticChildren c) = ∅ /\ Cmd.paramChild c = None.

(** The object [cn] has the child [x] in the slot of the segment [s]; for
    a wildcard segment it has no static child beside. *)
Definition only_child (cn : Cmd.t) (s : string) (x : ptr) : Prop :=
  if is_wild s
  then map_of (Cmd.staticChildren cn) = ∅ /\ Cmd.paramChild cn = Some x
  else map_of (Cmd.staticChildren cn) !! s = Some x.

(** The object [cx] is marked as [addCmd] marks a child linked under the
    segment [s]. *)
Definition labelled (cx : Cmd.t) (s : string) : Prop :=
  if is_wild s
  then Cmd.kind cx = ParamKind /\ Cmd.Name cx = slice1 s
  else Cmd.kind cx = StaticKind.

(** From the node [n] the segments [segs] lead, child by child, to [c]. *)
Fixpoint hchain (h : heap) (n : ptr) (segs : list string) (c : ptr) : Prop :=
  match segs with
  | [] => n = c
  | s :: rest =>
      exists cn x cx, h !! n = Some cn /\ only_child cn s x /\
        h !! x = Some cx /\ labelled cx s /\ hchain h x rest c
  end.


(** Where a candidate of [getWords] may come from, at the node [cc]
    reached with the leftover tokens [args]: a static child whose name
    has the prefix, the param child, the value slot of the [Pair]
    argument named last, or an argument not among the leftover tokens. *)
Definition candidate_source (h : heap) (prefix : string) (cc : Cmd.t)
  (args : list string) (s : Suggestion.t) : Prop :=
  (Suggestion.Param s = false /\ Suggestion.Optional s = false /\
   HasPrefix (Suggestion.Word s) prefix = true /\
   exists q cq, map_of (Cmd.staticChildren cc) !! Suggestion.Word s = Some q /\
     h !! q = Some cq /\ Suggestion.Help s = helpText cq) \/
  (Suggestion.Param s = true /\ Suggestion.Optional s = false /\
   exists q cq, Cmd.paramChild cc = Some q /\ h !! q = Some cq /\
     Suggestion.Word s = Cmd.Name cq /\ Suggestion.Help s = helpText cq) \/
  (exists spec, spec ∈ Cmd.Args cc /\
     Suggestion.Word s = Arg.Name spec /\ Suggestion.Help s = Arg.Help spec /\
     Suggestion.Optional s = Arg.Optional spec /\
     ((Suggestion.Param s = true /\ Arg.Pair spec = true /\ args <> [] /\
       List.last args "" = Arg.Name spec) \/
      (Suggestion.Param s = false /\ Arg.Name spec ∉ args))).

(** * Properties *)

(** ** The store *)

Lemma bind_Ok {A B : Type} (a : A) (k : A -> result B) : Ok a ≫= k = k a.
Proof. reflexivity. Qed.

Lemma bind_Fault {A B : Type} (f : fault) (k : A -> result B) :
  Fault f ≫= k = Fault f.
Proof. reflexivity. Qed.

Lemma bind_Ok_inv {A B : Type} (m : result A) (k : A -> result B) (b : B) :
  m ≫= k = Ok b -> exists a, m = Ok a /\ k a = Ok b.
Proof. destruct m as [a|f]; [eauto | discriminate]. Qed.

Lemma load_Ok h p c : h !! p = Some c -> load h p = Ok c.
Proof. unfold load. by intros ->. Qed.

Lemma load_Ok_inv h p c : load h p = Ok c -> h !! p = Some c.
Proof. unfold load. by destruct (h !! p); intros; simplify_eq. Qed.

Lemma assign_Ok h p f c : h !! p = Some c -> assign h p f = Ok (<[p := f c]> h).
Proof. unfold assign. intros H. by rewrite (load_Ok _ _ _ H). Qed.

Lemma hview_lookup h p : hview h !! p = view_of <$> h !! p.
Proof. apply lookup_fmap. Qed.

Lemma hview_insert h p c : hview (<[p := c]> h) = <[p := view_of c]> (hview h).
Proof. apply fmap_insert. Qed.

Lemma hview_dom h : dom (hview h) = dom h.
Proof. apply dom_fmap_L. Qed.

(** A write that leaves the links and aliases of the object alone does
    not change the view. *)
Lemma hview_insert_same h p c c' :
  h !! p = Some c -> view_of c' = view_of c -> hview (<[p := c']> h) = hview h.
Proof.
  intros Hp Hv. rewrite hview_insert, Hv.
  apply insert_id. by rewrite hview_lookup, Hp.
Qed.

Lemma index0_Ok_inv s a : index0 s = Ok a -> s = String a (slice1 s).
Proof. destruct s; simpl; intros; simplify_eq; done. Qed.

Lemma is_wild_index0 s : s <> "" -> index0 s = Ok (match s with String a _ => a | _ => "000"%char end).
Proof. by destruct s. Qed.

(** ** [addCmd] on the links *)

Lemma view_of_attach_wild p child :
  Cmd.paramChild p = None ->
  view_of (Cmd.set_paramChild (Some child) p)
  = mkview (v_static (view_of p)) (Some child) (v_aliases (view_of p)).
Proof. done. Qed.

Lemma addCmd_spec h parent child c p :
  h !! child = Some c -> h !! parent = Some p -> Cmd.Name c <> "" ->
  exists h',
    addCmd h parent child
      = Ok (h', snd (v_addCmd (hview h) parent (Cmd.Name c) child)) /\
    hview h' = fst (v_addCmd (hview h) parent (Cmd.Name c) child) /\
    dom h' = dom h /\
    (forall x, x <> child -> Cmd.Name <$> h' !! x = Cmd.Name <$> h !! x).
Proof.
  intros Hc Hp Hn. unfold addCmd, v_addCmd.
  rewrite (load_Ok _ _ _ Hc), bind_Ok.
  destruct (Cmd.Name c) as [|a name'] eqn:En; [done|]. simpl index0. rewrite bind_Ok.
  rewrite (load_Ok _ _ _ Hp), bind_Ok.
  rewrite hview_lookup, Hp. simpl default.
  unfold v_attach, v_edge. simpl is_wild.
  assert (Hdom : forall x : Cmd.t, dom (<[child := x]> h) = dom h).
  { intros x. apply dom_insert_lookup_L. eauto. }
  destruct (Ascii.eqb a paramLabel) eqn:Ea.
  - simpl v_param. destruct (Cmd.paramChild p) as [q|] eqn:Eq.
    + exists h. split; [done|]. split; [|done]. simpl.
      symmetry. apply insert_id. by rewrite hview_lookup, Hp.
    + rewrite (assign_Ok _ _ _ _ Hc), bind_Ok.
      erewrite assign_Ok by apply lookup_insert_eq. rewrite bind_Ok.
      erewrite assign_Ok by apply lookup_insert_eq. rewrite bind_Ok.
      rewrite !insert_insert_eq.
      set (c3 := Cmd.set_parent _ _).
      assert (Hv3 : view_of c3 = view_of c) by done.
      destruct (decide (parent = child)) as [->|Hne].
      * erewrite assign_Ok by apply lookup_insert_eq. rewrite bind_Ok.
        eexists. split; [done|]. simpl. rewrite insert_insert_eq.
        assert (p = c) as -> by congruence.
        split; [by rewrite hview_insert|]. split; [apply Hdom|].
        intros x Hx. by rewrite lookup_insert_ne.
      * erewrite assign_Ok by (rewrite lookup_insert_ne by done; apply Hp).
        rewrite bind_Ok. eexists. split; [done|]. simpl.
        rewrite hview_insert, (hview_insert_same _ _ c) by done.
        split; [by rewrite view_of_attach_wild|]. split.
        -- rewrite dom_insert_lookup_L; [apply Hdom|].
           rewrite lookup_insert_ne by done. eauto.
        -- intros x Hx. rewrite lookup_insert. case_decide as Hxp.
           ++ subst. by rewrite Hp.
           ++ by rewrite lookup_insert_ne.
  - rewrite bind_Ok. simpl v_static.
    assert (exists h1 p1 c1,
               match Cmd.staticChildren p with
               | Some _ => Ok h
               | None => assign h parent (Cmd.set_staticChildren (Some ∅))
               end = Ok h1 /\
               h1 !! parent = Some p1 /\ h1 !! child = Some c1 /\
               view_of p1 = view_of p /\ view_of c1 = view_of c /\
               hview h1 = hview h /\ dom h1 = dom h /\
               (parent = child -> p1 = c1) /\
               (forall x, Cmd.Name <$> h1 !! x = Cmd.Name <$> h !! x))
      as (h1 & p1 & c1 & -> & Hp1 & Hc1 & Hvp & Hvc & Hv1 & Hd1 & Hal & Hnm).
    { destruct (Cmd.staticChildren p) as [m|] eqn:Em.
      - exists h, p, c. repeat split; try done. congruence.
      - rewrite (assign_Ok _ _ _ _ Hp).
        set (p1 := Cmd.set_staticChildren _ _).
        assert (Hvp : view_of p1 = view_of p).
        { unfold view_of, p1. simpl. by rewrite Em. }
        assert (Hnm : forall x, Cmd.Name <$> <[parent := p1]> h !! x
                                = Cmd.Name <$> h !! x).
        { intros x. rewrite lookup_insert. case_decide; [|done]. subst.
          by rewrite Hp. }
        destruct (decide (parent = child)) as [->|Hne].
        + exists (<[child := p1]> h), p1, p1.
          rewrite lookup_insert_eq. repeat split; try done.
          * rewrite Hvp. congruence.
          * by apply (hview_insert_same _ _ p).
        + exists (<[parent := p1]> h), p1, c.
          rewrite lookup_insert_eq, lookup_insert_ne by done.
          repeat split; try done.
          * by apply (hview_insert_same _ _ p).
          * apply dom_insert_lookup_L. eauto. }
    rewrite bind_Ok, (load_Ok _ _ _ Hp1), bind_Ok.
    replace (map_of (Cmd.staticChildren p1)) with (v_static (view_of p))
      by (by rewrite <- Hvp).
    simpl v_static.
    destruct (map_of (Cmd.staticChildren p) !! String a name') as [q|] eqn:Eq.
    + exists h1. split; [done|]. split; [|done]. simpl.
      rewrite Hv1. symmetry. apply insert_id. by rewrite hview_lookup, Hp.
    + rewrite (assign_Ok _ _ _ _ Hc1), bind_Ok.
      erewrite assign_Ok by apply lookup_insert_eq. rewrite bind_Ok.
      rewrite !insert_insert_eq.
      set (c3 := Cmd.set_parent _ _).
      assert (Hv3 : view_of c3 = view_of c1) by done.
      assert (Hdom1 : forall x : Cmd.t, dom (<[child := x]> h1) = dom h).
      { intros x. rewrite dom_insert_lookup_L; eauto. }
      destruct (decide (parent = child)) as [->|Hne].
      * rewrite (load_Ok _ _ c3), bind_Ok by apply lookup_insert_eq.
        erewrite assign_Ok by apply lookup_insert_eq. rewrite bind_Ok.
        eexists. split; [done|]. simpl. rewrite insert_insert_eq.
        split; [|split; [apply Hdom1|]].
        -- rewrite hview_insert, Hv1. f_equal.
           specialize (Hal eq_refl). subst c1.
           assert (p = c) as -> by congruence.
           unfold view_of at 1. simpl.
           change (map_of (Cmd.staticChildren p1)) with (v_static (view_of p1)).
           change (Cmd.paramChild p1) with (v_param (view_of p1)).
           change (Cmd.Aliases p1) with (v_aliases (view_of p1)).
           by rewrite Hvp.
        -- intros x Hx. by rewrite lookup_insert_ne, Hnm.
      * rewrite (load_Ok _ _ p1), bind_Ok by (by rewrite lookup_insert_ne).
        erewrite assign_Ok by (rewrite lookup_insert_ne by done; apply Hp1).
        rewrite bind_Ok. eexists. split; [done|]. simpl.
        rewrite hview_insert, (hview_insert_same _ _ c1), Hv1 by done.
        split; [|split].
        -- f_equal. unfold view_of at 1. simpl.
           change (map_of (Cmd.staticChildren p1)) with (v_static (view_of p1)).
           change (Cmd.paramChild p1) with (v_param (view_of p1)).
           change (Cmd.Aliases p1) with (v_aliases (view_of p1)).
           by rewrite Hvp.
        -- rewrite dom_insert_lookup_L; [apply Hdom1|].
           rewrite lookup_insert_ne by done. eauto.
        -- intros x Hx. rewrite lookup_insert. case_decide as Hxp.
           ++ subst. rewrite <- Hnm, Hp1. done.
           ++ by rewrite lookup_insert_ne, Hnm.
Qed.

Lemma addCmd_Ok_inv h parent child r :
  addCmd h parent child = Ok r ->
  exists c p, h !! child = Some c /\ h !! parent = Some p /\ Cmd.Name c <> "".
Proof.
  unfold addCmd. intros H.
  apply bind_Ok_inv in H as (c & Hc%load_Ok_inv & H).
  apply bind_Ok_inv in H as (a & Ha%index0_Ok_inv & H).
  assert (exists p, load h parent = Ok p) as [p Hp].
  { destruct (Ascii.eqb a paramLabel);
      apply bind_Ok_inv in H as (p & Hp & _); eauto. }
  exists c, p. split; [done|]. split; [by apply load_Ok_inv|].
  rewrite Ha. done.
Qed.


(** ** Wildcard registration *)




(** ** Path resolution *)

Hypothesis map_order_perm : forall m, map_order m ≡ₚ map_to_list m.

Lemma elem_of_map_order m k q : (k, q) ∈ map_order m <-> m !! k = Some q.
Proof. rewrite map_order_perm. apply elem_of_map_to_list. Qed.

Lemma FindCmd_loop_Some h c cmd0 args ctx r rest ctx' :
  FindCmd_loop h c (Some cmd0) args ctx = Ok (r, rest, ctx') -> is_Some r.
Proof.
  revert c cmd0 ctx. induction args as [|arg args IH]; intros c cmd0 ctx; simpl.
  - intros; simplify_eq; eauto.
  - intros H. apply bind_Ok_inv in H as ([cmd1|] & _ & H).
    + apply bind_Ok_inv in H as (c1 & _ & H). by eapply IH.
    + simplify_eq; eauto.
Qed.

(** When nothing matches, the leftover is the whole token list and no
    parameter was bound. *)
Lemma FindCmd_None h c args ctx rest ctx' :
  FindCmd h c args ctx = Ok (None, rest, ctx') -> rest = args /\ ctx' = ctx.
Proof.
  unfold FindCmd. destruct args as [|arg args]; simpl.
  - intros; by simplify_eq.
  - intros H. apply bind_Ok_inv in H as ([cmd1|] & _ & H).
    + apply bind_Ok_inv in H as (c1 & _ & H).
      apply FindCmd_loop_Some in H as [? ?]. done.
    + by simplify_eq.
Qed.


(** With a non-empty leftover, resolution stopped at a node (the last
    match, or the start node when nothing matched) that offers nothing
    for the first leftover token. *)
Lemma FindCmd_loop_leftover h c cmd args ctx r t rest ctx' :
  FindCmd_loop h c cmd args ctx = Ok (r, t :: rest, ctx') ->
  exists node, findChildCmd h node t = Ok None /\
    (r = cmd /\ node = c \/ r = Some node).
Proof.
  revert c cmd ctx. induction args as [|arg args IH]; intros c cmd ctx; simpl.
  - intros; simplify_eq.
  - intros H. apply bind_Ok_inv in H as ([cmd1|] & Hf & H).
    + apply bind_Ok_inv in H as (c1 & _ & H).
      destruct (IH _ _ _ H) as (node & Hnode & [[-> ->]| ->]); eauto.
    + simplify_eq. eauto.
Qed.


Lemma existsb_alias name aliases :
  existsb (fun alias => String.eqb alias name) aliases = true <-> name ∈ aliases.
Proof.
  rewrite existsb_exists. split.
  - intros (a & Hin & ->%String.eqb_eq). by apply list_elem_of_In.
  - intros Hin. exists name. split; [by apply list_elem_of_In|].
    apply String.eqb_refl.
Qed.

Lemma findAlias_None h name entries :
  Forall (fun e => is_Some (h !! e.2) /\ ~ has_alias h name e.2) entries ->
  findAlias h name entries = Ok None.
Proof.
  induction 1 as [|[k q] entries [[cq Hq] Hno] _ IH]; simpl; [done|].
  simpl in *. rewrite (load_Ok _ _ _ Hq), bind_Ok.
  destruct (existsb _ _) eqn:E; [|done].
  exfalso. apply Hno. exists cq. split; [done|]. by apply existsb_alias.
Qed.

Lemma findAlias_Some h name entries :
  Forall (fun e => is_Some (h !! e.2)) entries ->
  Exists (fun e => has_alias h name e.2) entries ->
  exists e, e ∈ entries /\ has_alias h name e.2 /\
    findAlias h name entries = Ok (Some e.2).
Proof.
  induction 1 as [|[k q] entries [cq Hq] Hall IH]; intros Hex.
  - by apply Exists_nil in Hex.
  - simpl in *. rewrite (load_Ok _ _ _ Hq), bind_Ok.
    destruct (existsb _ _) eqn:E.
    + exists (k, q). split; [left|]. split; [|done].
      exists cq. split; [done|]. by apply existsb_alias.
    + apply Exists_cons in Hex as [(cq' & Hq' & Hin)|Hex].
      * simpl in *. simplify_eq. apply existsb_alias in Hin. congruence.
      * destruct (IH Hex) as (e & He & Ha & Hf).
        exists e. split; [by right|]. done.
Qed.


Section FindChild.
Variables (h : heap) (c : ptr) (cc : Cmd.t).
Hypothesis Hc : h !! c = Some cc.
Let m := map_of (Cmd.staticChildren cc).
Hypothesis Halloc : forall k q, m !! k = Some q -> is_Some (h !! q).

(** (a) a static child of that very name is returned first; *)
Lemma findChildCmd_exact name q :
  m !! name = Some q -> findChildCmd h c name = Ok (Some q).
Proof using Hc.
  intros Hq. unfold findChildCmd. rewrite (load_Ok _ _ _ Hc), bind_Ok.
  fold m. by rewrite Hq.
Qed.

(** (b) else a static child that lists the token as an alias; *)
Lemma findChildCmd_alias name :
  m !! name = None ->
  (exists k q, m !! k = Some q /\ has_alias h name q) ->
  exists k q, m !! k = Some q /\ has_alias h name q /\
    findChildCmd h c name = Ok (Some q).
Proof using Hc Halloc map_order_perm.
  intros Hno (k & q & Hk & Ha).
  destruct (findAlias_Some h name (map_order m)) as ([k' q'] & He & Ha' & Hf).
  - apply Forall_forall. intros [k1 q1] H1%elem_of_map_order. by eapply Halloc.
  - apply Exists_exists. exists (k, q). split; [|done]. by apply elem_of_map_order.
  - exists k', q'. apply elem_of_map_order in He. repeat split; try done.
    unfold findChildCmd. rewrite (load_Ok _ _ _ Hc), bind_Ok.
    fold m. by rewrite Hno, Hf.
Qed.

(** (c) else the param child. *)
Lemma findChildCmd_param name :
  m !! name = None ->
  (forall k q, m !! k = Some q -> ~ has_alias h name q) ->
  findChildCmd h c name = Ok (Cmd.paramChild cc).
Proof using Hc Halloc map_order_perm.
  intros Hno Hna. unfold findChildCmd. rewrite (load_Ok _ _ _ Hc), bind_Ok.
  fold m. rewrite Hno, findAlias_None; [done|].
  apply Forall_forall. intros [k1 q1] H1%elem_of_map_order. simpl. eauto.
Qed.
End FindChild.

(** C8, as amended: let a node have a static child registered under
    [name] that carries the alias [alias]; if no static child is named
    [alias] and no other static child lists [alias] among its aliases,
    then resolving the single token [alias] returns the same node, with
    the same (empty) leftover, as resolving the token [name].  Each
    resolution step tries (a) the static child of that exact name, then
    (b) a static child with that alias, then (c) the param child. *)
Theorem FindCmd_alias_same_node h n cc name alias s ctx :
  h !! n = Some cc ->
  (forall k q, map_of (Cmd.staticChildren cc) !! k = Some q -> is_Some (h !! q)) ->
  map_of (Cmd.staticChildren cc) !! name = Some s ->
  has_alias h alias s ->
  map_of (Cmd.staticChildren cc) !! alias = None ->
  (forall k q, map_of (Cmd.staticChildren cc) !! k = Some q ->
     has_alias h alias q -> q = s) ->
  (exists ctx1 ctx2,
      FindCmd h n [alias] ctx = Ok (Some s, [], ctx1) /\
      FindCmd h n [name] ctx = Ok (Some s, [], ctx2)) /\
  (forall t q, map_of (Cmd.staticChildren cc) !! t = Some q ->
     findChildCmd h n t = Ok (Some q)) /\
  (forall t, map_of (Cmd.staticChildren cc) !! t = None ->
     (exists k q, map_of (Cmd.staticChildren cc) !! k = Some q /\ has_alias h t q) ->
     exists k q, map_of (Cmd.staticChildren cc) !! k = Some q /\ has_alias h t q /\
       findChildCmd h n t = Ok (Some q)) /\
  (forall t, map_of (Cmd.staticChildren cc) !! t = None ->
     (forall k q, map_of (Cmd.staticChildren cc) !! k = Some q -> ~ has_alias h t q) ->
     findChildCmd h n t = Ok (Cmd.paramChild cc)).
Proof.
  intros Hn Halloc Hs Ha Hno Huniq.
  split; [|split; [|split]].
  - destruct (findChildCmd_alias h n cc Hn Halloc alias Hno) as (k & q & Hk & Hq & Hf).
    { by exists name, s. }
    assert (q = s) as -> by eauto.
    destruct Ha as (cs & Hcs & _).
    unfold FindCmd. simpl.
    rewrite Hf, (findChildCmd_exact h n cc Hn name s Hs), !bind_Ok.
    rewrite (load_Ok _ _ _ Hcs), !bind_Ok. eauto.
  - intros t q. by apply findChildCmd_exact.
  - intros t. by apply findChildCmd_alias.
  - intros t. by apply findChildCmd_param.
Qed.

(** ** Completion: the fallback of [getWords] *)

(** C9: whenever resolution matches no token ([FindCmd] yields no node),
    the leftover it returns is the entire token list, and [getWords]
    generates its candidates for the bound root itself with that entire
    list as the leftover arguments. *)
Theorem getWords_unmatched_uses_root h root prefix w args ctx' :
  FindCmd h root w [] = Ok (None, args, ctx') ->
  args = w /\ getWords h root prefix w = candidates h prefix root w.
Proof.
  intros H. destruct (FindCmd_None _ _ _ _ _ _ H) as [-> ->].
  split; [done|]. unfold getWords. by rewrite H, bind_Ok.
Qed.


(** ** Completion: candidates *)

Hypothesis sort_by_perm :
  forall (A : Type) (key : A -> string) (l : list A), sort_by A key l ≡ₚ l.
Hypothesis sort_by_sorted :
  forall (A : Type) (key : A -> string) (l : list A),
    Sorted (key_le key) (sort_by A key l).

Lemma staticWords_Ok h prefix entries :
  Forall (fun e => is_Some (h !! e.2)) entries ->
  exists statics,
    staticWords h prefix entries = Ok statics /\
    Suggestion.Word <$> statics
      = filter (fun k => HasPrefix k prefix = true) (entries.*1) /\
    Forall (fun s => Suggestion.Param s = false /\
                     exists q, (Suggestion.Word s, q) ∈ entries) statics.
Proof.
  induction 1 as [|[k q] entries [cq Hq] _ (statics & IH & Hw & Hall)]; simpl.
  - by exists [].
  - simpl in Hq. rewrite filter_cons. simpl.
    assert (Hall' : Forall (fun s => Suggestion.Param s = false /\
                      exists q0, (Suggestion.Word s, q0) ∈ (k, q) :: entries) statics).
    { eapply Forall_impl; [exact Hall|]. intros s [? [q0 ?]].
      split; [done|]. exists q0. by right. }
    destruct (HasPrefix k prefix) eqn:E; simpl.
    + rewrite (load_Ok _ _ _ Hq), bind_Ok, IH, bind_Ok.
      eexists. split; [done|]. split; [by rewrite fmap_cons, Hw|].
      constructor; [|done]. split; [done|]. exists q. left.
    + exists statics. by rewrite IH.
Qed.





(** ** The prefix rule of [Do] *)

Lemma get_in_range (n : nat) (line : string) :
  (n < String.length line)%nat -> is_Some (String.get n line).
Proof.
  revert n. induction line as [|a s IH]; intros n Hlt; simpl in *; [lia|].
  destruct n; [eauto|]. apply IH. lia.
Qed.

Lemma Do_prefix_nonspace line pos words a :
  (0 < pos)%Z -> String.get (Z.to_nat (pos - 1)) line = Some a ->
  a <> " "%char -> words <> [] ->
  Do_prefix line pos words = Ok (List.last words "", removelast words).
Proof.
  intros H0 Ha Hne Hw. unfold Do_prefix.
  rewrite (bool_decide_eq_true_2 _ H0).
  rewrite bool_decide_eq_true_2 by (destruct words; [done|simpl; lia]).
  simpl. rewrite Ha.
  destruct (Ascii.eqb_spec a " "%char); done.
Qed.

Lemma Do_prefix_empty line pos words :
  pos = 0%Z \/ words = [] \/
    String.get (Z.to_nat (pos - 1)) line = Some " "%char ->
  Do_prefix line pos words = Ok ("", words).
Proof.
  unfold Do_prefix. intros [->|[->|Hsp]]; [by rewrite andb_false_r|done|].
  rewrite Hsp. simpl. by destruct (_ && _).
Qed.

(** C7, as amended: for every line, every cursor position within the
    line and every token list, if the cursor is not at position 0, the
    character before it is not the space character [' '] and there is a
    token, then the last token is the prefix and the tokens before it are
    resolved; otherwise (a space before the cursor, the cursor at
    position 0, or no token) the prefix is empty and all tokens are
    resolved.  Only the space character counts: no other whitespace is
    looked for. *)
Theorem Do_prefix_rule line pos words :
  (0 <= pos <= Z.of_nat (String.length line))%Z ->
  (forall a, (0 < pos)%Z -> String.get (Z.to_nat (pos - 1)) line = Some a ->
     a <> " "%char -> words <> [] ->
     Do_prefix line pos words = Ok (List.last words "", removelast words)) /\
  ((pos = 0%Z \/ words = [] \/
    String.get (Z.to_nat (pos - 1)) line = Some " "%char) ->
   Do_prefix line pos words = Ok ("", words)) /\
  (exists prefix w, Do_prefix line pos words = Ok (prefix, w)).
Proof.
  intros Hpos. split; [|split].
  - intros a. apply Do_prefix_nonspace.
  - apply Do_prefix_empty.
  - destruct (decide (pos = 0%Z)) as [->|Hne].
    { rewrite Do_prefix_empty by auto. eauto. }
    destruct (get_in_range (Z.to_nat (pos - 1)) line) as [a Ha]; [lia|].
    destruct words as [|w ws]; [rewrite Do_prefix_empty by auto; eauto|].
    destruct (decide (a = " "%char)) as [->|Hsp].
    + rewrite Do_prefix_empty by auto. eauto.
    + rewrite (Do_prefix_nonspace _ _ _ a) by (done || lia). eauto.
Qed.


(** ** Completion of a prefix *)

Lemma compare_Lt_trans (a b c : string) :
  String.compare a b = Lt -> String.compare b c = Lt -> String.compare a c = Lt.
Proof.
  revert b c. induction a as [|x a IH]; intros [|y b] [|z c]; simpl; try done.
  destruct (Ascii.compare x y) eqn:Exy; try done;
    destruct (Ascii.compare y z) eqn:Eyz; try done.
  - apply Ascii.compare_eq_iff in Exy as ->. rewrite Eyz. apply IH.
  - apply Ascii.compare_eq_iff in Exy as ->. by rewrite Eyz.
  - apply Ascii.compare_eq_iff in Eyz as <-. by rewrite Exy.
  - unfold Ascii.compare in *. intros _ _.
    rewrite N.compare_lt_iff in *. by rewrite (N.lt_trans _ _ _ Exy Eyz).
Qed.

#[local] Instance string_le_trans : Transitive string_le.
Proof.
  intros a b c. unfold string_le, String.leb.
  destruct (String.compare a b) eqn:Eab; try done;
    destruct (String.compare b c) eqn:Ebc; try done; intros _ _.
  - apply String.compare_eq_iff in Eab as ->. by rewrite Ebc.
  - apply String.compare_eq_iff in Eab as ->. by rewrite Ebc.
  - apply String.compare_eq_iff in Ebc as <-. by rewrite Eab.
  - by rewrite (compare_Lt_trans _ _ _ Eab Ebc).
Qed.

#[local] Instance string_le_antisym : AntiSymm (=) string_le.
Proof. intros a b. apply String.leb_antisym. Qed.

(** Sorting by a key sorts the keys. *)
Lemma sort_by_keys {A : Type} (key : A -> string) (l : list A) :
  Sorted string_le (key <$> sort_by A key l) /\ key <$> sort_by A key l ≡ₚ key <$> l.
Proof.
  split; [|by rewrite sort_by_perm].
  apply (Sorted_fmap key (key_le key) string_le); [done|]. apply sort_by_sorted.
Qed.

(** Without parameter suggestions, the loop of [Do] offers the words that
    have the prefix, stripped of it, and sets no [hasParam]. *)
Lemma Do_scan_plain prefix cWords :
  Forall (fun s => Suggestion.Param s = false) cWords ->
  Do_scan prefix cWords
  = ((fun w => TrimPrefix w prefix)
       <$> filter (fun w => HasPrefix w prefix = true) (Suggestion.Word <$> cWords),
     Do_tip <$> cWords, false).
Proof.
  induction 1 as [|w ws Hw _ IH]; [done|].
  simpl Do_scan. rewrite IH, Hw, !fmap_cons, filter_cons. simpl negb.
  destruct (HasPrefix (Suggestion.Word w) prefix) eqn:E.
  - by rewrite decide_True.
  - by rewrite decide_False.
Qed.


(** C4: let the node reached by the tokens before the cursor have exactly
    the static children [start], [stop] and [status], no argument spec
    and no param child.  A completion call at the end of a line whose
    last token is the prefix [st] returns the suggestion strings [art],
    [atus], [op] (the words sorted: start, status, stop), reports 3
    candidates, and a replace length of 2, the length of the prefix. *)
Theorem Do_completes_prefix_st h root disabled line pos ws a r args ctx' cc p1 p2 p3 :
  disabled <> Some true ->
  Do_words line = ws ++ ["st"] ->
  pos = Z.of_nat (String.length line) ->
  String.get (Z.to_nat (pos - 1)) line = Some a -> a <> " "%char ->
  FindCmd h root ws [] = Ok (r, args, ctx') ->
  h !! default root r = Some cc ->
  map_of (Cmd.staticChildren cc)
    = <["start" := p1]> (<["stop" := p2]> (<["status" := p3]> ∅)) ->
  is_Some (h !! p1) -> is_Some (h !! p2) -> is_Some (h !! p3) ->
  Cmd.Args cc = [] -> Cmd.paramChild cc = None ->
  exists printed,
    Do h root disabled line pos = Ok (["art"; "atus"; "op"], 3%Z, 2%Z, printed).
Proof.
  intros Hdis Hwords Hpos Hget Ha Hfind Hcc Hm H1 H2 H3 Hargs Hparam.
  assert (Hlen : (0 < pos)%Z).
  { destruct line; [by destruct (Z.to_nat (pos - 1))|]. simpl in Hpos. lia. }
  unfold Do. rewrite bool_decide_eq_false_2 by done.
  rewrite Hwords, (Do_prefix_nonspace _ _ _ a) by (done || by destruct ws).
  rewrite bind_Ok, last_last, removelast_last.
  unfold getWords. rewrite Hfind, bind_Ok.
  replace (match r with Some c => c | None => root end) with (default root r)
    by (by destruct r).
  unfold candidates. rewrite (load_Ok _ _ _ Hcc), bind_Ok.
  destruct (staticWords_Ok h "st" (map_order (map_of (Cmd.staticChildren cc))))
    as (statics & -> & Hw & Hall).
  { apply Forall_forall. intros [k q] Hk%elem_of_map_order.
    rewrite Hm in Hk. simpl.
    apply lookup_insert_Some in Hk as [[_ <-]|[_ Hk]]; [done|].
    apply lookup_insert_Some in Hk as [[_ <-]|[_ Hk]]; [done|].
    apply lookup_insert_Some in Hk as [[_ <-]|[_ Hk]]; done. }
  rewrite bind_Ok, Hparam, bind_Ok, Hargs.
  replace (match args with [] => None | _ :: _ => pairSlot (List.last args "") [] end)
    with (@None Suggestion.t) by (by destruct args).
  simpl argWords. rewrite app_nil_r, bind_Ok.
  set (res := sort_by _ Suggestion.Word statics).
  assert (Hres : Suggestion.Word <$> res = ["start"; "status"; "stop"]).
  { destruct (sort_by_keys Suggestion.Word statics) as [Hs Hp].
    apply (Sorted_unique string_le); [done| |].
    - repeat constructor.
    - fold res in Hp. rewrite Hp, Hw, map_order_perm, Hm.
      rewrite !map_to_list_insert, map_to_list_empty by done.
      rewrite !fmap_cons, fmap_nil. simpl fst.
      rewrite !filter_cons_True, filter_nil by done.
      apply perm_skip, perm_swap. }
  assert (Hnop : Forall (fun s => Suggestion.Param s = false) res).
  { unfold res. rewrite sort_by_perm.
    eapply Forall_impl; [exact Hall|]. by intros s [? _]. }
  rewrite (Do_scan_plain _ _ Hnop), Hres.
  rewrite !filter_cons_True, filter_nil by done.
  eexists. reflexivity.
Qed.


(** ** Registration on the links *)

Lemma v_attach_static seg child v k q :
  v_static (v_attach seg child v) !! k = Some q ->
  v_static v !! k = Some q \/ (q = child /\ k = seg /\ is_wild seg = false).
Proof.
  unfold v_attach. destruct (v_edge v seg) eqn:E; [by auto|].
  destruct (is_wild seg) eqn:Ew; simpl; [by auto|].
  intros [[-> ->]|[_ ?]]%lookup_insert_Some; auto.
Qed.

Lemma v_attach_param seg child v q :
  v_param (v_attach seg child v) = Some q -> v_param v = Some q \/ q = child.
Proof.
  unfold v_attach. destruct (v_edge v seg) eqn:E; [by auto|].
  destruct (is_wild seg) eqn:Ew; simpl; [|by auto].
  intros; simplify_eq; auto.
Qed.

Lemma v_attach_aliases seg child v :
  v_aliases (v_attach seg child v) = v_aliases v.
Proof.
  unfold v_attach. destruct (v_edge v seg); [done|]. by destruct (is_wild seg).
Qed.

(** The slot of [seg] afterwards holds the returned node. *)
Lemma v_attach_edge seg child v :
  v_edge (v_attach seg child v) seg = Some (default child (v_edge v seg)).
Proof.
  unfold v_attach. destruct (v_edge v seg) eqn:E; [done|].
  unfold v_edge in *. destruct (is_wild seg); simpl; [done|].
  by rewrite lookup_insert_eq.
Qed.

(** Links are only ever added. *)
Lemma v_attach_mono seg child v t q :
  v_edge v t = Some q -> v_edge (v_attach seg child v) t = Some q.
Proof.
  unfold v_attach. destruct (v_edge v seg) eqn:E; [done|].
  unfold v_edge in *. destruct (is_wild seg) eqn:Es, (is_wild t) eqn:Et;
    simpl; try done; [congruence|].
  intros Hq. rewrite lookup_insert_ne; [done|]. congruence.
Qed.

Lemma v_addCmd_lookup V parent seg child x :
  (v_addCmd V parent seg child).1 !! x
  = if decide (parent = x)
    then Some (v_attach seg child (default v_empty (V !! parent)))
    else V !! x.
Proof. unfold v_addCmd. simpl. by rewrite lookup_insert. Qed.

Lemma v_addCmd_closed V parent seg child :
  closed V -> is_Some (V !! parent) -> is_Some (V !! child) ->
  closed (v_addCmd V parent seg child).1 /\
  is_Some ((v_addCmd V parent seg child).1 !! (v_addCmd V parent seg child).2) /\
  dom (v_addCmd V parent seg child).1 = dom V.
Proof.
  intros Hcl [v Hv] Hchild.
  assert (Hsome : forall x, is_Some (V !! x) ->
                       is_Some ((v_addCmd V parent seg child).1 !! x)).
  { intros x Hx. rewrite v_addCmd_lookup. case_decide; eauto. }
  split; [|split].
  - intros p w Hp. rewrite v_addCmd_lookup in Hp.
    case_decide; simplify_eq.
    + rewrite Hv. simpl default. destruct (Hcl _ _ Hv) as [Hs Hpm]. split.
      * intros k q [Hq|(-> & _)]%v_attach_static; [|by auto].
        apply Hsome. by eapply Hs.
      * intros q [Hq| ->]%v_attach_param; [|by auto].
        apply Hsome. by eapply Hpm.
    + destruct (Hcl _ _ Hp) as [Hs Hpm].
      split; intros; apply Hsome; eauto.
  - apply Hsome. unfold v_addCmd. simpl snd. rewrite Hv. simpl default.
    destruct (v_edge v seg) as [q|] eqn:E; [|done]. simpl default.
    destruct (Hcl _ _ Hv) as [Hs Hpm].
    unfold v_edge in E. destruct (is_wild seg); eauto.
  - unfold v_addCmd. simpl. apply dom_insert_lookup_L. eauto.
Qed.

Lemma closed_alloc V p :
  closed V -> V !! p = None -> closed (<[p := mkview ∅ None []]> V).
Proof.
  intros Hcl Hp x w Hx.
  assert (Hsome : forall y, is_Some (V !! y) ->
                       is_Some (<[p := mkview ∅ None []]> V !! y)).
  { intros y Hy. rewrite lookup_insert. case_decide; eauto. }
  apply lookup_insert_Some in Hx as [[_ <-]|[_ Hx]]; simpl.
  - split; [intros k q; by rewrite lookup_empty|done].
  - destruct (Hcl _ _ Hx) as [Hs Hpm]. split; intros; apply Hsome; eauto.
Qed.

Lemma alloc_fresh h : h !! alloc h = None.
Proof. unfold alloc. apply (not_elem_of_dom (D:=gset ptr)), is_fresh. Qed.

Lemma alloc_hview h : fresh (dom (hview h)) = alloc h.
Proof. unfold alloc. by rewrite hview_dom. Qed.

Lemma addPath_cons h last nm name rest :
  addPath h last nm (name :: rest)
  = c0 ← index0 name;
    if Ascii.eqb c0 paramLabel && (String.length name <? 2)%nat then
      Fault (Panic ("wildcards must be named with a non-empty name '"
                      +:+ nm +:+ "'"))
    else
      '(h2, q) ← addCmd (<[alloc h := Cmd.new name]> h) last (alloc h);
      addPath h2 q nm rest.
Proof. done. Qed.

Lemma v_addPath_cons V last name rest :
  v_addPath V last (name :: rest)
  = let V1 := <[fresh (dom V) := mkview ∅ None []]> V in
    v_addPath (v_addCmd V1 last name (fresh (dom V))).1
              (v_addCmd V1 last name (fresh (dom V))).2 rest.
Proof. done. Qed.

Lemma addPath_app h last nm l1 l2 :
  addPath h last nm (l1 ++ l2)
  = '(h', q) ← addPath h last nm l1; addPath h' q nm l2.
Proof.
  revert h last. induction l1 as [|name l1 IH]; intros h last; [done|].
  rewrite <- app_comm_cons, !addPath_cons.
  destruct (index0 name) as [a|f]; [|done]. rewrite !bind_Ok.
  destruct (_ && _); [done|].
  destruct (addCmd _ last (alloc h)) as [[h2 q]|f]; [|done].
  rewrite !bind_Ok. apply IH.
Qed.

Lemma valid_segment_inv s :
  valid_segment s = true ->
  s <> "" /\ exists a, index0 s = Ok a /\
    Ascii.eqb a paramLabel && (String.length s <? 2)%nat = false.
Proof.
  unfold valid_segment. destruct s as [|a s]; [done|]. intros H.
  split; [done|]. exists a. split; [done|].
  destruct s; [|by rewrite andb_false_r]. simpl.
  rewrite andb_true_r. destruct (Ascii.eqb_spec a paramLabel); [|done].
  subst. done.
Qed.

(** The loop of [AddCmd] runs through valid segments without fault, and
    does to the links what [v_addPath] says. *)
Lemma addPath_Ok h last nm names :
  closed (hview h) -> is_Some (h !! last) ->
  Forall (fun s => valid_segment s = true) names ->
  exists h' q,
    addPath h last nm names = Ok (h', q) /\
    (hview h', q) = v_addPath (hview h) last names /\
    closed (hview h') /\ is_Some (h' !! q) /\ dom h ⊆ dom h'.
Proof.
  intros Hcl Hlast Hvalid. revert h last Hcl Hlast.
  induction Hvalid as [|name names Hv _ IH]; intros h last Hcl [cl Hlast].
  - exists h, last. simpl. eauto.
  - rewrite addPath_cons, v_addPath_cons.
    apply valid_segment_inv in Hv as (Hne & a & -> & Hb).
    rewrite bind_Ok, Hb, alloc_hview.
    set (p := alloc h). set (h1 := <[p := Cmd.new name]> h).
    set (V1 := <[p := mkview ∅ None []]> (hview h)).
    assert (HV1 : hview h1 = V1) by apply hview_insert.
    assert (Hp : h !! p = None) by apply alloc_fresh.
    assert (Hlp : last <> p) by congruence.
    destruct (addCmd_spec h1 last p (Cmd.new name) cl) as (h2 & Hadd & Hview & Hdom & _).
    { apply lookup_insert_eq. }
    { unfold h1. by rewrite lookup_insert_ne. }
    { done. }
    simpl Cmd.Name in *. rewrite HV1 in Hadd, Hview.
    rewrite Hadd, bind_Ok.
    destruct (v_addCmd_closed V1 last name p) as (Hcl2 & Hq & Hd2).
    { apply closed_alloc; [done|]. by rewrite hview_lookup, Hp. }
    { unfold V1. rewrite lookup_insert_ne, hview_lookup, Hlast by done. eauto. }
    { unfold V1. rewrite lookup_insert_eq. eauto. }
    rewrite <- Hview in *.
    destruct (IH h2 (v_addCmd V1 last name p).2) as (h' & q' & Hpath & Hv' & Hcl' & Hq' & Hsub).
    { done. }
    { by rewrite hview_lookup, fmap_is_Some in Hq. }
    exists h', q'. split; [done|]. split; [by rewrite Hv', Hview|].
    split; [done|]. split; [done|].
    etrans; [|exact Hsub]. rewrite Hdom. unfold h1.
    rewrite dom_insert_L. apply union_subseteq_r.
Qed.


(** ** Faults of registration and deletion *)

Lemma removelast_app_cons {A : Type} (l1 l2 : list A) (x : A) :
  removelast (l1 ++ x :: l2) = l1 ++ removelast (x :: l2).
Proof. by apply removelast_app. Qed.

(** C10, as amended: [DeleteCmd] with the empty name always faults with
    an out-of-range index; so does [AddCmd], on an allocated receiver,
    for every non-empty path with an empty segment (a doubled separator,
    a path of separators only) before which all segments are accepted,
    that is, are neither empty nor the bare marker.  (A bare marker
    before the empty segment raises the documented wildcard panic first,
    and the empty path the documented empty-name panic.) *)
Theorem empty_segment_index_out_of_range :
  (forall h c, DeleteCmd h c "" = Fault IndexOutOfRange) /\
  (forall h c cmd cm pre post,
      closed (hview h) -> is_Some (h !! c) ->
      h !! cmd = Some cm -> Cmd.Name cm <> "" ->
      path_segments (Cmd.Name cm) = pre ++ "" :: post ->
      Forall (fun s => valid_segment s = true) pre ->
      AddCmd h c cmd = Fault IndexOutOfRange).
Proof.
  split; [done|].
  intros h c cmd cm pre post Hcl [cc Hc] Hcmd Hne Hsegs Hpre.
  unfold AddCmd. rewrite (load_Ok _ _ _ Hcmd), bind_Ok.
  destruct (String.eqb_spec (Cmd.Name cm) ""); [done|].
  rewrite (assign_Ok _ _ _ _ Hcmd), bind_Ok.
  fold (path_segments (Cmd.Name cm)). rewrite Hsegs.
  set (trimmed := TrimSuffix _ _).
  set (h1 := <[cmd := Cmd.set_Name trimmed cm]> h).
  assert (Hv1 : hview h1 = hview h) by (by apply (hview_insert_same _ _ cm)).
  destruct (addPath_Ok h1 c trimmed pre) as (h2 & last & Hpath & _ & _ & Hlast & Hsub).
  { by rewrite Hv1. }
  { unfold h1. rewrite lookup_insert. case_decide; eauto. }
  { done. }
  assert (is_Some (h2 !! cmd)) as [cm2 Hcm2].
  { apply elem_of_dom, Hsub, elem_of_dom. unfold h1. rewrite lookup_insert_eq. eauto. }
  destruct post as [|s post].
  - rewrite removelast_last, last_last, Hpath, bind_Ok.
    rewrite (assign_Ok _ _ _ _ Hcm2), bind_Ok.
    unfold addCmd.
    by rewrite (load_Ok _ cmd (Cmd.set_Name "" cm2)) by apply lookup_insert_eq.
  - rewrite removelast_app_cons, addPath_app, Hpath, bind_Ok.
    change (removelast ("" :: s :: post)) with ("" :: removelast (s :: post)).
    by rewrite addPath_cons.
Qed.


(** ** Strings and the tabwriter *)

Lemma append_cons x s t : String x s +:+ t = String x (s +:+ t).
Proof. done. Qed.

Lemma append_nil_l t : "" +:+ t = t.
Proof. done. Qed.

Lemma append_nil_r s : s +:+ "" = s.
Proof. induction s as [|x s IH]; [done|]. by rewrite append_cons, IH. Qed.

Lemma append_assoc a b c : (a +:+ b) +:+ c = a +:+ (b +:+ c).
Proof. induction a as [|x a IH]; [done|]. by rewrite !append_cons, IH. Qed.

Lemma append_length a b :
  String.length (a +:+ b) = (String.length a + String.length b)%nat.
Proof. induction a as [|x a IH]; [done|]. rewrite append_cons. simpl. by rewrite IH. Qed.

Lemma string_of_list_ascii_snoc l x :
  string_of_list_ascii (l ++ [x]) = string_of_list_ascii l +:+ String x "".
Proof. induction l as [|y l IH]; [done|]. simpl. by rewrite IH. Qed.

Lemma rev_string_cons x s : rev_string (String x s) = rev_string s +:+ String x "".
Proof. unfold rev_string. simpl. apply string_of_list_ascii_snoc. Qed.

Lemma tab_cons s : tab +:+ s = String tw_tab s.
Proof. done. Qed.

Lemma nl_cons s : nl +:+ s = String tw_newline s.
Proof. done. Qed.

(** The writer passes over plain text, which it adds to the cell. *)
Lemma tw_write_plain mw pad lines line text width seg a rest :
  plain_text a = true ->
  tw_write mw pad false lines line text width seg (a +:+ rest)
  = tw_write mw pad false lines line (text +:+ a) width (seg +:+ a) rest.
Proof.
  revert text seg. induction a as [|ch a IH]; intros text seg Hplain.
  - by rewrite append_nil_l, !append_nil_r.
  - simpl in Hplain. apply andb_true_iff in Hplain as [Hch Ha].
    apply negb_true_iff in Hch. unfold tw_special in Hch.
    apply orb_false_iff in Hch as [Hch Hesc].
    apply orb_false_iff in Hch as [Hch Hff].
    apply orb_false_iff in Hch as [Hch Hnl].
    apply orb_false_iff in Hch as [Htab Hvt].
    rewrite append_cons. cbn [tw_write]. rewrite Htab, Hvt, Hnl, Hff, Hesc.
    cbn [orb]. rewrite IH by done.
    by rewrite !append_assoc, !append_cons, !append_nil_l.
Qed.

(** A row without such bytes has four cells and the help as its last
    cell, and is not flushed. *)
Lemma tw_write_row mw pad lines name help rest :
  plain_text name = true -> plain_text help = true ->
  tw_write mw pad false lines [] "" 0 "" (row_text name help +:+ nl +:+ rest)
  = tw_write mw pad false (lines ++ [row_cells (name, help)]) [] "" 0 "" rest.
Proof.
  intros Hn Hh. unfold row_text, row_cells.
  rewrite !append_assoc, tab_cons. cbn [tw_write].
  change (Ascii.eqb tw_tab tw_tab) with true. cbn [orb app].
  rewrite tw_write_plain by done. rewrite !append_nil_l.
  rewrite tab_cons. cbn [tw_write].
  change (Ascii.eqb tw_tab tw_tab) with true. cbn [orb app].
  rewrite tab_cons. cbn [tw_write].
  change (Ascii.eqb tw_tab tw_tab) with true. cbn [orb app].
  rewrite tab_cons. cbn [tw_write].
  change (Ascii.eqb tw_tab tw_tab) with true. cbn [orb app].
  rewrite tw_write_plain by done. rewrite !append_nil_l.
  rewrite nl_cons. cbn [tw_write].
  change (Ascii.eqb tw_newline tw_tab) with false.
  change (Ascii.eqb tw_newline tw_vtab) with false.
  change (Ascii.eqb tw_newline tw_newline) with true.
  change (Ascii.eqb tw_newline tw_formfeed) with false.
  cbn [orb app length Nat.eqb fst snd]. done.
Qed.

(** A text of rows is buffered row by row and flushed at the end, the
    last line being empty. *)
Lemma tw_write_rows mw pad lines rows :
  Forall (fun r => plain_text r.1 = true /\ plain_text r.2 = true) rows ->
  tw_write mw pad false lines [] "" 0 "" (rows_text rows)
  = tw_flush mw pad (lines ++ map row_cells rows ++ [[]]).
Proof.
  intros Hall. revert lines.
  induction Hall as [|[name help] rows [Hn Hh] _ IH]; intros lines; [done|].
  cbn [rows_text fold_right fst snd].
  rewrite <- append_assoc. fold (rows_text rows).
  rewrite append_assoc, tw_write_row, IH by done.
  by rewrite <- app_assoc.
Qed.


Lemma tw_format_nil fuel mw pad widths : tw_format fuel mw pad widths [] = [].
Proof. by destruct fuel. Qed.

(** Lines without a cell in the current column are written as they are. *)
Lemma tw_format_no_col fuel mw pad widths lines :
  Forall (fun l => tw_has_col (length widths) l = false) lines ->
  tw_format fuel mw pad widths lines = map (tw_write_line widths) lines.
Proof.
  revert lines. induction fuel as [|fuel IH]; intros lines Hall; [done|].
  destruct Hall as [|l lines Hl Hall]; [done|].
  simpl. by rewrite Hl, IH.
Qed.

Lemma tw_span_all col block rest :
  Forall (fun l => tw_has_col col l = true) block ->
  match rest with [] => True | l :: _ => tw_has_col col l = false end ->
  tw_span col (block ++ rest) = (block, rest).
Proof.
  intros Hall Hrest. induction Hall as [|l block Hl _ IH].
  - destruct rest as [|l rest]; [done|]. simpl. by rewrite Hrest.
  - simpl. by rewrite Hl, IH.
Qed.

(** A block of lines that all have a cell in the current column. *)
Lemma tw_format_block fuel mw pad widths l block rest :
  Forall (fun l => tw_has_col (length widths) l = true) (l :: block) ->
  match rest with [] => True | l :: _ => tw_has_col (length widths) l = false end ->
  tw_format (S fuel) mw pad widths ((l :: block) ++ rest)
  = tw_format fuel mw pad
      (widths ++ [tw_block_width mw pad (length widths) (l :: block)]) (l :: block)
    ++ tw_format fuel mw pad widths rest.
Proof.
  intros Hall Hrest.
  assert (Hl : tw_has_col (length widths) l = true) by (by inversion Hall).
  cbn [tw_format app]. rewrite Hl.
  change (l :: block ++ rest) with ((l :: block) ++ rest).
  by rewrite tw_span_all.
Qed.

Lemma tw_format_block_all fuel mw pad widths l block :
  Forall (fun l => tw_has_col (length widths) l = true) (l :: block) ->
  tw_format (S fuel) mw pad widths (l :: block)
  = tw_format fuel mw pad
      (widths ++ [tw_block_width mw pad (length widths) (l :: block)]) (l :: block).
Proof.
  intros Hall. rewrite <- (app_nil_r (l :: block)) at 1.
  by rewrite tw_format_block, tw_format_nil, app_nil_r.
Qed.

Lemma tw_block_width_max mw pad col block :
  tw_block_width mw pad col block
  = mw `max` max_list (map (fun line => snd (nth col line ("", O)) + pad) block).
Proof.
  unfold tw_block_width. revert mw.
  induction block as [|l block IH]; intros mw; simpl; [lia|].
  rewrite IH.
  destruct (_ <? _)%nat eqn:E; [apply Nat.ltb_lt in E|apply Nat.ltb_ge in E]; lia.
Qed.

Lemma max_list_const n (l : list nat) :
  l <> [] -> Forall (fun x => x = n) l -> max_list l = n.
Proof.
  intros Hne Hall. induction Hall as [|x l -> Hall IH]; [done|].
  simpl. destruct l; [simpl; lia|]. rewrite IH by done. lia.
Qed.

Lemma max_list_add n (l : list nat) :
  l <> [] -> max_list (map (fun x => x + n) l) = max_list l + n.
Proof.
  intros Hne. induction l as [|x l IH]; [done|].
  simpl. destruct l; [simpl; lia|]. rewrite IH by done. lia.
Qed.

(** The table of rows that all have the four cells of [HelpText]: every
    column spans all rows; the empty columns get the padding, the name
    column the longest name and the padding. *)
Lemma tw_format_rows fuel rows :
  rows <> [] ->
  let lines := map row_cells rows in
  let w := max_list (map (fun r => RuneCount r.1) rows) + 2 in
  tw_format (S (S (S (S fuel)))) 0 2 [] (lines ++ [[]])
  = map (fun r => aligned_row w r.1 r.2) rows ++ [""].
Proof.
  intros Hne lines w.
  assert (Hlines : exists l ls, lines = l :: ls).
  { unfold lines. destruct rows; [done|]. simpl. eauto. }
  destruct Hlines as (l & ls & Hl).
  assert (Hcol : forall col, col < 4 ->
                   Forall (fun l => tw_has_col col l = true) lines).
  { intros col Hc. unfold lines. apply Forall_forall.
    intros x (r & <- & _)%list_elem_of_In%in_map_iff.
    unfold tw_has_col, row_cells. simpl. apply Nat.ltb_lt. lia. }
  assert (Hw : forall col, col = 0 \/ col = 2 \/ col = 3 ->
                 tw_block_width 0 2 col lines = 2).
  { intros col Hc. rewrite tw_block_width_max. unfold lines. rewrite map_map.
    rewrite (max_list_const 2); [done|by destruct rows|].
    apply Forall_forall. intros x (r & <- & _)%list_elem_of_In%in_map_iff.
    unfold row_cells. by destruct Hc as [->|[->| ->]]. }
  assert (Hw1 : tw_block_width 0 2 1 lines = w).
  { rewrite tw_block_width_max. unfold lines, w. rewrite map_map. simpl.
    rewrite <- (max_list_add 2) by (by destruct rows).
    by rewrite map_map. }
  rewrite Hl in Hcol. rewrite Hl.
  rewrite tw_format_block by (done || (apply Hcol; simpl; lia)).
  rewrite (tw_format_no_col _ _ _ [] [[]]) by (by repeat constructor).
  rewrite !tw_format_block_all by (apply Hcol; simpl; lia).
  rewrite <- Hl in *. simpl length.
  rewrite (Hw 0), Hw1 by auto. simpl length. rewrite (Hw 2) by auto.
  simpl length. rewrite (Hw 3) by auto.
  rewrite tw_format_no_col.
  - f_equal. unfold lines. rewrite map_map. apply map_ext.
    intros [name help]. unfold aligned_row. simpl.
    by rewrite append_nil_r.
  - unfold lines. apply Forall_forall.
    intros x (r & <- & _)%list_elem_of_In%in_map_iff. done.
Qed.


Lemma concat_lines (l : list string) :
  String.concat nl (l ++ [""]) = String.concat "" (map (fun r => r +:+ nl) l).
Proof.
  induction l as [|x l IH]; [done|].
  destruct l as [|y l].
  - simpl. by rewrite append_nil_r.
  - change (String.concat nl ((x :: y :: l) ++ [""]))
      with (x +:+ nl +:+ String.concat nl ((y :: l) ++ [""])).
    rewrite IH.
    change (String.concat "" (map (fun r => r +:+ nl) (x :: y :: l)))
      with ((x +:+ nl) +:+ "" +:+ String.concat "" (map (fun r => r +:+ nl) (y :: l))).
    by rewrite append_nil_l, append_assoc.
Qed.

(** What the tabwriter of [HelpText] emits for the rows of the children. *)
Lemma tabwriter_rows rows :
  rows <> [] ->
  Forall (fun r => plain_text r.1 = true /\ plain_text r.2 = true) rows ->
  tabwriter 0 2 (rows_text rows)
  = String.concat ""
      (map (fun r => aligned_row
                       (max_list (map (fun r => RuneCount r.1) rows) + 2)
                       r.1 r.2 +:+ nl) rows).
Proof.
  intros Hne Hplain. unfold tabwriter.
  rewrite tw_write_rows by done. unfold tw_flush. rewrite app_nil_l.
  assert (exists f, tw_fuel (map row_cells rows ++ [[]]) = S (S (S (S f))))
    as [f ->].
  { destruct rows as [|r rows]; [done|]. simpl. eauto. }
  by rewrite tw_format_rows, concat_lines, map_map.
Qed.


(** ** Help *)

Lemma load_all_Ok h ps :
  Forall (fun p => is_Some (h !! p)) ps ->
  exists pcs, load_all h ps = Ok pcs /\ map fst pcs = ps /\
    Forall (fun pc => h !! pc.1 = Some pc.2) pcs.
Proof.
  induction 1 as [|p ps [c Hp] _ (pcs & IH & Hfst & Hall)]; simpl.
  - by exists [].
  - rewrite (load_Ok _ _ _ Hp), bind_Ok, IH, bind_Ok.
    eexists. split; [done|]. simpl. rewrite Hfst. split; [done|].
    by constructor.
Qed.

Lemma Sorted_map_on {A B : Type} (P : A -> Prop) (R1 : relation A)
  (R2 : relation B) (f : A -> B) (l : list A) :
  (forall x y, P x -> P y -> R1 x y -> R2 (f x) (f y)) ->
  Forall P l -> Sorted R1 l -> Sorted R2 (map f l).
Proof.
  intros HR Hall Hs. induction Hs as [|x l Hs IH Hd]; simpl; [constructor|].
  apply Forall_cons in Hall as [Hx Hall].
  constructor; [by apply IH|].
  destruct Hd as [|y l Hxy]; simpl; constructor.
  apply Forall_cons in Hall as [Hy _]. by apply HR.
Qed.

Lemma HelpText_rows_Ok h cs :
  Forall (fun p => is_Some (h !! p)) cs ->
  HelpText_rows h cs
  = Ok (rows_text (map (fun p => (name_of h p, help_of h p)) cs)).
Proof.
  induction 1 as [|p ps [c Hp] _ IH]; simpl; [done|].
  rewrite (load_Ok _ _ _ Hp), bind_Ok, IH, bind_Ok.
  unfold rows_text. cbn [map fold_right fst snd].
  assert (name_of h p = Cmd.Name c) as -> by (unfold name_of; by rewrite Hp).
  assert (help_of h p = Cmd.Help c) as -> by (unfold help_of; by rewrite Hp).
  unfold row_text. by rewrite !append_assoc.
Qed.

Lemma HelpText_paragraph cc :
  (if negb (String.eqb (Cmd.LongHelp cc) "") then HelpText_p "" [Cmd.LongHelp cc]
   else if negb (String.eqb (Cmd.Help cc) "") then HelpText_p "" [Cmd.Help cc]
   else if negb (String.eqb (Cmd.Name cc) "")
        then HelpText_p "" [Cmd.Name cc; "has no help"]
   else "")
  = helpParagraph cc.
Proof.
  unfold helpParagraph, resolvedHelp, HelpText_p, Sprintln.
  destruct (Cmd.LongHelp cc) as [|a s]; simpl negb; cbn iota.
  - destruct (Cmd.Help cc) as [|a s]; simpl negb; cbn iota.
    + destruct (Cmd.Name cc) as [|a s]; simpl negb; cbn iota; [done|].
      simpl String.concat.
      rewrite append_nil_l, (append_cons a s " has no help"). cbn iota.
      by rewrite <- append_cons.
    + done.
  - done.
Qed.

(** The children of a node, as [Children] returns them. *)
Lemma Children_Ok h c cc :
  h !! c = Some cc ->
  Forall (fun p => is_Some (h !! p)) (child_ptrs cc) ->
  exists cs, Children h c = Ok cs /\ cs ≡ₚ child_ptrs cc /\
    Sorted (key_le (name_of h)) cs.
Proof.
  intros Hc Hall. unfold Children. rewrite (load_Ok _ _ _ Hc), bind_Ok.
  set (cmds := match Cmd.paramChild cc with
               | Some q => map snd (map_order (map_of (Cmd.staticChildren cc))) ++ [q]
               | None => map snd (map_order (map_of (Cmd.staticChildren cc)))
               end).
  assert (Hperm : cmds ≡ₚ child_ptrs cc).
  { assert (Hsnd : map snd (map_order (map_of (Cmd.staticChildren cc)))
                     ≡ₚ (map_to_list (map_of (Cmd.staticChildren cc))).*2).
    { apply (Permutation_map snd), map_order_perm. }
    unfold cmds, child_ptrs. rewrite <- Hsnd.
    destruct (Cmd.paramChild cc); [done|]. by rewrite app_nil_r. }
  destruct (load_all_Ok h cmds) as (pcs & -> & Hfst & Hpcs).
  { by rewrite Hperm. }
  rewrite bind_Ok. eexists. split; [done|]. split.
  - rewrite <- Hperm, <- Hfst. apply (Permutation_map fst), sort_by_perm.
  - apply (Sorted_map_on (fun pc => h !! pc.1 = Some pc.2)
             (key_le (fun pc => Cmd.Name pc.2))).
    + intros [p1 c1] [p2 c2] H1 H2. unfold key_le, name_of. simpl in *.
      by rewrite H1, H2.
    + by rewrite sort_by_perm.
    + apply sort_by_sorted.
Qed.

Lemma hasSubcommand_children h c cc :
  h !! c = Some cc -> hasSubcommand h c = Ok true -> child_ptrs cc <> [].
Proof.
  intros Hc. unfold hasSubcommand, child_ptrs.
  rewrite (load_Ok _ _ _ Hc), bind_Ok.
  destruct (Cmd.paramChild cc) as [q|]; [by destruct (_.*2)|].
  rewrite bool_decide_eq_false_2 by (by intros ?). rewrite orb_false_r, app_nil_r.
  intros H Hnil. apply fmap_nil_inv, map_to_list_empty_iff in Hnil.
  rewrite Hnil, map_size_empty in H. simpl in H.
  rewrite lookup_empty in H. by simplify_eq.
Qed.

(** C6, as amended: for every node with visible subcommands whose
    children have names and one-line helps free of the bytes the
    tabwriter gives a meaning to (tab, vertical tab, newline, form feed
    and its escape byte), [HelpText] renders the node's own resolved help
    paragraph, then a "Commands:" header, then one column-aligned line
    per child (the name column as wide as the longest name, counted in
    runes, and the padding), the children sorted by name, each line
    pairing the child's name with that child's one-line [Help] field
    (whatever its [LongHelp]; empty when there is none), then an empty
    line. *)
Theorem HelpText_lists_children_with_Help h c cc :
  h !! c = Some cc -> hasSubcommand h c = Ok true ->
  Forall (fun p => exists ch, h !! p = Some ch /\
            plain_text (Cmd.Name ch) = true /\ plain_text (Cmd.Help ch) = true)
         (child_ptrs cc) ->
  exists cs,
    Children h c = Ok cs /\ cs ≡ₚ child_ptrs cc /\
    Sorted (key_le (name_of h)) cs /\
    HelpText h c
    = Ok (helpParagraph cc +:+ nl +:+ "Commands:" +:+ nl
            +:+ aligned_rows h cs +:+ nl).
Proof.
  intros Hc Hsub Hplain.
  assert (Hall : Forall (fun p => is_Some (h !! p)) (child_ptrs cc)).
  { eapply Forall_impl; [exact Hplain|]. intros p (ch & -> & _). eauto. }
  destruct (Children_Ok h c cc Hc Hall) as (cs & Hcs & Hperm & Hsorted).
  exists cs. repeat (split; [done|]).
  unfold HelpText. rewrite (load_Ok _ _ _ Hc), bind_Ok, Hsub, bind_Ok.
  rewrite HelpText_paragraph, Hcs, bind_Ok.
  rewrite HelpText_rows_Ok by (by rewrite Hperm). rewrite bind_Ok.
  rewrite tabwriter_rows.
  - unfold HelpText_p, Sprintln, aligned_rows, name_width. simpl String.concat.
    rewrite !map_map. simpl.
    change (map ?f cs) with (f <$> cs).
    by rewrite !append_assoc.
  - intros Hnil%map_eq_nil. rewrite Hnil in Hperm.
    apply Permutation_nil in Hperm.
    by apply (hasSubcommand_children h c cc).
  - apply Forall_forall. intros r (p & <- & Hin)%list_elem_of_In%in_map_iff.
    apply list_elem_of_In in Hin. rewrite Hperm in Hin.
    rewrite Forall_forall in Hplain.
    destruct (Hplain _ Hin) as (ch & Hch & Hn & Hh).
    unfold name_of, help_of. simpl. by rewrite Hch.
Qed.


(** ** Registration and resolution of paths *)

Lemma edge_lookup V p seg q :
  edge V p seg = Some q <-> exists v, V !! p = Some v /\ v_edge v seg = Some q.
Proof.
  unfold edge. destruct (V !! p) as [v|]; simpl.
  - split; [eauto|]. by intros (? & [= <-] & ?).
  - split; [done|]. by intros (? & ? & _).
Qed.

Lemma v_addCmd_edge V parent seg child :
  edge (v_addCmd V parent seg child).1 parent seg
  = Some (v_addCmd V parent seg child).2.
Proof.
  unfold edge. rewrite v_addCmd_lookup, decide_True by done. simpl.
  apply v_attach_edge.
Qed.

(** Registration only ever adds links. *)
Lemma v_addCmd_mono V parent seg child x t q :
  edge V x t = Some q -> edge (v_addCmd V parent seg child).1 x t = Some q.
Proof.
  intros (v & Hv & Hq)%edge_lookup. apply edge_lookup.
  rewrite v_addCmd_lookup. case_decide as Hx; [|eauto]. subst.
  eexists. split; [done|]. rewrite Hv. simpl. by apply v_attach_mono.
Qed.

Lemma alloc_mono V x t q :
  edge V x t = Some q ->
  edge (<[fresh (dom V) := mkview ∅ None []]> V) x t = Some q.
Proof.
  intros (v & Hv & Hq)%edge_lookup. apply edge_lookup. exists v. split; [|done].
  rewrite lookup_insert_ne; [done|]. intros <-.
  apply (is_fresh (dom V)), elem_of_dom. eauto.
Qed.

Lemma v_addPath_mono V last names x t q :
  edge V x t = Some q -> edge (v_addPath V last names).1 x t = Some q.
Proof.
  revert V last. induction names as [|name names IH]; intros V last Hq; [done|].
  rewrite v_addPath_cons. cbn zeta. apply IH, v_addCmd_mono, alloc_mono, Hq.
Qed.

Lemma v_register_mono V c segs cmd x t q :
  edge V x t = Some q -> edge (v_register V c segs cmd) x t = Some q.
Proof.
  intros Hq. unfold v_register.
  pose proof (v_addPath_mono V c (removelast segs) x t q Hq) as H.
  destruct (v_addPath V c (removelast segs)) as [V2 last]. simpl in H.
  by apply v_addCmd_mono.
Qed.

Lemma walk_mono V V' p segs q :
  (forall x t y, edge V x t = Some y -> edge V' x t = Some y) ->
  walk V p segs = Some q -> walk V' p segs = Some q.
Proof.
  intros Hmono. revert p. induction segs as [|s segs IH]; intros p; simpl; [done|].
  destruct (edge V p s) as [y|] eqn:E; [|done]. simpl.
  rewrite (Hmono _ _ _ E). simpl. apply IH.
Qed.

Lemma v_register_cons V c s segs cmd :
  segs <> [] ->
  v_register V c (s :: segs) cmd
  = let V1 := <[fresh (dom V) := mkview ∅ None []]> V in
    v_register (v_addCmd V1 c s (fresh (dom V))).1
               (v_addCmd V1 c s (fresh (dom V))).2 segs cmd.
Proof.
  intros Hne. unfold v_register.
  destruct segs as [|s' segs]; [done|].
  change (removelast (s :: s' :: segs)) with (s :: removelast (s' :: segs)).
  change (List.last (s :: s' :: segs) "") with (List.last (s' :: segs) "").
  by rewrite v_addPath_cons.
Qed.

Lemma v_register_single V c s cmd :
  v_register V c [s] cmd = (v_addCmd V c s cmd).1.
Proof. done. Qed.

(** Registering under a free slot links the new node and nothing else. *)
Lemma v_addCmd_free V parent seg child v :
  V !! parent = Some v -> v_edge v seg = None ->
  (v_addCmd V parent seg child).2 = child /\
  exists v', (v_addCmd V parent seg child).1 !! parent = Some v' /\
    v_edge v' seg = Some child /\
    (forall t, seg_sim t seg = false -> v_edge v' t = v_edge v t).
Proof.
  intros Hv He. unfold v_addCmd. cbn [fst snd]. rewrite Hv. cbn [default from_option id].
  rewrite He. split; [done|]. rewrite lookup_insert_eq. eexists. split; [done|].
  split; [by rewrite v_attach_edge, He|].
  intros t Ht. unfold v_attach. rewrite He.
  apply orb_false_iff in Ht as [Hw Hne]. apply String.eqb_neq in Hne.
  unfold v_edge. destruct (is_wild seg) eqn:Es, (is_wild t) eqn:Et; simpl; try done.
  by rewrite lookup_insert_ne.
Qed.

(** Registering under a taken slot changes nothing. *)
Lemma v_addCmd_taken V parent seg child v q :
  V !! parent = Some v -> v_edge v seg = Some q ->
  v_addCmd V parent seg child = (V, q).
Proof.
  intros Hv He. unfold v_addCmd. rewrite Hv. simpl. unfold v_attach. rewrite He.
  simpl. by rewrite insert_id.
Qed.

Lemma childless_edge V p v seg :
  childless V p -> V !! p = Some v -> v_edge v seg = None.
Proof.
  intros (v' & Hv' & Hs & Hp) Hv. simplify_eq.
  unfold v_edge. rewrite Hs, Hp. by destruct (is_wild seg).
Qed.

Lemma childless_alloc V p :
  childless (<[fresh (dom V) := mkview ∅ None []]> V) (fresh (dom V)) /\
  (childless V p -> childless (<[fresh (dom V) := mkview ∅ None []]> V) p).
Proof.
  split.
  - eexists. by rewrite lookup_insert_eq.
  - intros (v & Hv & ?). exists v. split; [|done].
    rewrite lookup_insert_ne; [done|]. intros <-.
    apply (is_fresh (dom V)), elem_of_dom. eauto.
Qed.

Lemma chain_walk V avoid n segs c :
  chain V avoid n segs c -> walk V n segs = Some c.
Proof.
  revert n. induction segs as [|s segs IH]; intros n; simpl.
  - by intros (_ & -> & _).
  - intros (_ & v & x & Hv & He & _ & Hc). unfold edge. rewrite Hv. simpl.
    rewrite He. simpl. by apply IH.
Qed.

(** A chain only depends on the views of its nodes. *)
Lemma chain_frame V V' avoid n segs c :
  (forall x v, x <> avoid -> V !! x = Some v -> V' !! x = Some v) ->
  chain V avoid n segs c -> chain V' avoid n segs c.
Proof.
  intros Hframe. revert n. induction segs as [|s segs IH]; intros n; simpl.
  - intros (Hn & -> & v & Hv & ?). split; [done|]. split; [done|].
    exists v. split; [by apply Hframe|done].
  - intros (Hn & v & x & Hv & He & Ho & Hc). split; [done|].
    exists v, x. split; [by apply Hframe|]. repeat (split; [done|]). by apply IH.
Qed.


Lemma fresh_ne (V : gmap ptr view) x : is_Some (V !! x) -> x <> fresh (dom V).
Proof. intros Hx ->. by apply (is_fresh (dom V)), elem_of_dom. Qed.

Lemma alloc_lookup_ne (V : gmap ptr view) x w :
  is_Some (V !! x) -> <[fresh (dom V) := w]> V !! x = V !! x.
Proof. intros Hx. rewrite lookup_insert_ne; [done|]. symmetry. by apply fresh_ne. Qed.

(** Registering a path from a childless node spells a chain of only
    children down to the registered node, and touches no other node. *)
Lemma v_register_childless V r segs cmd avoid :
  segs <> [] -> childless V r -> childless V cmd ->
  r <> cmd -> r <> avoid -> cmd <> avoid -> is_Some (V !! avoid) ->
  chain (v_register V r segs cmd) avoid r segs cmd /\
  (forall x, is_Some (V !! x) -> x <> r -> x <> cmd ->
     v_register V r segs cmd !! x = V !! x).
Proof.
  revert V r. induction segs as [|s segs IH]; intros V r Hne Hr Hcmd Hrc Hra Hca Ha;
    [done|].
  destruct (decide (segs = [])) as [->|Hsegs].
  - rewrite v_register_single. destruct Hr as (v & Hv & Hr).
    assert (Hnone : forall t, v_edge v t = None).
    { intros t. apply (childless_edge V r); [by exists v|done]. }
    destruct (v_addCmd_free V r s cmd v Hv (Hnone s)) as (Ht & v' & Hv' & He & Ho).
    assert (H1 : forall x, x <> r -> (v_addCmd V r s cmd).1 !! x = V !! x).
    { intros x Hx. by rewrite v_addCmd_lookup, decide_False. }
    set (V' := (v_addCmd V r s cmd).1) in *.
    split.
    + simpl. split; [done|]. exists v', cmd. split; [done|]. split; [done|].
      split; [intros t Hs; by rewrite Ho|]. split; [done|]. split; [done|].
      destruct Hcmd as (vc & Hvc & ?). exists vc. split; [|done].
      by rewrite H1.
    + intros x _ Hx _. by apply H1.
  - rewrite v_register_cons by done. cbn zeta.
    set (p := fresh (dom V)). set (V1 := <[p := mkview ∅ None []]> V).
    assert (Hrs : is_Some (V !! r)) by (destruct Hr as (? & ? & _); eauto).
    assert (Hcs : is_Some (V !! cmd)) by (destruct Hcmd as (? & ? & _); eauto).
    assert (Hpr : r <> p) by (by apply fresh_ne).
    assert (Hpc : cmd <> p) by (by apply fresh_ne).
    assert (Hpa : avoid <> p) by (by apply fresh_ne).
    assert (Hr1 : childless V1 r) by (by apply childless_alloc).
    destruct Hr1 as (v & Hv & Hr1).
    assert (Hnone : forall t, v_edge v t = None).
    { intros t. apply (childless_edge V1 r); [by exists v|done]. }
    destruct (v_addCmd_free V1 r s p v Hv (Hnone s)) as (Ht & v' & Hv' & He & Ho).
    rewrite Ht. set (V2 := (v_addCmd V1 r s p).1) in *.
    assert (H2 : forall x, x <> r -> V2 !! x = V1 !! x).
    { intros x Hx. unfold V2. by rewrite v_addCmd_lookup, decide_False. }
    destruct (IH V2 p) as [Hchain Hframe]; try done.
    + destruct (childless_alloc V p) as [(vp & Hvp & ?) _].
      exists vp. by rewrite H2.
    + destruct Hcmd as (vc & Hvc & ?). exists vc. split; [|done].
      rewrite H2 by done. unfold V1. by rewrite lookup_insert_ne.
    + rewrite H2 by done. unfold V1. by rewrite lookup_insert_ne.
    + split.
      * simpl. split; [done|]. exists v', p. split.
        { rewrite Hframe; [done|by rewrite Hv'|done|done]. }
        split; [done|]. split; [intros t Hs; by rewrite Ho|done].
      * intros x Hx Hxr Hxc.
        assert (Hxp : x <> p) by (by apply fresh_ne).
        rewrite Hframe, H2; try done.
        -- unfold V1. by rewrite lookup_insert_ne.
        -- rewrite H2 by done. unfold V1. by rewrite lookup_insert_ne.
Qed.

Lemma seg_sim_edge v s t :
  seg_sim t s = true -> v_edge v t = v_edge v s.
Proof.
  unfold seg_sim, v_edge. intros [[-> ->]%andb_true_iff| ->%String.eqb_eq]%orb_true_iff;
    done.
Qed.

(** Registering a second path over a chain: unless the path leads along
    the chain and ends on it, the new node is linked at its end. *)
Lemma v_register_chain V r segs1 c1 segs2 c2 :
  segs2 <> [] -> chain V c2 r segs1 c1 -> childless V c2 ->
  sim_prefix segs2 segs1 = false ->
  walk (v_register V r segs2 c2) r segs2 = Some c2.
Proof.
  revert V r segs1. induction segs2 as [|t segs2 IH];
    intros V r segs1 Hne Hchain Hc2 Hsim; [done|].
  assert (exists v, V !! r = Some v /\ r <> c2 /\
            (v_edge v t = None \/
             exists s rest1 x, segs1 = s :: rest1 /\ seg_sim t s = true /\
               v_edge v t = Some x /\ chain V c2 x rest1 c1))
    as (v & Hv & Hrc & Hcase).
  { destruct segs1 as [|s rest1]; simpl in Hchain.
    - destruct Hchain as (Hrc & -> & Hcl). destruct (Hcl) as (v & Hv & _).
      exists v. split; [done|]. split; [done|]. left.
      by apply (childless_edge V c1).
    - destruct Hchain as (Hrc & v & x & Hv & He & Ho & Hch).
      exists v. split; [done|]. split; [done|].
      destruct (seg_sim t s) eqn:Es; [|left; by apply Ho].
      right. exists s, rest1, x. by rewrite (seg_sim_edge v s t). }
  destruct (decide (segs2 = [])) as [->|Hsegs].
  - rewrite v_register_single. cbn [walk].
    destruct Hcase as [Hfree|(s & rest1 & x & -> & Hs & _)].
    + destruct (v_addCmd_free V r t c2 v Hv Hfree) as (Ht & _).
      by rewrite v_addCmd_edge, Ht.
    + simpl in Hsim. by rewrite Hs in Hsim.
  - rewrite v_register_cons by done. cbn zeta.
    set (p := fresh (dom V)). set (V1 := <[p := mkview ∅ None []]> V).
    assert (Hpr : r <> p) by (apply fresh_ne; eauto).
    assert (Hc2s : is_Some (V !! c2)) by (destruct Hc2 as (? & ? & _); eauto).
    assert (Hpc : c2 <> p) by (by apply fresh_ne).
    assert (Hv1 : V1 !! r = Some v) by (unfold V1; by rewrite lookup_insert_ne).
    assert (Hc21 : childless V1 c2) by (by apply childless_alloc).
    cbn [walk].
    destruct Hcase as [Hfree|(s & rest1 & x & -> & Hs & He & Hch)].
    + destruct (v_addCmd_free V1 r t p v Hv1 Hfree) as (Ht & v' & Hv' & He & _).
      rewrite Ht. set (V2 := (v_addCmd V1 r t p).1) in *.
      assert (H2 : forall x, x <> r -> V2 !! x = V1 !! x).
      { intros x Hx. unfold V2. by rewrite v_addCmd_lookup, decide_False. }
      destruct (v_register_childless V2 p segs2 c2 r) as [Hchain2 _].
      * done.
      * destruct (childless_alloc V p) as [(vp & Hvp & ?) _].
        exists vp. by rewrite H2.
      * destruct Hc21 as (vc & Hvc & ?). exists vc. by rewrite H2.
      * done.
      * done.
      * done.
      * by rewrite Hv'.
      * rewrite (v_register_mono V2 p segs2 c2 r t p).
        -- simpl. by apply (chain_walk _ r).
        -- apply edge_lookup. eauto.
    + rewrite (v_addCmd_taken V1 r t p v x Hv1 He). simpl.
      rewrite (v_register_mono V1 x segs2 c2 r t x)
        by (apply edge_lookup; eauto).
      simpl. apply (IH V1 x rest1); try done.
      * eapply chain_frame; [|exact Hch]. intros y w _ Hy.
        unfold V1. rewrite lookup_insert_ne; [done|]. symmetry. apply fresh_ne. eauto.
      * simpl in Hsim. by rewrite Hs in Hsim.
Qed.


(** *** The store and its links *)

Lemma addCmd_view h parent child c h' q :
  h !! child = Some c -> addCmd h parent child = Ok (h', q) ->
  v_addCmd (hview h) parent (Cmd.Name c) child = (hview h', q) /\
  dom h' = dom h /\
  (forall x, x <> child -> Cmd.Name <$> h' !! x = Cmd.Name <$> h !! x).
Proof.
  intros Hc Hadd.
  destruct (addCmd_Ok_inv _ _ _ _ Hadd) as (c' & p & Hc' & Hp & Hn).
  assert (c' = c) as -> by congruence.
  destruct (addCmd_spec h parent child c p Hc Hp Hn) as (h'' & Hadd' & Hv & Hd & Hnm).
  rewrite Hadd in Hadd'. injection Hadd' as <- Hq.
  split; [|done]. rewrite Hv, Hq. reflexivity.
Qed.

Lemma addPath_view h last nm names h' q :
  addPath h last nm names = Ok (h', q) ->
  v_addPath (hview h) last names = (hview h', q) /\
  dom h ⊆ dom h' /\
  (forall x, is_Some (h !! x) -> Cmd.Name <$> h' !! x = Cmd.Name <$> h !! x).
Proof.
  revert h last. induction names as [|name names IH]; intros h last.
  - simpl. intros [= -> ->]. done.
  - rewrite addPath_cons, v_addPath_cons. intros H.
    apply bind_Ok_inv in H as (a & Ha & H).
    destruct (_ && _); [done|].
    apply bind_Ok_inv in H as ([h2 q2] & Hadd & H).
    cbn zeta. rewrite alloc_hview.
    apply (addCmd_view _ _ _ (Cmd.new name)) in Hadd as (Hv & Hd & Hnm);
      [|apply lookup_insert_eq].
    rewrite hview_insert in Hv. simpl Cmd.Name in Hv.
    change (view_of (Cmd.new name)) with (mkview ∅ None []) in Hv.
    rewrite Hv. cbn [fst snd].
    destruct (IH _ _ H) as (Hv' & Hsub & Hnm').
    split; [done|]. split.
    + etrans; [|exact Hsub]. rewrite Hd, dom_insert_L. apply union_subseteq_r.
    + intros x Hx.
      assert (Hxp : x <> alloc h).
      { intros ->. rewrite alloc_fresh in Hx. by destruct Hx. }
      rewrite Hnm', Hnm by (done || (rewrite <- elem_of_dom, Hd, elem_of_dom,
        lookup_insert_ne; done)).
      by rewrite lookup_insert_ne.
Qed.

Lemma split_from_nonempty sep skip cur s : split_from sep skip cur s <> [].
Proof.
  revert skip cur. induction s as [|a s IH]; intros skip cur; [done|].
  cbn [split_from]. destruct skip; [|apply IH].
  destruct (String.prefix sep (String a s)); [done|apply IH].
Qed.

Lemma Split_nonempty s sep : Split s sep <> [].
Proof. apply split_from_nonempty. Qed.

Lemma path_segments_nonempty path : path_segments path <> [].
Proof. apply Split_nonempty. Qed.

(** [AddCmd] does to the links what [v_register] says, and renames no
    node but the one it registers. *)
Lemma AddCmd_view h c cmd cm h' :
  h !! cmd = Some cm -> AddCmd h c cmd = Ok h' ->
  hview h' = v_register (hview h) c (path_segments (Cmd.Name cm)) cmd /\
  (forall x, is_Some (h !! x) -> x <> cmd ->
     Cmd.Name <$> h' !! x = Cmd.Name <$> h !! x).
Proof.
  intros Hcm. unfold AddCmd. rewrite (load_Ok _ _ _ Hcm), bind_Ok.
  destruct (String.eqb (Cmd.Name cm) ""); [done|].
  rewrite (assign_Ok _ _ _ _ Hcm), bind_Ok.
  fold (path_segments (Cmd.Name cm)).
  set (trimmed := TrimSuffix _ _). set (segs := path_segments _).
  set (h1 := <[cmd := Cmd.set_Name trimmed cm]> h).
  assert (Hv1 : hview h1 = hview h) by (by apply (hview_insert_same _ _ cm)).
  intros H. apply bind_Ok_inv in H as ([h2 last] & Hpath & H).
  apply addPath_view in Hpath as (Hv2 & Hsub & Hnm2).
  assert (is_Some (h2 !! cmd)) as [cm2 Hcm2].
  { apply elem_of_dom, Hsub, elem_of_dom. unfold h1. rewrite lookup_insert_eq. eauto. }
  rewrite (assign_Ok _ _ _ _ Hcm2), bind_Ok in H.
  apply bind_Ok_inv in H as ([h4 q] & Hadd & H). injection H as <-.
  apply (addCmd_view _ _ _ (Cmd.set_Name (List.last segs "") cm2)) in Hadd
    as (Hv4 & _ & Hnm4); [|apply lookup_insert_eq].
  rewrite (hview_insert_same _ _ cm2) in Hv4 by done. simpl Cmd.Name in Hv4.
  split.
  - unfold v_register. rewrite <- Hv1, Hv2, Hv4. done.
  - intros x Hx Hne. rewrite Hnm4, lookup_insert_ne, Hnm2 by
      (done || (unfold h1; by rewrite lookup_insert_ne)).
    unfold h1. by rewrite lookup_insert_ne.
Qed.


(** *** Well-formed links are kept by registration *)

Lemma wf_alloc V : wf V -> wf (<[fresh (dom V) := mkview ∅ None []]> V).
Proof.
  intros (Hcl & Hk & Ha).
  assert (Hp : V !! fresh (dom V) = None).
  { apply (not_elem_of_dom (D:=gset ptr)), is_fresh. }
  split; [by apply closed_alloc|]. split.
  - intros p v k q [[_ <-]|[_ Hv]]%lookup_insert_Some; [done|]. by apply (Hk p v).
  - intros p v k q vq [[_ <-]|[_ Hv]]%lookup_insert_Some Hq; [done|].
    intros [[_ <-]|[_ Hvq]]%lookup_insert_Some; [done|]. by apply (Ha p v k q).
Qed.

Lemma v_addCmd_aliases V parent seg child x w :
  (v_addCmd V parent seg child).1 !! x = Some w -> is_Some (V !! parent) ->
  exists w0, V !! x = Some w0 /\ v_aliases w = v_aliases w0.
Proof.
  rewrite v_addCmd_lookup. intros H [v Hv]. case_decide; [|eauto].
  simplify_eq. exists v. split; [done|]. rewrite Hv. apply v_attach_aliases.
Qed.

Lemma wf_v_addCmd V parent seg child vc :
  wf V -> is_Some (V !! parent) -> V !! child = Some vc ->
  Forall (fun a => is_wild a = false) (v_aliases vc) ->
  wf (v_addCmd V parent seg child).1.
Proof.
  intros (Hcl & Hk & Ha) Hparent Hchild Hplain.
  split; [apply v_addCmd_closed; eauto|]. split.
  - intros p v k q Hp Hq. rewrite v_addCmd_lookup in Hp.
    case_decide; [|by apply (Hk p v k q)]. simplify_eq.
    destruct Hparent as [v Hv]. rewrite Hv in Hq. simpl in Hq.
    apply v_attach_static in Hq as [Hq|(_ & -> & ?)]; [|done].
    by apply (Hk p v k q).
  - intros p v k q vq Hp Hq Hvq.
    apply v_addCmd_aliases in Hvq as (vq0 & Hvq0 & ->); [|done].
    rewrite v_addCmd_lookup in Hp.
    case_decide; [|by apply (Ha p v k q)]. simplify_eq.
    destruct Hparent as [v Hv]. rewrite Hv in Hq. simpl in Hq.
    apply v_attach_static in Hq as [Hq|(-> & _)]; [by apply (Ha p v k q)|].
    by simplify_eq.
Qed.

Lemma wf_v_addPath V last names :
  wf V -> is_Some (V !! last) ->
  wf (v_addPath V last names).1 /\
  is_Some ((v_addPath V last names).1 !! (v_addPath V last names).2) /\
  (forall x w, V !! x = Some w ->
     exists w', (v_addPath V last names).1 !! x = Some w' /\
                v_aliases w' = v_aliases w).
Proof.
  revert V last. induction names as [|name names IH]; intros V last Hwf Hlast.
  - simpl. eauto.
  - rewrite v_addPath_cons. cbn zeta.
    set (p := fresh (dom V)). set (V1 := <[p := mkview ∅ None []]> V).
    assert (Hwf1 : wf V1) by (by apply wf_alloc).
    assert (Hl1 : is_Some (V1 !! last)) by (unfold V1, p; by rewrite alloc_lookup_ne).
    assert (Hp1 : V1 !! p = Some (mkview ∅ None [])) by apply lookup_insert_eq.
    destruct (v_addCmd_closed V1 last name p) as (_ & Hq & _);
      [apply Hwf1|done|by rewrite Hp1|].
    destruct (IH (v_addCmd V1 last name p).1 (v_addCmd V1 last name p).2)
      as (Hwf' & Hq' & Hal'); [by apply (wf_v_addCmd _ _ _ _ _ Hwf1 Hl1 Hp1)|done|].
    split; [done|]. split; [done|].
    intros x w Hx.
    assert (is_Some ((v_addCmd V1 last name p).1 !! x)) as [w2 Hw2].
    { rewrite v_addCmd_lookup. case_decide; [eauto|].
      unfold V1, p. rewrite alloc_lookup_ne; eauto. }
    destruct (Hal' _ _ Hw2) as (w' & Hw' & Heq). exists w'. split; [done|].
    rewrite Heq. apply v_addCmd_aliases in Hw2 as (w0 & Hw0 & ->); [|done].
    unfold V1, p in Hw0. rewrite alloc_lookup_ne in Hw0 by eauto. congruence.
Qed.

Lemma wf_v_register V r segs c vc :
  wf V -> is_Some (V !! r) -> V !! c = Some vc ->
  Forall (fun a => is_wild a = false) (v_aliases vc) ->
  wf (v_register V r segs c).
Proof.
  intros Hwf Hr Hc Hplain. unfold v_register.
  destruct (wf_v_addPath V r (removelast segs) Hwf Hr) as (Hwf2 & Hlast & Hal).
  destruct (v_addPath V r (removelast segs)) as [V2 last]. simpl in *.
  destruct (Hal _ _ Hc) as (vc' & Hvc' & Heq).
  apply (wf_v_addCmd _ _ _ _ vc'); try done. by rewrite Heq.
Qed.

(** *** Resolution follows the links *)

Lemma findChildCmd_edge h p t q :
  wf (hview h) -> edge (hview h) p t = Some q ->
  findChildCmd h p t = Ok (Some q) /\ is_Some (h !! q).
Proof.
  intros (Hcl & Hk & Ha) (v & Hv & He)%edge_lookup.
  rewrite hview_lookup in Hv.
  destruct (h !! p) as [cc|] eqn:Hp; [|done]. simpl in Hv. simplify_eq.
  assert (Hvp : hview h !! p = Some (view_of cc)) by (by rewrite hview_lookup, Hp).
  assert (Halloc : forall k x, map_of (Cmd.staticChildren cc) !! k = Some x ->
                     is_Some (h !! x)).
  { intros k x Hx. destruct (Hcl _ _ Hvp) as [Hs _].
    specialize (Hs k x Hx). by rewrite hview_lookup, fmap_is_Some in Hs. }
  unfold v_edge in He. destruct (is_wild t) eqn:Et.
  - split.
    + rewrite (findChildCmd_param h p cc Hp Halloc); [by rewrite <- He| |].
      * destruct (map_of (Cmd.staticChildren cc) !! t) eqn:E; [|done].
        specialize (Hk _ _ _ _ Hvp E). congruence.
      * intros k x Hx (cx & Hcx & Hin).
        assert (Hvx : hview h !! x = Some (view_of cx)) by (by rewrite hview_lookup, Hcx).
        specialize (Ha _ _ _ _ _ Hvp Hx Hvx). rewrite Forall_forall in Ha.
        specialize (Ha _ Hin). congruence.
    + destruct (Hcl _ _ Hvp) as [_ Hpm]. specialize (Hpm q He).
      by rewrite hview_lookup, fmap_is_Some in Hpm.
  - split; [by apply (findChildCmd_exact h p cc Hp)|by eapply Halloc].
Qed.

Lemma FindCmd_loop_walk h p cmd toks ctx q :
  wf (hview h) -> walk (hview h) p toks = Some q ->
  exists ctx', FindCmd_loop h p cmd toks ctx
               = Ok (match toks with [] => cmd | _ => Some q end, [], ctx').
Proof.
  intros Hwf. revert p cmd ctx. induction toks as [|t toks IH]; intros p cmd ctx.
  - simpl. eauto.
  - cbn [walk FindCmd_loop]. destruct (edge (hview h) p t) as [x|] eqn:E; [|done].
    simpl. intros Hw.
    destruct (findChildCmd_edge h p t x Hwf E) as [-> [cx Hx]].
    rewrite bind_Ok, (load_Ok _ _ _ Hx), bind_Ok.
    destruct (IH x (Some x) (match Cmd.kind cx with
                             | StaticKind => ctx
                             | ParamKind => ctx ++ [Param.mk (Cmd.Name cx) t]
                             end) Hw) as [ctx' ->].
    exists ctx'. destruct toks; [|done]. simpl in Hw. by simplify_eq.
Qed.

(** Tokens that lead to a node along the links resolve to that node,
    with nothing left over. *)
Lemma FindCmd_walk h r toks ctx q :
  wf (hview h) -> toks <> [] -> walk (hview h) r toks = Some q ->
  exists ctx', FindCmd h r toks ctx = Ok (Some q, [], ctx').
Proof.
  intros Hwf Hne Hw.
  destruct (FindCmd_loop_walk h r None toks ctx q Hwf Hw) as [ctx' H].
  exists ctx'. unfold FindCmd. rewrite H. by destruct toks.
Qed.


(** C1, as amended: in a well-formed store let the root and two distinct
    nodes be childless, the aliases of the two nodes not wildcard-marked,
    and let the two nodes be registered under the root, one after the
    other, at the paths they are named by.  If the second path does not
    lead, slot by slot (equal static names, or wildcard segments whatever
    their names), along the first path or a prefix of it, then resolving
    from the root the exact segments of the first path returns the first
    node with no leftover tokens, and the segments of the second path
    return the second node with no leftover tokens. *)
Theorem FindCmd_resolves_registered_paths h0 r c1 c2 cm1 cm2 h1 h2 ctx :
  wf (hview h0) ->
  r <> c1 -> r <> c2 -> c1 <> c2 ->
  childless (hview h0) r -> childless (hview h0) c1 -> childless (hview h0) c2 ->
  h0 !! c1 = Some cm1 -> h0 !! c2 = Some cm2 ->
  Forall (fun a => is_wild a = false) (Cmd.Aliases cm1) ->
  Forall (fun a => is_wild a = false) (Cmd.Aliases cm2) ->
  AddCmd h0 r c1 = Ok h1 -> AddCmd h1 r c2 = Ok h2 ->
  sim_prefix (path_segments (Cmd.Name cm2)) (path_segments (Cmd.Name cm1)) = false ->
  (exists ctx1,
      FindCmd h2 r (path_segments (Cmd.Name cm1)) ctx = Ok (Some c1, [], ctx1)) /\
  (exists ctx2,
      FindCmd h2 r (path_segments (Cmd.Name cm2)) ctx = Ok (Some c2, [], ctx2)).
Proof.
  intros Hwf Hr1 Hr2 H12 Hr Hc1 Hc2 Hcm1 Hcm2 Ha1 Ha2 Hadd1 Hadd2 Hsim.
  set (segs1 := path_segments (Cmd.Name cm1)) in *.
  set (segs2 := path_segments (Cmd.Name cm2)) in *.
  assert (Hne1 : segs1 <> []) by apply path_segments_nonempty.
  assert (Hne2 : segs2 <> []) by apply path_segments_nonempty.
  assert (Hv1 : hview h0 !! c1 = Some (view_of cm1)) by (by rewrite hview_lookup, Hcm1).
  assert (Hv2 : hview h0 !! c2 = Some (view_of cm2)) by (by rewrite hview_lookup, Hcm2).
  destruct (AddCmd_view h0 r c1 cm1 h1 Hcm1 Hadd1) as (HV1 & Hnm1).
  fold segs1 in HV1.
  destruct (v_register_childless (hview h0) r segs1 c1 c2) as (Hchain & Hframe);
    [done|done|done|done|done|done|by rewrite Hv2|].
  rewrite <- HV1 in Hchain, Hframe.
  assert (Hv2' : hview h1 !! c2 = Some (view_of cm2)).
  { rewrite Hframe; [done|by rewrite Hv2|done|done]. }
  assert (exists cm2', h1 !! c2 = Some cm2' /\ Cmd.Name cm2' = Cmd.Name cm2)
    as (cm2' & Hcm2' & Hname).
  { assert (Hn : Cmd.Name <$> h1 !! c2 = Cmd.Name <$> h0 !! c2).
    { apply Hnm1; [by rewrite Hcm2|done]. }
    rewrite Hcm2 in Hn. destruct (h1 !! c2) as [cm2'|]; [|done].
    exists cm2'. split; [done|]. by injection Hn. }
  destruct (AddCmd_view h1 r c2 cm2' h2 Hcm2' Hadd2) as (HV2 & _).
  rewrite Hname in HV2. fold segs2 in HV2.
  assert (Hwf1 : wf (hview h1)).
  { rewrite HV1. apply (wf_v_register _ _ _ _ (view_of cm1)); try done.
    destruct Hr as (v & -> & _). eauto. }
  assert (Hrs : is_Some (hview h1 !! r)).
  { destruct segs1; [done|]. simpl in Hchain.
    destruct Hchain as (_ & v & x & -> & _). eauto. }
  assert (Hwf2 : wf (hview h2)).
  { rewrite HV2. by apply (wf_v_register _ _ _ _ (view_of cm2)). }
  assert (Hc2' : childless (hview h1) c2).
  { destruct Hc2 as (v & Hv & ?). exists v. split; [|done]. congruence. }
  split.
  - apply FindCmd_walk; [done|done|]. rewrite HV2.
    eapply walk_mono; [|by eapply chain_walk].
    intros x t y. apply v_register_mono.
  - apply FindCmd_walk; [done|done|]. rewrite HV2.
    by apply (v_register_chain _ _ segs1 c1).
Qed.


Lemma wf_no_links V :
  map_Forall (fun _ v => v_static v = ∅ /\ v_param v = None) V -> wf V.
Proof.
  intros Hall. split; [|split].
  - intros p v Hv. destruct (Hall _ _ Hv) as [Hs Hp]. rewrite Hs, Hp.
    split; [intros k q; by rewrite lookup_empty|done].
  - intros p v k q Hv. destruct (Hall _ _ Hv) as [Hs _]. by rewrite Hs, lookup_empty.
  - intros p v k q vq Hv. destruct (Hall _ _ Hv) as [Hs _]. by rewrite Hs, lookup_empty.
Qed.

Lemma childless_lookup V p v :
  V !! p = Some v -> v_static v = ∅ -> v_param v = None -> childless V p.
Proof. intros. by exists v. Qed.


(** * Further properties of the code *)

(** ** Static registration and deletion *)

(** X1: the first static child registered under a name keeps it.  Linking
    a node under a free static name stores it under that name, marks it
    [StaticKind], sets its parent pointer and leaves its name alone; every
    later registration of a node of that name under the same parent
    changes nothing and returns the node registered first. *)
Theorem addCmd_first_static_wins h parent ca p c :
  h !! parent = Some p -> h !! ca = Some c ->
  Cmd.Name c <> "" -> is_wild (Cmd.Name c) = false ->
  map_of (Cmd.staticChildren p) !! Cmd.Name c = None ->
  exists h1 p1 c1,
    addCmd h parent ca = Ok (h1, ca) /\
    h1 !! parent = Some p1 /\
    map_of (Cmd.staticChildren p1) = <[Cmd.Name c := ca]> (map_of (Cmd.staticChildren p)) /\
    h1 !! ca = Some c1 /\ Cmd.Name c1 = Cmd.Name c /\
    Cmd.kind c1 = StaticKind /\ Cmd.parent c1 = Some parent /\
    (forall cb c', h1 !! cb = Some c' -> Cmd.Name c' = Cmd.Name c ->
       addCmd h1 parent cb = Ok (h1, ca)).
Proof.
  intros Hp Hc Hne Hw Hfree.
  assert (exists h1 p1 c1,
             addCmd h parent ca = Ok (h1, ca) /\
             h1 !! parent = Some p1 /\
             Cmd.staticChildren p1
             = Some (<[Cmd.Name c := ca]> (map_of (Cmd.staticChildren p))) /\
             h1 !! ca = Some c1 /\ Cmd.Name c1 = Cmd.Name c /\
             Cmd.kind c1 = StaticKind /\ Cmd.parent c1 = Some parent)
    as (h1 & p1 & c1 & Hadd & Hp1 & Hm1 & Hc1 & Hn1 & Hk1 & Hpar1).
  { unfold addCmd. rewrite (load_Ok _ _ _ Hc), bind_Ok.
    destruct (Cmd.Name c) as [|a name'] eqn:En; [done|].
    simpl index0. rewrite bind_Ok. simpl in Hw. rewrite Hw.
    rewrite (load_Ok _ _ _ Hp), bind_Ok.
    destruct (decide (parent = ca)) as [->|Hpc].
    - assert (p = c) as -> by congruence.
      destruct (Cmd.staticChildren c) as [m|] eqn:Em.
      + rewrite bind_Ok, (load_Ok _ _ _ Hc), bind_Ok, Em. simpl map_of.
        simpl in Hfree. rewrite Hfree.
        rewrite (assign_Ok _ _ _ _ Hc), bind_Ok.
        erewrite assign_Ok by apply lookup_insert_eq. rewrite bind_Ok.
        erewrite load_Ok by apply lookup_insert_eq. rewrite bind_Ok.
        erewrite assign_Ok by apply lookup_insert_eq. rewrite bind_Ok.
        eexists _, _, _. split; [done|]. rewrite !lookup_insert_eq.
        simpl. rewrite Em. repeat split; done.
      + rewrite (assign_Ok _ _ _ _ Hc), bind_Ok.
        erewrite load_Ok by apply lookup_insert_eq. rewrite bind_Ok.
        simpl map_of. rewrite lookup_empty.
        erewrite assign_Ok by apply lookup_insert_eq. rewrite bind_Ok.
        erewrite assign_Ok by apply lookup_insert_eq. rewrite bind_Ok.
        erewrite load_Ok by apply lookup_insert_eq. rewrite bind_Ok.
        erewrite assign_Ok by apply lookup_insert_eq. rewrite bind_Ok.
        eexists _, _, _. split; [done|]. rewrite !lookup_insert_eq.
        simpl. repeat split; done.
    - destruct (Cmd.staticChildren p) as [m|] eqn:Em.
      + rewrite bind_Ok, (load_Ok _ _ _ Hp), bind_Ok, Em. simpl map_of.
        simpl in Hfree. rewrite Hfree.
        rewrite (assign_Ok _ _ _ _ Hc), bind_Ok.
        erewrite assign_Ok by apply lookup_insert_eq. rewrite bind_Ok.
        erewrite load_Ok by (rewrite !lookup_insert_ne by done; apply Hp).
        rewrite bind_Ok.
        erewrite assign_Ok by (rewrite !lookup_insert_ne by done; apply Hp).
        rewrite bind_Ok.
        eexists _, _, _. split; [done|].
        rewrite lookup_insert_eq, lookup_insert_ne, lookup_insert_eq by done.
        simpl. rewrite Em. repeat split; done.
      + rewrite (assign_Ok _ _ _ _ Hp), bind_Ok.
        erewrite load_Ok by apply lookup_insert_eq. rewrite bind_Ok.
        simpl map_of. rewrite lookup_empty.
        erewrite assign_Ok by (rewrite lookup_insert_ne by done; apply Hc).
        rewrite bind_Ok.
        erewrite assign_Ok by apply lookup_insert_eq. rewrite bind_Ok.
        erewrite load_Ok
          by (rewrite !lookup_insert_ne by done; apply lookup_insert_eq).
        rewrite bind_Ok.
        erewrite assign_Ok
          by (rewrite !lookup_insert_ne by done; apply lookup_insert_eq).
        rewrite bind_Ok.
        eexists _, _, _. split; [done|].
        rewrite lookup_insert_eq, lookup_insert_ne, lookup_insert_eq by done.
        simpl. repeat split; done. }
  exists h1, p1, c1. split; [done|]. split; [done|]. split; [by rewrite Hm1|].
  repeat (split; [done|]).
  intros cb c' Hcb Hname. unfold addCmd.
  rewrite (load_Ok _ _ _ Hcb), bind_Ok, Hname.
  destruct (Cmd.Name c) as [|a name'] eqn:En; [done|].
  simpl index0. rewrite bind_Ok. simpl in Hw. rewrite Hw.
  rewrite (load_Ok _ _ _ Hp1), bind_Ok, Hm1, bind_Ok, (load_Ok _ _ _ Hp1), bind_Ok.
  rewrite Hm1. simpl map_of. by rewrite lookup_insert_eq.
Qed.


(** Linking a wildcard child under a parent whose slot is free. *)
Lemma addCmd_wild_free h parent ca p c a :
  h !! parent = Some p -> Cmd.paramChild p = None ->
  h !! ca = Some c -> Cmd.Name c = String paramLabel a ->
  exists h1 p1 c1,
    addCmd h parent ca = Ok (h1, ca) /\
    h1 !! parent = Some p1 /\ Cmd.paramChild p1 = Some ca /\
    Cmd.staticChildren p1 = Cmd.staticChildren p /\
    h1 !! ca = Some c1 /\ Cmd.Name c1 = a /\ Cmd.kind c1 = ParamKind /\
    Cmd.parent c1 = Some parent.
Proof.
  intros Hp Hnone Hc Hname. unfold addCmd.
  rewrite (load_Ok _ _ _ Hc), bind_Ok, Hname. simpl index0.
  rewrite bind_Ok. simpl Ascii.eqb. rewrite (load_Ok _ _ _ Hp), bind_Ok, Hnone.
  rewrite (assign_Ok _ _ _ _ Hc), bind_Ok.
  erewrite assign_Ok by apply lookup_insert_eq. rewrite bind_Ok.
  erewrite assign_Ok by apply lookup_insert_eq. rewrite bind_Ok.
  rewrite !insert_insert_eq.
  destruct (decide (parent = ca)) as [->|Hne].
  - assert (p = c) as -> by congruence.
    erewrite assign_Ok by apply lookup_insert_eq. rewrite bind_Ok.
    rewrite insert_insert_eq.
    eexists _, _, _. split; [done|].
    rewrite lookup_insert_eq. repeat split; done.
  - erewrite assign_Ok by (rewrite lookup_insert_ne by done; apply Hp).
    rewrite bind_Ok.
    eexists _, _, _. split; [done|].
    rewrite lookup_insert_eq, lookup_insert_ne, lookup_insert_eq by done.
    repeat split; done.
Qed.

(** X2: a wildcard child can be replaced after it is deleted.  Deleting
    the wildcard child of a parent under its own name empties the slot (and
    touches neither the static children nor any other node); a wildcard
    registered afterwards, whatever its name, becomes the param child. *)
Theorem DeleteCmd_then_register_wildcard h parent p q cq cb c b :
  h !! parent = Some p -> Cmd.paramChild p = Some q -> h !! q = Some cq ->
  h !! cb = Some c -> Cmd.Name c = String paramLabel b ->
  exists h1 p1 h2 p2 c2,
    DeleteCmd h parent (String paramLabel (Cmd.Name cq)) = Ok h1 /\
    h1 !! parent = Some p1 /\ Cmd.paramChild p1 = None /\
    Cmd.staticChildren p1 = Cmd.staticChildren p /\
    (forall x, x <> parent -> h1 !! x = h !! x) /\
    addCmd h1 parent cb = Ok (h2, cb) /\
    h2 !! parent = Some p2 /\ Cmd.paramChild p2 = Some cb /\
    h2 !! cb = Some c2 /\ Cmd.Name c2 = b /\ Cmd.kind c2 = ParamKind.
Proof.
  intros Hp Hq Hcq Hc Hname.
  set (p1 := Cmd.set_paramChild None p).
  set (h1 := <[parent := p1]> h).
  assert (Hdel : DeleteCmd h parent (String paramLabel (Cmd.Name cq)) = Ok h1).
  { unfold DeleteCmd. simpl index0. rewrite bind_Ok. simpl Ascii.eqb.
    rewrite (load_Ok _ _ _ Hp), bind_Ok, Hq, (load_Ok _ _ _ Hcq), bind_Ok.
    simpl slice1. rewrite String.eqb_refl. by apply assign_Ok. }
  assert (Hp1 : h1 !! parent = Some p1) by apply lookup_insert_eq.
  assert (exists c', h1 !! cb = Some c' /\ Cmd.Name c' = String paramLabel b)
    as (c' & Hc' & Hname').
  { unfold h1. destruct (decide (parent = cb)) as [->|Hne].
    - rewrite lookup_insert_eq. exists p1. split; [done|].
      assert (p = c) as -> by congruence. done.
    - rewrite lookup_insert_ne by done. eauto. }
  destruct (addCmd_wild_free h1 parent cb p1 c' b Hp1 eq_refl Hc' Hname')
    as (h2 & p2 & c2 & Hadd & Hp2 & Hq2 & _ & Hc2 & Hn2 & Hk2 & _).
  exists h1, p1, h2, p2, c2. repeat (split; [done|]).
  split; [|done]. intros x Hx. unfold h1. by rewrite lookup_insert_ne.
Qed.

(** X3: [DeleteCmd] with a wildcard-marked name that is not the name of
    the param child (or when there is no param child) leaves the whole
    store as it is: static children are never deleted through a
    wildcard-marked name. *)
Theorem DeleteCmd_wildcard_mismatch h c cc a :
  h !! c = Some cc ->
  match Cmd.paramChild cc with
  | Some q => exists cq, h !! q = Some cq /\ Cmd.Name cq <> a
  | None => True
  end ->
  DeleteCmd h c (String paramLabel a) = Ok h.
Proof.
  intros Hc Hq. unfold DeleteCmd. simpl index0. rewrite bind_Ok. simpl Ascii.eqb.
  rewrite (load_Ok _ _ _ Hc), bind_Ok.
  destruct (Cmd.paramChild cc) as [q|]; [|done].
  destruct Hq as (cq & Hcq & Hne). rewrite (load_Ok _ _ _ Hcq), bind_Ok.
  simpl slice1. by destruct (String.eqb_spec (Cmd.Name cq) a).
Qed.

(** X4: [DeleteCmd] with a static name removes exactly that entry of the
    map of static children: the param child, the other entries and all
    other nodes stay; deleting a name that is not registered (also on a
    node that never had a static child) leaves the whole store as it is. *)
Theorem DeleteCmd_static h c cc name :
  h !! c = Some cc -> name <> "" -> is_wild name = false ->
  exists h1 cc1,
    DeleteCmd h c name = Ok h1 /\ h1 !! c = Some cc1 /\
    map_of (Cmd.staticChildren cc1) = delete name (map_of (Cmd.staticChildren cc)) /\
    Cmd.paramChild cc1 = Cmd.paramChild cc /\ Cmd.Name cc1 = Cmd.Name cc /\
    (forall x, x <> c -> h1 !! x = h !! x) /\
    (map_of (Cmd.staticChildren cc) !! name = None -> h1 = h).
Proof.
  intros Hc Hne Hw. unfold DeleteCmd.
  destruct name as [|a name']; [done|]. simpl index0. rewrite bind_Ok.
  simpl in Hw. rewrite Hw, (load_Ok _ _ _ Hc), bind_Ok.
  destruct (Cmd.staticChildren cc) as [m|] eqn:Em.
  - rewrite (assign_Ok _ _ _ _ Hc). eexists _, _. split; [done|].
    rewrite lookup_insert_eq. split; [done|]. simpl. repeat (split; [done|]).
    split; [intros x Hx; by rewrite lookup_insert_ne|].
    intros Hnone. apply insert_id. rewrite Hc. f_equal.
    rewrite delete_id by done. destruct cc. simpl in *. by subst.
  - exists h, cc. rewrite Em. simpl. rewrite delete_empty. done.
Qed.


(** ** Resolution *)

Lemma findAlias_total h name entries :
  Forall (fun e => is_Some (h !! e.2)) entries ->
  exists r, findAlias h name entries = Ok r /\
    forall q, r = Some q -> q ∈ entries.*2.
Proof.
  induction 1 as [|[k q] entries [cq Hq] _ (r & IH & Hr)]; simpl.
  - exists None. done.
  - simpl in Hq. rewrite (load_Ok _ _ _ Hq), bind_Ok.
    destruct (existsb _ _).
    + exists (Some q). split; [done|]. intros ? [= <-]. left.
    + exists r. split; [done|]. intros q' Hq'. right. by apply Hr.
Qed.

Lemma findAlias_None_inv h name entries :
  findAlias h name entries = Ok None ->
  forall k q cq, (k, q) ∈ entries -> h !! q = Some cq -> name ∉ Cmd.Aliases cq.
Proof.
  induction entries as [|[k0 q0] entries IH]; simpl; intros H k q cq Hin Hq.
  - by apply elem_of_nil in Hin.
  - apply bind_Ok_inv in H as (c0 & Hc0%load_Ok_inv & H).
    destruct (existsb _ _) eqn:E; [done|].
    apply elem_of_cons in Hin as [[= -> ->]|Hin]; [|by eapply IH].
    assert (c0 = cq) as -> by congruence.
    intros Hal%existsb_alias. congruence.
Qed.

(** On a store whose links all lead to objects, a resolution step does
    not fault, and a node it returns is in the store. *)
Lemma findChildCmd_total h c t :
  closed (hview h) -> is_Some (h !! c) ->
  exists r, findChildCmd h c t = Ok r /\ forall q, r = Some q -> is_Some (h !! q).
Proof.
  intros Hcl [cc Hc]. unfold findChildCmd. rewrite (load_Ok _ _ _ Hc), bind_Ok.
  assert (Hvc : hview h !! c = Some (view_of cc)) by (by rewrite hview_lookup, Hc).
  destruct (Hcl _ _ Hvc) as [Hs Hp]. simpl in Hs, Hp.
  assert (Hs' : forall k q, map_of (Cmd.staticChildren cc) !! k = Some q ->
                  is_Some (h !! q)).
  { intros k q Hq. specialize (Hs k q Hq). by rewrite hview_lookup, fmap_is_Some in Hs. }
  destruct (map_of (Cmd.staticChildren cc) !! t) as [q|] eqn:E.
  - exists (Some q). split; [done|]. intros ? [= <-]. eauto.
  - destruct (findAlias_total h t (map_order (map_of (Cmd.staticChildren cc))))
      as (r & -> & Hr).
    { apply Forall_forall. intros [k q] Hk%elem_of_map_order. eauto. }
    rewrite bind_Ok. destruct r as [q|].
    + exists (Some q). split; [done|]. intros ? [= <-].
      specialize (Hr q eq_refl).
      apply list_elem_of_fmap in Hr as ([k q'] & -> & Hk%elem_of_map_order). eauto.
    + exists (Cmd.paramChild cc). split; [done|]. intros q Hq.
      specialize (Hp q Hq). by rewrite hview_lookup, fmap_is_Some in Hp.
Qed.

Lemma FindCmd_loop_splits h c cmd args ctx :
  closed (hview h) -> is_Some (h !! c) ->
  exists r consumed rest bound,
    FindCmd_loop h c cmd args ctx = Ok (r, rest, ctx ++ bound) /\
    args = consumed ++ rest /\
    (consumed = [] -> r = cmd) /\ (consumed <> [] -> is_Some r) /\
    length bound <= length consumed /\
    Forall (fun b => Param.Value b ∈ consumed) bound.
Proof.
  intros Hcl. revert c cmd ctx.
  induction args as [|arg args IH]; intros c cmd ctx Hc.
  - exists cmd, [], [], []. simpl. rewrite app_nil_r. repeat split; try done.
  - cbn [FindCmd_loop].
    destruct (findChildCmd_total h c arg Hcl Hc) as ([cmd1|] & -> & Hr);
      rewrite bind_Ok.
    + destruct (Hr cmd1 eq_refl) as [c1 Hc1].
      rewrite (load_Ok _ _ _ Hc1), bind_Ok.
      set (ctx1 := match Cmd.kind c1 with
                   | StaticKind => ctx
                   | ParamKind => ctx ++ [Param.mk (Cmd.Name c1) arg]
                   end).
      destruct (IH cmd1 (Some cmd1) ctx1 ltac:(eauto))
        as (r & consumed & rest & bound & Hloop & -> & Hnil & Hcons & Hlen & Hall).
      assert (Hr' : is_Some r).
      { destruct consumed; [rewrite Hnil by done; eauto|by apply Hcons]. }
      assert (Hall' : Forall (fun b => Param.Value b ∈ arg :: consumed) bound).
      { eapply Forall_impl; [exact Hall|]. intros b Hb. by right. }
      rewrite Hloop. unfold ctx1. destruct (Cmd.kind c1).
      * exists r, (arg :: consumed), rest, bound.
        repeat split; try done. simpl. lia.
      * exists r, (arg :: consumed), rest, (Param.mk (Cmd.Name c1) arg :: bound).
        rewrite <- app_assoc. repeat split; try done; [simpl; lia|].
        constructor; [left|done].
    + exists cmd, [], (arg :: args), []. rewrite app_nil_r. repeat split; done.
Qed.

(** X5: on a store whose links all lead to objects, [FindCmd] never
    faults, and it splits its tokens: the leftover is a suffix of the
    arguments; no node is returned exactly when no token was consumed; the
    context is extended, by at most one parameter for each consumed token,
    each bound to a consumed token. *)
Theorem FindCmd_splits_tokens h c args ctx :
  closed (hview h) -> is_Some (h !! c) ->
  exists r consumed rest bound,
    FindCmd h c args ctx = Ok (r, rest, ctx ++ bound) /\
    args = consumed ++ rest /\
    (r = None <-> consumed = []) /\
    length bound <= length consumed /\
    Forall (fun b => Param.Value b ∈ consumed) bound.
Proof.
  intros Hcl Hc.
  destruct (FindCmd_loop_splits h c None args ctx Hcl Hc)
    as (r & consumed & rest & bound & Hloop & Hargs & Hnil & Hcons & Hlen & Hall).
  exists r, consumed, rest, bound. split; [done|]. split; [done|].
  split; [|done]. split; [|apply Hnil].
  intros ->. destruct consumed; [done|]. destruct Hcons as [? ?]; done.
Qed.

Lemma FindCmd_loop_cmd h c cmd args ctx :
  FindCmd_loop h c cmd args ctx
  = '(r, rest, ctx') ← FindCmd_loop h c None args ctx;
    Ok (match r with Some x => Some x | None => cmd end, rest, ctx').
Proof.
  destruct args as [|arg args]; [done|]. cbn [FindCmd_loop].
  destruct (findChildCmd h c arg) as [[cmd1|]|f]; [|done|done].
  rewrite !bind_Ok. destruct (load h cmd1) as [c1|f]; [|done]. rewrite !bind_Ok.
  destruct (FindCmd_loop h cmd1 (Some cmd1) args _) as [[[r rest] ctx']|f] eqn:E;
    [|done].
  rewrite bind_Ok. apply FindCmd_loop_Some in E as [x ->]. done.
Qed.

Lemma FindCmd_loop_app h c cmd a b ctx r1 ctx1 :
  FindCmd_loop h c cmd a ctx = Ok (r1, [], ctx1) ->
  exists node, (a = [] /\ node = c /\ r1 = cmd \/ r1 = Some node) /\
    FindCmd_loop h c cmd (a ++ b) ctx = FindCmd_loop h node r1 b ctx1.
Proof.
  revert c cmd ctx. induction a as [|arg a IH]; intros c cmd ctx.
  - simpl. intros [= <- <-]. exists c. eauto.
  - cbn [FindCmd_loop app]. intros H.
    apply bind_Ok_inv in H as ([cmd1|] & -> & H); [|done]. rewrite bind_Ok.
    apply bind_Ok_inv in H as (c1 & -> & H). rewrite bind_Ok.
    destruct (IH _ _ _ H) as (node & [(-> & -> & ->)| ->] & Heq); eauto.
Qed.

(** X6: resolution composes.  If the tokens [a] resolve completely to the
    node [n], then resolving [a ++ b] from the start is resolving [b] from
    [n], with the context reached; when nothing of [b] matches, the node
    returned is [n] and the leftover all of [b]. *)
Theorem FindCmd_app h c a b ctx n ctx1 :
  FindCmd h c a ctx = Ok (Some n, [], ctx1) ->
  FindCmd h c (a ++ b) ctx
  = '(r, rest, ctx2) ← FindCmd h n b ctx1; Ok (Some (default n r), rest, ctx2).
Proof.
  unfold FindCmd. intros H.
  destruct (FindCmd_loop_app h c None a b ctx (Some n) ctx1 H)
    as (node & [(_ & _ & ?)|[= <-]] & ->); [done|].
  rewrite FindCmd_loop_cmd.
  destruct (FindCmd_loop h n None b ctx1) as [[[r rest] ctx2]|f]; [|done].
  rewrite !bind_Ok. by destruct r.
Qed.

(** X7: resolution is greedy.  It stops before a token only when the
    node reached (the last match, or the start node) offers nothing for
    it: no static child of that name, no static child with that alias and
    no param child. *)
Theorem FindCmd_stops_only_when_unmatched h c args ctx r t rest ctx' :
  FindCmd h c args ctx = Ok (r, t :: rest, ctx') ->
  exists cc, h !! default c r = Some cc /\
    Cmd.paramChild cc = None /\
    map_of (Cmd.staticChildren cc) !! t = None /\
    forall k q cq, map_of (Cmd.staticChildren cc) !! k = Some q ->
      h !! q = Some cq -> t ∉ Cmd.Aliases cq.
Proof.
  intros H. apply FindCmd_loop_leftover in H as (node & Hnode & Hr).
  assert (default c r = node) as -> by (by destruct Hr as [[-> ->]| ->]).
  unfold findChildCmd in Hnode.
  apply bind_Ok_inv in Hnode as (cc & Hcc%load_Ok_inv & Hnode).
  exists cc. split; [done|].
  destruct (map_of (Cmd.staticChildren cc) !! t) eqn:E; [done|].
  apply bind_Ok_inv in Hnode as ([q|] & Hal & Hnode); [done|].
  split; [by simplify_eq|]. split; [done|].
  intros k q cq Hk Hq. eapply findAlias_None_inv; [exact Hal| |exact Hq].
  by apply elem_of_map_order.
Qed.


(** ** Registration *)

Lemma links_kept_refl V : links_kept V V.
Proof. intros x v Hv. exists v. done. Qed.

Lemma links_kept_trans V1 V2 V3 :
  links_kept V1 V2 -> links_kept V2 V3 -> links_kept V1 V3.
Proof.
  intros H12 H23 x v Hv.
  destruct (H12 _ _ Hv) as (v2 & Hv2 & Hs2 & Hp2 & Ha2).
  destruct (H23 _ _ Hv2) as (v3 & Hv3 & Hs3 & Hp3 & Ha3).
  exists v3. split; [done|]. split; [by etrans|]. split; [auto|congruence].
Qed.

Lemma v_attach_keeps seg child v :
  v_static v ⊆ v_static (v_attach seg child v) /\
  (forall q, v_param v = Some q -> v_param (v_attach seg child v) = Some q).
Proof.
  unfold v_attach. destruct (v_edge v seg) eqn:E; [done|].
  unfold v_edge in E. destruct (is_wild seg); simpl.
  - split; [done|]. congruence.
  - split; [by apply insert_subseteq|done].
Qed.

Lemma v_addCmd_keeps V parent seg child :
  links_kept V (v_addCmd V parent seg child).1.
Proof.
  intros x v Hv. rewrite v_addCmd_lookup. case_decide as Hx; [|by exists v].
  subst. rewrite Hv. simpl. eexists. split; [done|].
  destruct (v_attach_keeps seg child v). by rewrite v_attach_aliases.
Qed.

Lemma alloc_keeps V : links_kept V (<[fresh (dom V) := mkview ∅ None []]> V).
Proof. intros x v Hv. exists v. rewrite alloc_lookup_ne by eauto. done. Qed.

Lemma v_addPath_keeps V last names : links_kept V (v_addPath V last names).1.
Proof.
  revert V last. induction names as [|name names IH]; intros V last.
  - apply links_kept_refl.
  - rewrite v_addPath_cons. cbn zeta.
    eapply links_kept_trans; [apply alloc_keeps|].
    eapply links_kept_trans; [apply v_addCmd_keeps|]. apply IH.
Qed.

Lemma v_register_keeps V c segs cmd : links_kept V (v_register V c segs cmd).
Proof.
  unfold v_register.
  pose proof (v_addPath_keeps V c (removelast segs)) as H.
  destruct (v_addPath V c (removelast segs)) as [V2 last]. simpl in H.
  eapply links_kept_trans; [exact H|]. apply v_addCmd_keeps.
Qed.

(** X8: registration never unlinks or replaces a child.  After a
    successful [AddCmd], every node of the store still has every static
    child it had, under the same name, the param child it had, and its
    aliases. *)
Theorem AddCmd_keeps_children h c cmd h' x cx :
  AddCmd h c cmd = Ok h' -> h !! x = Some cx ->
  exists cx', h' !! x = Some cx' /\
    map_of (Cmd.staticChildren cx) ⊆ map_of (Cmd.staticChildren cx') /\
    (forall q, Cmd.paramChild cx = Some q -> Cmd.paramChild cx' = Some q) /\
    Cmd.Aliases cx' = Cmd.Aliases cx.
Proof.
  intros Hadd Hx.
  assert (exists cm, h !! cmd = Some cm) as [cm Hcm].
  { unfold AddCmd in Hadd. apply bind_Ok_inv in Hadd as (cm & ?%load_Ok_inv & _). eauto. }
  destruct (AddCmd_view h c cmd cm h' Hcm Hadd) as [Hview _].
  destruct (v_register_keeps (hview h) c (path_segments (Cmd.Name cm)) cmd x (view_of cx))
    as (v' & Hv' & Hs & Hp & Ha); [by rewrite hview_lookup, Hx|].
  rewrite <- Hview, hview_lookup in Hv'.
  destruct (h' !! x) as [cx'|]; [|done]. simpl in Hv'. simplify_eq.
  exists cx'. done.
Qed.

Lemma addPath_Ok_inv h last nm names r :
  addPath h last nm names = Ok r -> Forall (fun s => valid_segment s = true) names.
Proof.
  revert h last. induction names as [|name names IH]; intros h last H; [done|].
  rewrite addPath_cons in H. apply bind_Ok_inv in H as (a & Ha & H).
  destruct (Ascii.eqb a paramLabel && (String.length name <? 2)%nat) eqn:E; [done|].
  apply bind_Ok_inv in H as ([h2 q] & _ & H). constructor; [|by eapply IH].
  destruct name as [|a' s]; [done|]. simpl in Ha. injection Ha as ->.
  unfold valid_segment. destruct s as [|b s].
  - simpl in E. rewrite andb_true_r in E. unfold paramLabel in E. simpl.
    by rewrite E.
  - simpl. by destruct (Ascii.eqb a ":").
Qed.

(** X9: [AddCmd] returns normally exactly for the valid paths.  On a
    store whose links all lead to objects, with the receiver and the node
    in the store, [AddCmd] succeeds if and only if the name of the node is
    not empty, no segment of its path is empty, and no segment before the
    last is the bare wildcard marker. *)
Theorem AddCmd_Ok_iff_valid_path h c cmd cm :
  closed (hview h) -> is_Some (h !! c) -> h !! cmd = Some cm ->
  (exists h', AddCmd h c cmd = Ok h') <-> valid_path (Cmd.Name cm).
Proof.
  intros Hcl Hc Hcm. unfold valid_path, AddCmd.
  rewrite (load_Ok _ _ _ Hcm), bind_Ok.
  destruct (String.eqb_spec (Cmd.Name cm) "") as [He|He].
  { split; [by intros [? ?]|by intros [? _]]. }
  rewrite (assign_Ok _ _ _ _ Hcm), bind_Ok.
  fold (path_segments (Cmd.Name cm)).
  set (trimmed := TrimSuffix _ _). set (segs := path_segments _).
  set (h1 := <[cmd := Cmd.set_Name trimmed cm]> h).
  assert (Hv1 : hview h1 = hview h) by (by apply (hview_insert_same _ _ cm)).
  split.
  - intros [h' H]. split; [done|].
    apply bind_Ok_inv in H as ([h2 last] & Hpath & H).
    split; [by eapply addPath_Ok_inv|].
    apply bind_Ok_inv in H as (h3 & Hh3 & H).
    apply bind_Ok_inv in Hh3 as (cm2 & Hcm2%load_Ok_inv & [= <-]).
    apply bind_Ok_inv in H as ([h4 q] & Hadd & _).
    apply addCmd_Ok_inv in Hadd as (c' & p & Hc' & _ & Hn).
    rewrite lookup_insert_eq in Hc'. by simplify_eq.
  - intros (_ & Hvalid & Hlast).
    destruct (addPath_Ok h1 c trimmed (removelast segs))
      as (h2 & last & -> & _ & _ & [cl Hl] & Hsub); [by rewrite Hv1| |done|].
    { unfold h1. rewrite lookup_insert. case_decide; eauto. }
    rewrite bind_Ok.
    assert (is_Some (h2 !! cmd)) as [cm2 Hcm2].
    { apply elem_of_dom, Hsub, elem_of_dom. unfold h1. rewrite lookup_insert_eq. eauto. }
    rewrite (assign_Ok _ _ _ _ Hcm2), bind_Ok.
    set (cm3 := Cmd.set_Name (List.last segs "") cm2).
    destruct (addCmd_spec (<[cmd := cm3]> h2) last cmd cm3
                (if decide (cmd = last) then cm3 else cl))
      as (h4 & -> & _); [apply lookup_insert_eq| |done|by eauto].
    rewrite lookup_insert. by case_decide.
Qed.

(** X10: registration keeps the store well formed: afterwards all links
    still lead to objects, no static child is stored under a
    wildcard-marked name, and no static child carries a wildcard-marked
    alias (given that the registered node carries none). *)
Theorem AddCmd_keeps_wf h c cmd cm h' :
  wf (hview h) -> is_Some (h !! c) -> h !! cmd = Some cm ->
  Forall (fun a => is_wild a = false) (Cmd.Aliases cm) ->
  AddCmd h c cmd = Ok h' -> wf (hview h').
Proof.
  intros Hwf Hc Hcm Hal Hadd.
  destruct (AddCmd_view h c cmd cm h' Hcm Hadd) as [-> _].
  apply (wf_v_register _ _ _ _ (view_of cm)); try done.
  - by rewrite hview_lookup, fmap_is_Some.
  - by rewrite hview_lookup, Hcm.
Qed.


Lemma closed_edge V x t y :
  closed V -> edge V x t = Some y -> is_Some (V !! y).
Proof.
  intros Hcl (v & Hv & He)%edge_lookup. destruct (Hcl _ _ Hv) as [Hs Hp].
  unfold v_edge in He. destruct (is_wild t); eauto.
Qed.

Lemma walk_alloc V x segs :
  closed V -> is_Some (V !! x) ->
  walk (<[fresh (dom V) := mkview ∅ None []]> V) x segs = walk V x segs.
Proof.
  intros Hcl. revert x. induction segs as [|t segs IH]; intros x Hx; [done|].
  cbn [walk]. unfold edge. rewrite alloc_lookup_ne by done.
  destruct (V !! x ≫= λ v, v_edge v t) as [y|] eqn:E; [|done]. simpl.
  apply IH. by apply (closed_edge V x t).
Qed.

(** After registration the path leads to the node that held it before,
    and to the registered node when it was free. *)
Lemma v_register_walk V c segs cmd :
  closed V -> is_Some (V !! c) -> segs <> [] ->
  walk (v_register V c segs cmd) c segs = Some (default cmd (walk V c segs)).
Proof.
  revert V c. induction segs as [|s segs IH]; intros V c Hcl [v Hv] Hne; [done|].
  destruct (decide (segs = [])) as [->|Hne'].
  - rewrite v_register_single. cbn [walk]. rewrite v_addCmd_edge. simpl.
    unfold v_addCmd, edge. simpl. rewrite Hv. simpl. by destruct (v_edge v s).
  - rewrite v_register_cons by done. cbn zeta.
    set (p := fresh (dom V)). set (V1 := <[p := mkview ∅ None []]> V).
    assert (Hcl1 : closed V1).
    { apply closed_alloc; [done|]. apply (not_elem_of_dom (D:=gset ptr)), is_fresh. }
    assert (Hv1 : V1 !! c = Some v).
    { unfold V1, p. rewrite alloc_lookup_ne by eauto. done. }
    assert (Hp1 : V1 !! p = Some (mkview ∅ None [])) by apply lookup_insert_eq.
    assert (Hcp : c <> p) by (apply fresh_ne; eauto).
    assert (Hw : walk V c (s :: segs) = x ← v_edge v s; walk V x segs).
    { cbn [walk]. unfold edge. by rewrite Hv. }
    rewrite Hw. clear Hw.
    destruct (v_edge v s) as [x|] eqn:E.
    + rewrite (v_addCmd_taken V1 c s p v x Hv1 E). cbn [fst snd walk].
      assert (Hx : is_Some (V !! x)).
      { apply (closed_edge V c s); [done|]. apply edge_lookup. eauto. }
      rewrite (v_register_mono V1 x segs cmd c s x) by (apply edge_lookup; eauto).
      cbn [mbind option_bind].
      rewrite IH; [|done| |done].
      * unfold V1, p. by rewrite walk_alloc.
      * unfold V1, p. rewrite alloc_lookup_ne by done. done.
    + destruct (v_addCmd_free V1 c s p v Hv1 E) as (Hq & v' & Hv' & He' & _).
      destruct (v_addCmd_closed V1 c s p Hcl1) as (Hcl2 & _ & _); [eauto|eauto|].
      assert (Hp2 : (v_addCmd V1 c s p).1 !! p = Some (mkview ∅ None [])).
      { rewrite v_addCmd_lookup. by rewrite decide_False. }
      rewrite Hq. cbn [walk].
      rewrite (v_register_mono _ p segs cmd c s p) by (apply edge_lookup; eauto).
      cbn [mbind option_bind default from_option id].
      rewrite IH; [|done|eauto|done].
      destruct segs as [|t segs]; [done|]. cbn [walk]. unfold edge.
      rewrite Hp2. cbn [mbind option_bind]. unfold v_edge. cbn [v_static v_param].
      rewrite lookup_empty. by destruct (is_wild t).
Qed.

(** X11: a registered path resolves.  After a successful [AddCmd] on a
    well-formed store, resolving the segments of the registered path from
    the receiver consumes all of them and returns the node that already
    stood at that path, or the registered node when nothing did. *)
Theorem AddCmd_then_FindCmd h c cmd cm h' ctx :
  wf (hview h) -> is_Some (h !! c) -> h !! cmd = Some cm ->
  Forall (fun a => is_wild a = false) (Cmd.Aliases cm) ->
  AddCmd h c cmd = Ok h' ->
  exists ctx',
    FindCmd h' c (path_segments (Cmd.Name cm)) ctx
    = Ok (Some (default cmd (walk (hview h) c (path_segments (Cmd.Name cm)))),
          [], ctx').
Proof.
  intros Hwf Hc Hcm Hal Hadd.
  destruct (AddCmd_view h c cmd cm h' Hcm Hadd) as [Hview _].
  assert (Hcv : is_Some (hview h !! c)) by (by rewrite hview_lookup, fmap_is_Some).
  apply FindCmd_walk.
  - rewrite Hview. apply (wf_v_register _ _ _ _ (view_of cm)); try done.
    by rewrite hview_lookup, Hcm.
  - apply path_segments_nonempty.
  - rewrite Hview. apply v_register_walk; [apply Hwf|done|apply path_segments_nonempty].
Qed.


(** ** Completion *)

Lemma substring_all s : substring 0 (String.length s) s = s.
Proof. induction s as [|a s IH]; simpl; [done|]. by rewrite IH. Qed.

Lemma HasPrefix_TrimPrefix w p :
  HasPrefix w p = true -> p +:+ TrimPrefix w p = w.
Proof.
  unfold TrimPrefix. intros H. rewrite H. unfold HasPrefix in H.
  revert w H. induction p as [|a p IH]; intros w H.
  - rewrite append_nil_l. simpl String.length. rewrite Nat.sub_0_r.
    apply substring_all.
  - destruct w as [|b w]; [done|]. simpl in H.
    destruct (ascii_dec a b) as [->|]; [|done].
    rewrite append_cons. simpl. f_equal. by apply IH.
Qed.

Lemma HasPrefix_refl p : HasPrefix p p = true.
Proof.
  unfold HasPrefix. induction p as [|a p IH]; simpl; [done|].
  by destruct (ascii_dec a a).
Qed.

Lemma TrimPrefix_refl p : TrimPrefix p p = "".
Proof.
  unfold TrimPrefix. rewrite HasPrefix_refl, Nat.sub_diag.
  generalize (String.length p). intros n. revert n.
  induction p as [|a p IH]; intros [|n]; simpl; auto.
Qed.

(** The loop of [Do]: the suggestions come from the candidates that are
    no parameter and have the prefix, in order; there is a tip for every
    candidate; [hasParam] tells whether some candidate is a parameter. *)
Lemma Do_scan_spec prefix cWords :
  Do_scan prefix cWords
  = ((fun c => TrimPrefix (Suggestion.Word c) prefix)
       <$> filter (fun c => Suggestion.Param c = false /\
                            HasPrefix (Suggestion.Word c) prefix = true) cWords,
     Do_tip <$> cWords,
     bool_decide (Exists (fun c => Suggestion.Param c = true) cWords)).
Proof.
  induction cWords as [|w ws IH]; [done|].
  simpl Do_scan. rewrite IH, fmap_cons, filter_cons. clear IH.
  assert (Hex : forall b : bool, Suggestion.Param w = b ->
            b || bool_decide (Exists (fun c => Suggestion.Param c = true) ws)
            = bool_decide (Exists (fun c => Suggestion.Param c = true) (w :: ws))).
  { intros [|] Hb; simpl.
    - symmetry. apply bool_decide_eq_true_2. by left.
    - apply bool_decide_ext. rewrite Exists_cons. split; [by right|].
      intros [?|?]; [congruence|done]. }
  rewrite (Hex _ eq_refl). clear Hex.
  destruct (Suggestion.Param w), (HasPrefix (Suggestion.Word w) prefix) eqn:E;
    simpl negb; simpl andb; cbn iota.
  - by rewrite decide_False by (by intros [? ?]).
  - by rewrite decide_False by (by intros [? ?]).
  - by rewrite decide_True by done.
  - by rewrite decide_False by (by intros [? ?]).
Qed.

(** X12: accepting a suggestion completes the typed prefix to a
    candidate.  When [Do] (not disabled) returns, the replace length is
    the length of the prefix it determined; either it answers the single
    suggestion of one space, the non-empty prefix being the whole word of
    a candidate that is no parameter, or every suggestion appended to the
    prefix is the word of a candidate that is no parameter.  The reported
    count is the number of suggestions, or one more; what is printed is
    nothing, or an empty line and then one tip for every candidate. *)
Theorem Do_suggestions_complete_prefix h root disabled line pos sugs n off printed :
  disabled <> Some true ->
  Do h root disabled line pos = Ok (sugs, n, off, printed) ->
  exists prefix w cWords,
    Do_prefix line pos (Do_words line) = Ok (prefix, w) /\
    getWords h root prefix w = Ok cWords /\
    off = Z.of_nat (String.length prefix) /\
    ((sugs = [" "] /\ prefix <> "" /\
      exists c, c ∈ cWords /\ Suggestion.Param c = false /\ Suggestion.Word c = prefix)
     \/ Forall (fun s => exists c, c ∈ cWords /\ Suggestion.Param c = false /\
                           Suggestion.Word c = prefix +:+ s) sugs) /\
    (Z.of_nat (length sugs) <= n <= Z.of_nat (length sugs) + 1)%Z /\
    (printed = [] \/ printed = "" :: (Do_tip <$> cWords)).
Proof.
  intros Hdis H. unfold Do in H. rewrite bool_decide_eq_false_2 in H by done.
  apply bind_Ok_inv in H as ([prefix w] & Hprefix & H).
  apply bind_Ok_inv in H as (cWords & Hwords & H).
  exists prefix, w, cWords. split; [done|]. split; [done|].
  rewrite Do_scan_spec in H.
  set (matching := filter _ cWords) in H.
  assert (Hsound : Forall (fun s => exists c, c ∈ cWords /\ Suggestion.Param c = false /\
                     Suggestion.Word c = prefix +:+ s)
            ((fun c => TrimPrefix (Suggestion.Word c) prefix) <$> matching)).
  { apply Forall_fmap, Forall_forall. intros c [[Hp Hpre] Hin]%list_elem_of_filter.
    exists c. simpl. by rewrite HasPrefix_TrimPrefix. }
  assert (Hprinted : forall b : bool,
             (if b then match Do_tip <$> cWords with [] => [] | _ => "" :: (Do_tip <$> cWords) end
              else []) = [] \/
             (if b then match Do_tip <$> cWords with [] => [] | _ => "" :: (Do_tip <$> cWords) end
              else []) = "" :: (Do_tip <$> cWords)).
  { intros [|]; [|by left]. destruct (Do_tip <$> cWords); [by left|by right]. }
  assert (Hm : forall c, c ∈ matching -> c ∈ cWords /\ Suggestion.Param c = false /\
                 HasPrefix (Suggestion.Word c) prefix = true).
  { intros c [[Hp Hpre] Hin]%list_elem_of_filter. done. }
  clearbody matching.
  destruct matching as [|c0 [|c1 rest]]; cbn [fmap list_fmap] in H.
  - simplify_eq. split; [done|]. split; [by right|]. split; [|apply Hprinted].
    simpl. case_bool_decide; lia.
  - destruct (negb (String.eqb prefix "") && String.eqb (TrimPrefix (Suggestion.Word c0) prefix) "")
      eqn:E; simplify_eq.
    + split; [done|]. split; [|split; [simpl; lia|by left]].
      left. split; [done|]. apply andb_true_iff in E as [E1 E2].
      split; [by destruct (String.eqb_spec prefix "")|].
      destruct (Hm c0) as (Hin & Hp & Hpre); [left|].
      exists c0. split; [done|]. split; [done|].
      apply String.eqb_eq in E2.
      by rewrite <- (HasPrefix_TrimPrefix _ _ Hpre), E2, append_nil_r.
    + split; [done|]. split; [by right|]. split; [|apply Hprinted].
      simpl. case_bool_decide; lia.
  - simplify_eq. split; [done|]. split; [by right|]. split; [|apply Hprinted].
    cbn [length]. case_bool_decide; lia.
Qed.

(** X13: a fully typed name is acknowledged with a space.  When the
    non-empty prefix is itself the only candidate word that is no
    parameter and has the prefix, [Do] answers the single suggestion of
    one space, reports one candidate and prints nothing, also when there
    are parameter candidates. *)
Theorem Do_full_name_single_space h root disabled line pos prefix w cWords c :
  disabled <> Some true ->
  Do_prefix line pos (Do_words line) = Ok (prefix, w) ->
  prefix <> "" ->
  getWords h root prefix w = Ok cWords ->
  filter (fun c => Suggestion.Param c = false /\
                   HasPrefix (Suggestion.Word c) prefix = true) cWords = [c] ->
  Suggestion.Word c = prefix ->
  Do h root disabled line pos
  = Ok ([" "], 1%Z, Z.of_nat (String.length prefix), []).
Proof.
  intros Hdis Hprefix Hne Hwords Hfilter Hword. unfold Do.
  rewrite bool_decide_eq_false_2 by done.
  rewrite Hprefix, bind_Ok, Hwords, bind_Ok, Do_scan_spec, Hfilter.
  cbn [fmap list_fmap]. rewrite Hword, TrimPrefix_refl.
  destruct (String.eqb_spec prefix ""); [done|]. done.
Qed.

Lemma get_out_of_range (n : nat) (line : string) :
  (String.length line <= n)%nat -> String.get n line = None.
Proof.
  revert n. induction line as [|a s IH]; intros n Hle; simpl in *; [by destruct n|].
  destruct n; [lia|]. apply IH. lia.
Qed.

(** X14: a cursor beyond the end of the line.  When the line has a token
    and the cursor position is greater than the length of the line, [Do]
    (not disabled) panics with an index out of range, reading the
    character before the cursor. *)
Theorem Do_cursor_beyond_line h root disabled line pos :
  disabled <> Some true -> Do_words line <> [] ->
  (Z.of_nat (String.length line) < pos)%Z ->
  Do h root disabled line pos = Fault IndexOutOfRange.
Proof.
  intros Hdis Hw Hpos. unfold Do. rewrite bool_decide_eq_false_2 by done.
  unfold Do_prefix.
  rewrite bool_decide_eq_true_2 by (destruct (Do_words line); [done|simpl; lia]).
  rewrite bool_decide_eq_true_2 by lia. simpl andb. cbn iota.
  rewrite get_out_of_range by lia. done.
Qed.


Lemma staticWords_inv h prefix entries statics :
  staticWords h prefix entries = Ok statics ->
  Forall (fun s => Suggestion.Param s = false /\ Suggestion.Optional s = false /\
            HasPrefix (Suggestion.Word s) prefix = true /\
            exists q cq, (Suggestion.Word s, q) ∈ entries /\ h !! q = Some cq /\
              Suggestion.Help s = helpText cq) statics.
Proof.
  revert statics. induction entries as [|[k q] entries IH]; intros statics H.
  - simpl in H. by simplify_eq.
  - simpl in H.
    assert (Hweak : forall l,
      Forall (fun s => Suggestion.Param s = false /\ Suggestion.Optional s = false /\
            HasPrefix (Suggestion.Word s) prefix = true /\
            exists q cq, (Suggestion.Word s, q) ∈ entries /\ h !! q = Some cq /\
              Suggestion.Help s = helpText cq) l ->
      Forall (fun s => Suggestion.Param s = false /\ Suggestion.Optional s = false /\
            HasPrefix (Suggestion.Word s) prefix = true /\
            exists q0 cq, (Suggestion.Word s, q0) ∈ (k, q) :: entries /\ h !! q0 = Some cq /\
              Suggestion.Help s = helpText cq) l).
    { intros l Hl. eapply Forall_impl; [exact Hl|].
      intros s (? & ? & ? & q0 & cq & ? & ? & ?).
      repeat (split; [done|]). exists q0, cq. split; [by right|done]. }
    destruct (HasPrefix k prefix) eqn:E; simpl in H.
    + apply bind_Ok_inv in H as (cq & Hq%load_Ok_inv & H).
      apply bind_Ok_inv in H as (rest & Hrest & [= <-]).
      constructor; [|by apply Hweak, IH].
      simpl. repeat (split; [done|]). exists q, cq. split; [left|done].
    + by apply Hweak, IH.
Qed.

Lemma pairSlot_inv last specs sg :
  pairSlot last specs = Some sg ->
  Suggestion.Param sg = true /\
  exists spec, spec ∈ specs /\ Arg.Name spec = last /\ Arg.Pair spec = true /\
    Suggestion.Word sg = Arg.Name spec /\ Suggestion.Help sg = Arg.Help spec /\
    Suggestion.Optional sg = Arg.Optional spec.
Proof.
  induction specs as [|arg specs IH]; [done|]. simpl.
  destruct (String.eqb (Arg.Name arg) last && Arg.Pair arg) eqn:E.
  - intros [= <-]. apply andb_true_iff in E as [E%String.eqb_eq Hp].
    split; [done|]. exists arg. split; [left|done].
  - intros (? & spec & ? & ?)%IH. split; [done|]. exists spec. split; [by right|done].
Qed.

Lemma argWords_spec argMap specs :
  Forall (fun s => Suggestion.Param s = false /\
            exists spec, spec ∈ specs /\ (Arg.Name spec ∉ argMap) /\
              Suggestion.Word s = Arg.Name spec /\ Suggestion.Help s = Arg.Help spec /\
              Suggestion.Optional s = Arg.Optional spec) (argWords argMap specs).
Proof.
  induction specs as [|arg specs IH]; simpl; [done|].
  assert (Hweak : Forall (fun s => Suggestion.Param s = false /\
            exists spec, spec ∈ arg :: specs /\ (Arg.Name spec ∉ argMap) /\
              Suggestion.Word s = Arg.Name spec /\ Suggestion.Help s = Arg.Help spec /\
              Suggestion.Optional s = Arg.Optional spec) (argWords argMap specs)).
  { eapply Forall_impl; [exact IH|]. intros s (? & spec & ? & ?).
    split; [done|]. exists spec. split; [by right|done]. }
  case_bool_decide as Hin; [done|]. constructor; [|done].
  split; [done|]. exists arg. split; [left|done].
Qed.

(** X15: where the candidates of [getWords] come from.  Every candidate
    is one of: a static child of the node reached whose name has the
    prefix (no parameter, not optional, with the help of that child); the
    param child of that node (a parameter, under its name, whatever the
    prefix); the value slot of a [Pair] argument spec named by the last
    leftover token (a parameter); or an argument spec whose name is not
    among the leftover tokens (no parameter, whatever the prefix). *)
Theorem getWords_candidate_sources h root prefix w r args ctx' cc res :
  FindCmd h root w [] = Ok (r, args, ctx') ->
  h !! default root r = Some cc ->
  getWords h root prefix w = Ok res ->
  Forall (candidate_source h prefix cc args) res.
Proof.
  intros Hfind Hcc H. unfold getWords in H. rewrite Hfind, bind_Ok in H.
  replace (match r with Some c => c | None => root end) with (default root r) in H
    by (by destruct r).
  unfold candidates in H. rewrite (load_Ok _ _ _ Hcc), bind_Ok in H.
  apply bind_Ok_inv in H as (statics & Hst%staticWords_inv & H).
  apply bind_Ok_inv in H as (s2 & Hs2 & H).
  set (P := candidate_source h prefix cc args).
  assert (Hstatics : Forall P statics).
  { eapply Forall_impl; [exact Hst|].
    intros s (? & ? & ? & q & cq & Hin%elem_of_map_order & ? & ?). left.
    repeat (split; [done|]). eauto. }
  assert (H2 : Forall P s2).
  { destruct (Cmd.paramChild cc) as [q|] eqn:Eq; [|by simplify_eq].
    apply bind_Ok_inv in Hs2 as (qc & Hqc%load_Ok_inv & [= <-]).
    apply Forall_app. split; [done|]. constructor; [|done].
    right. left. simpl. split; [done|]. split; [done|]. by exists q, qc. }
  destruct (match args with [] => None | _ => pairSlot (List.last args "") (Cmd.Args cc) end)
    as [sg|] eqn:Eslot; injection H as <-; rewrite sort_by_perm; apply Forall_app;
    (split; [done|]).
  - constructor; [|done]. right. right.
    destruct args as [|t rest]; [done|].
    apply pairSlot_inv in Eslot as (Hp & spec & Hin & Hn & Hpair & Hw & Hh & Ho).
    exists spec. repeat (split; [done|]). left. done.
  - eapply Forall_impl; [apply argWords_spec|].
    intros s (Hp & spec & Hin & Hnot & Hw & Hh & Ho). right. right.
    exists spec. repeat (split; [done|]). right. split; [done|].
    by rewrite elem_of_list_to_set in Hnot.
Qed.

(** ** Visible subcommands *)

Lemma other_child_iff (m : gmap string ptr) :
  (exists k q, k <> "help" /\ m !! k = Some q) <->
  (1 < size m)%nat \/ (m !! "help" = None /\ (0 < size m)%nat).
Proof.
  split.
  - intros (k & q & Hk & Hq).
    destruct (m !! "help") as [q0|] eqn:E.
    + left. assert (size (delete "help" m) <> 0%nat) as Hsz.
      { apply (map_size_ne_0_lookup_2 _ k). rewrite lookup_delete_ne by done. eauto. }
      rewrite map_size_delete_Some in Hsz by eauto. lia.
    + right. split; [done|].
      assert (size m <> 0%nat) by (apply (map_size_ne_0_lookup_2 _ k); eauto). lia.
  - intros [Hsz|[Hnone Hsz]].
    + assert (size (delete "help" m) <> 0%nat) as Hd.
      { rewrite map_size_delete. destruct (m !! "help"); simpl; lia. }
      apply map_size_ne_0_lookup_1 in Hd as [k [q Hq]].
      apply lookup_delete_Some in Hq as [Hne Hq]. eauto.
    + assert (size m <> 0%nat) as Hd by lia.
      apply map_size_ne_0_lookup_1 in Hd as [k [q Hq]].
      exists k, q. split; [|done]. intros ->. congruence.
Qed.

(** X16: a lone [help] child is no visible subcommand.  A node has
    visible subcommands exactly when it has a param child or a static
    child stored under a name other than [help]; when it has none,
    [HelpText] is the help paragraph of the node alone, without a
    "Commands:" block. *)
Theorem hasSubcommand_hides_lone_help h c cc :
  h !! c = Some cc ->
  exists b,
    hasSubcommand h c = Ok b /\
    (b = true <->
       Cmd.paramChild cc <> None \/
       exists k q, k <> "help" /\ map_of (Cmd.staticChildren cc) !! k = Some q) /\
    (b = false -> HelpText h c = Ok (helpParagraph cc)).
Proof.
  intros Hc.
  assert (exists b, hasSubcommand h c = Ok b /\
            (b = true <->
             Cmd.paramChild cc <> None \/
             exists k q, k <> "help" /\ map_of (Cmd.staticChildren cc) !! k = Some q))
    as (b & Hb & Hiff).
  { unfold hasSubcommand. rewrite (load_Ok _ _ _ Hc), bind_Ok.
    destruct (1 <? size (map_of (Cmd.staticChildren cc)))%nat eqn:E1.
    { apply Nat.ltb_lt in E1. exists true. split; [done|].
      rewrite other_child_iff. split; [auto|done]. }
    apply Nat.ltb_ge in E1. simpl orb.
    case_bool_decide as Hp.
    { exists true. split; [done|]. split; [auto|done]. }
    destruct (map_of (Cmd.staticChildren cc) !! "help") as [q0|] eqn:Eh.
    - exists false. split; [done|]. rewrite other_child_iff. split; [done|].
      intros [?|[?|[? _]]]; [done|lia|congruence].
    - eexists. split; [done|]. rewrite other_child_iff, Nat.ltb_lt. split; [auto|].
      intros [?|[?|[_ ?]]]; [done|lia|done]. }
  exists b. split; [done|]. split; [done|]. intros ->.
  unfold HelpText. rewrite (load_Ok _ _ _ Hc), bind_Ok, Hb, bind_Ok.
  by rewrite HelpText_paragraph.
Qed.


(** ** Path parameters *)

(** Linking a child under a node without children. *)
Lemma addCmd_bare h parent child p c :
  h !! parent = Some p -> bare p -> h !! child = Some c ->
  Cmd.Name c <> "" -> parent <> child ->
  exists h' p' c',
    addCmd h parent child = Ok (h', child) /\
    h' !! parent = Some p' /\ h' !! child = Some c' /\
    only_child p' (Cmd.Name c) child /\ labelled c' (Cmd.Name c) /\
    Cmd.Name p' = Cmd.Name p /\ Cmd.kind p' = Cmd.kind p /\
    Cmd.staticChildren c' = Cmd.staticChildren c /\
    Cmd.paramChild c' = Cmd.paramChild c /\
    (forall x, x <> parent -> x <> child -> h' !! x = h !! x).
Proof.
  intros Hp [Hm Hpc] Hc Hn Hne. unfold addCmd, only_child, labelled.
  rewrite (load_Ok _ _ _ Hc), bind_Ok.
  destruct (Cmd.Name c) as [|a name'] eqn:En; [done|]. simpl index0. rewrite bind_Ok.
  simpl is_wild. destruct (Ascii.eqb a paramLabel) eqn:Ea.
  - rewrite (load_Ok _ _ _ Hp), bind_Ok, Hpc.
    rewrite (assign_Ok _ _ _ _ Hc), bind_Ok.
    erewrite assign_Ok by apply lookup_insert_eq. rewrite bind_Ok.
    erewrite assign_Ok by apply lookup_insert_eq. rewrite bind_Ok.
    erewrite assign_Ok by (rewrite !lookup_insert_ne by done; apply Hp).
    rewrite bind_Ok. eexists _, _, _. split; [done|].
    rewrite lookup_insert_eq, lookup_insert_ne, lookup_insert_eq by done.
    split; [done|]. split; [done|]. simpl. repeat (split; [done|]).
    intros x ? ?. by rewrite !lookup_insert_ne.
  - rewrite (load_Ok _ _ _ Hp), bind_Ok.
    destruct (Cmd.staticChildren p) as [m|] eqn:Em.
    + rewrite bind_Ok, (load_Ok _ _ _ Hp), bind_Ok, Em. simpl in Hm. simpl map_of.
      rewrite Hm, lookup_empty.
      rewrite (assign_Ok _ _ _ _ Hc), bind_Ok.
      erewrite assign_Ok by apply lookup_insert_eq. rewrite bind_Ok.
      erewrite load_Ok by (rewrite !lookup_insert_ne by done; apply Hp).
      rewrite bind_Ok.
      erewrite assign_Ok by (rewrite !lookup_insert_ne by done; apply Hp).
      rewrite bind_Ok. eexists _, _, _. split; [done|].
      rewrite lookup_insert_eq, lookup_insert_ne, lookup_insert_eq by done.
      split; [done|]. split; [done|]. simpl. rewrite lookup_insert_eq.
      repeat (split; [done|]).
      intros x ? ?. by rewrite !lookup_insert_ne.
    + rewrite (assign_Ok _ _ _ _ Hp), bind_Ok.
      erewrite load_Ok by apply lookup_insert_eq. rewrite bind_Ok.
      simpl map_of. rewrite lookup_empty.
      erewrite assign_Ok by (rewrite lookup_insert_ne by done; apply Hc).
      rewrite bind_Ok.
      erewrite assign_Ok by apply lookup_insert_eq. rewrite bind_Ok.
      erewrite load_Ok
        by (rewrite !lookup_insert_ne by done; apply lookup_insert_eq).
      rewrite bind_Ok.
      erewrite assign_Ok
        by (rewrite !lookup_insert_ne by done; apply lookup_insert_eq).
      rewrite bind_Ok. eexists _, _, _. split; [done|].
      rewrite lookup_insert_eq, lookup_insert_ne, lookup_insert_eq by done.
      split; [done|]. split; [done|]. simpl. rewrite lookup_insert_eq.
      repeat (split; [done|]).
      intros x ? ?. by rewrite !lookup_insert_ne.
Qed.

Lemma labelled_ext c1 c2 s :
  Cmd.Name c2 = Cmd.Name c1 -> Cmd.kind c2 = Cmd.kind c1 ->
  labelled c1 s -> labelled c2 s.
Proof. unfold labelled. intros -> ->. done. Qed.

(** The loop of [AddCmd] and its last step, from a node without children:
    the path is spelled out child by child down to the registered node. *)
Lemma register_hchain nm cmd final names :
  final <> "" ->
  forall h last cl cm,
    h !! last = Some cl -> bare cl -> h !! cmd = Some cm -> last <> cmd ->
    Forall (fun s => valid_segment s = true) names ->
    exists h4 cl4,
      ('(h2, q) ← addPath h last nm names;
       h3 ← assign h2 cmd (Cmd.set_Name final);
       '(h4, _) ← addCmd h3 q cmd;
       Ok h4) = Ok h4 /\
      hchain h4 last (names ++ [final]) cmd /\
      h4 !! last = Some cl4 /\ Cmd.Name cl4 = Cmd.Name cl /\
      Cmd.kind cl4 = Cmd.kind cl /\
      (forall x, is_Some (h !! x) -> x <> last -> x <> cmd -> h4 !! x = h !! x).
Proof.
  intros Hfinal. induction names as [|name names IH];
    intros h last cl cm Hl Hbare Hcm Hne Hvalid.
  - simpl addPath. rewrite bind_Ok, (assign_Ok _ _ _ _ Hcm), bind_Ok.
    destruct (addCmd_bare (<[cmd := Cmd.set_Name final cm]> h) last cmd cl
                (Cmd.set_Name final cm))
      as (h4 & p' & c' & -> & Hp' & Hc' & Honly & Hlab & Hn & Hk & _ & _ & Hframe);
      [by rewrite lookup_insert_ne|done|apply lookup_insert_eq|done|done|].
    rewrite bind_Ok. exists h4, p'. split; [done|]. split.
    + simpl. exists p', cmd, c'. done.
    + repeat (split; [done|]). intros x _ ? ?.
      rewrite Hframe by done. by rewrite lookup_insert_ne.
  - apply Forall_cons in Hvalid as [Hv Hvalid].
    rewrite addPath_cons.
    assert (Hname : name <> "") by (by intros ->).
    destruct name as [|a name'] eqn:En; [done|]. simpl index0. rewrite bind_Ok.
    rewrite <- En in *.
    assert (Hguard : Ascii.eqb a paramLabel && (String.length name <? 2)%nat = false).
    { rewrite En. unfold valid_segment in Hv. rewrite En in Hv.
      destruct name' as [|b s]; [|by rewrite andb_false_r].
      simpl in *. rewrite andb_true_r. unfold paramLabel.
      by destruct (Ascii.eqb a ":"). }
    rewrite Hguard. set (p := alloc h).
    assert (Hfresh : h !! p = None) by apply alloc_fresh.
    assert (Hlp : last <> p) by (intros ->; congruence).
    assert (Hcp : cmd <> p) by (intros ->; congruence).
    destruct (addCmd_bare (<[p := Cmd.new name]> h) last p cl (Cmd.new name))
      as (h2 & p' & c' & -> & Hp' & Hc' & Honly & Hlab & Hn & Hk & Hs & Hpc & Hframe);
      [by rewrite lookup_insert_ne|done|apply lookup_insert_eq|done|done|].
    rewrite bind_Ok.
    destruct (IH h2 p c' cm) as (h4 & cl4 & -> & Hchain & Hl4 & Hn4 & Hk4 & Hframe4);
      [done| |by rewrite Hframe, lookup_insert_ne by done|done|done|].
    { split; [by rewrite Hs|by rewrite Hpc]. }
    exists h4, p'. split; [done|].
    assert (H4last : h4 !! last = Some p').
    { rewrite Hframe4; [done|by rewrite Hp'|done|done]. }
    split; [|split; [done|split; [done|split; [done|]]]].
    + change ((name :: names) ++ [final]) with (name :: (names ++ [final])).
      cbn [hchain]. exists p', p, cl4. repeat (split; [done|]).
      split; [|done]. by apply (labelled_ext c').
    + intros x Hx ? ?.
      assert (x <> p) by (intros ->; rewrite Hfresh in Hx; by destruct Hx).
      rewrite Hframe4; [|rewrite Hframe, lookup_insert_ne by done; done|done|done].
      rewrite Hframe by done. by rewrite lookup_insert_ne.
Qed.

Lemma path_matches_nil_r segs : path_matches segs [] = true -> segs = [].
Proof. by destruct segs. Qed.

(** Resolution along such a chain of children. *)
Lemma FindCmd_loop_hchain h segs :
  forall n c toks cmd0 ctx,
    hchain h n segs c -> path_matches segs toks = true ->
    FindCmd_loop h n cmd0 toks ctx
    = Ok (match toks with [] => cmd0 | _ => Some c end, [],
          ctx ++ path_bindings segs toks).
Proof.
  induction segs as [|s segs IH]; intros n c toks cmd0 ctx Hchain Hm.
  - destruct toks; [|done]. simpl. by rewrite app_nil_r.
  - destruct toks as [|t toks]; [done|].
    simpl in Hm. apply andb_true_iff in Hm as [Hst Hm].
    destruct Hchain as (cn & x & cx & Hn & Honly & Hx & Hlab & Hchain).
    assert (Hend : match toks with [] => Some x | _ => Some c end = Some c).
    { destruct toks; [|done]. apply path_matches_nil_r in Hm. subst.
      simpl in Hchain. by subst. }
    assert (Hfind : findChildCmd h n t = Ok (Some x)).
    { unfold findChildCmd. rewrite (load_Ok _ _ _ Hn), bind_Ok.
      unfold only_child in Honly. destruct (is_wild s) eqn:Ew.
      - destruct Honly as [-> ->]. rewrite lookup_empty.
        assert (map_order ∅ = []) as ->.
        { apply Permutation_nil. by rewrite map_order_perm, map_to_list_empty. }
        done.
      - simpl in Hst. apply String.eqb_eq in Hst as <-. by rewrite Honly. }
    cbn [FindCmd_loop path_bindings]. rewrite Hfind, bind_Ok, (load_Ok _ _ _ Hx), bind_Ok.
    unfold labelled in Hlab. destruct (is_wild s).
    + destruct Hlab as [-> ->]. rewrite (IH x c toks) by done.
      by rewrite Hend, <- app_assoc.
    + rewrite Hlab, (IH x c toks) by done. by rewrite Hend.
Qed.

(** X17: path parameters.  Register a node under a root without children
    at the path it is named by.  Then every token list that follows the
    path (the same token at a static segment, any token at a wildcard
    segment) resolves from the root to the registered node with nothing
    left over, and binds, in order, the name of every wildcard segment
    (without the marker) to the token at its place. *)
Theorem AddCmd_binds_path_parameters h0 r cmd cr cm h' toks ctx :
  h0 !! r = Some cr -> bare cr -> h0 !! cmd = Some cm -> r <> cmd ->
  AddCmd h0 r cmd = Ok h' ->
  path_matches (path_segments (Cmd.Name cm)) toks = true ->
  FindCmd h' r toks ctx
  = Ok (Some cmd, [], ctx ++ path_bindings (path_segments (Cmd.Name cm)) toks).
Proof.
  intros Hr Hbare Hcm Hne Hadd Hm.
  unfold AddCmd in Hadd. rewrite (load_Ok _ _ _ Hcm), bind_Ok in Hadd.
  destruct (String.eqb (Cmd.Name cm) ""); [done|].
  rewrite (assign_Ok _ _ _ _ Hcm), bind_Ok in Hadd.
  fold (path_segments (Cmd.Name cm)) in Hadd.
  set (segs := path_segments (Cmd.Name cm)) in *.
  set (trimmed := TrimSuffix _ _) in Hadd.
  set (h1 := <[cmd := Cmd.set_Name trimmed cm]> h0) in Hadd.
  assert (Hsegs : segs = removelast segs ++ [List.last segs ""]).
  { apply app_removelast_last, path_segments_nonempty. }
  assert (Hvalid : Forall (fun s => valid_segment s = true) (removelast segs) /\
                   List.last segs "" <> "").
  { pose proof Hadd as H.
    apply bind_Ok_inv in H as ([h2 last] & Hpath & H).
    split; [by eapply addPath_Ok_inv|].
    apply bind_Ok_inv in H as (h3 & Hh3 & H).
    apply bind_Ok_inv in Hh3 as (cm2 & Hcm2%load_Ok_inv & [= <-]).
    apply bind_Ok_inv in H as ([h4 q] & Ha & _).
    apply addCmd_Ok_inv in Ha as (c' & p & Hc' & _ & Hn).
    rewrite lookup_insert_eq in Hc'. by simplify_eq. }
  destruct Hvalid as [Hvalid Hfinal].
  destruct (register_hchain trimmed cmd (List.last segs "") (removelast segs) Hfinal
              h1 r cr (Cmd.set_Name trimmed cm))
    as (h4 & cl4 & Hreg & Hchain & _);
    [by (unfold h1; rewrite lookup_insert_ne)|done|apply lookup_insert_eq|done|done|].
  rewrite Hreg in Hadd. injection Hadd as <-.
  rewrite <- Hsegs in Hchain.
  unfold FindCmd. rewrite (FindCmd_loop_hchain h4 segs r cmd toks None ctx Hchain Hm).
  destruct toks; [|done]. apply path_matches_nil_r in Hm.
  by destruct (path_segments_nonempty (Cmd.Name cm)).
Qed.


(** ** Completion never faults on a sound store *)

Lemma FindCmd_loop_alloc h c cmd args ctx r rest ctx' :
  closed (hview h) -> is_Some (h !! c) ->
  (forall q, cmd = Some q -> is_Some (h !! q)) ->
  FindCmd_loop h c cmd args ctx = Ok (r, rest, ctx') ->
  forall q, r = Some q -> is_Some (h !! q).
Proof.
  intros Hcl. revert c cmd ctx.
  induction args as [|t args IH]; intros c cmd ctx Hc Hcmd H.
  - simpl in H. by simplify_eq.
  - simpl in H. destruct (findChildCmd_total h c t Hcl Hc) as (r1 & Hr1 & Halloc).
    rewrite Hr1, bind_Ok in H. destruct r1 as [x|]; [|by simplify_eq].
    apply bind_Ok_inv in H as (cx & Hx%load_Ok_inv & H).
    eapply (IH x (Some x)); [eauto| |exact H]. intros q [= <-]. eauto.
Qed.

Lemma argWords_complete argMap specs spec :
  spec ∈ specs -> Arg.Name spec ∉ argMap ->
  exists s, s ∈ argWords argMap specs /\
    Suggestion.Word s = Arg.Name spec /\ Suggestion.Param s = false.
Proof.
  intros Hin Hnot. induction specs as [|arg specs IH]; [by apply elem_of_nil in Hin|].
  simpl. apply elem_of_cons in Hin as [<-|Hin].
  - rewrite bool_decide_eq_false_2 by done. eexists. split; [left|done].
  - destruct (IH Hin) as (s & Hs & ?). exists s. split; [|done].
    case_bool_decide; [done|by right].
Qed.

(** The candidates at a node of a sound store. *)
Lemma candidates_Ok h prefix cmd cc args :
  closed (hview h) -> h !! cmd = Some cc ->
  exists statics,
    Suggestion.Word <$> statics
      = filter (fun k => HasPrefix k prefix = true)
               (map_order (map_of (Cmd.staticChildren cc))).*1 /\
    Forall (fun s => Suggestion.Param s = false) statics /\
    candidates h prefix cmd args
    = Ok (sort_by _ Suggestion.Word
            ((statics
              ++ match Cmd.paramChild cc with
                 | Some q => [Suggestion.mk (name_of h q) true false
                                (match h !! q with Some qc => helpText qc | None => "" end)]
                 | None => []
                 end)
             ++ match (match args with
                       | [] => None
                       | _ => pairSlot (List.last args "") (Cmd.Args cc)
                       end) with
                | Some sg => [sg]
                | None => argWords (list_to_set args) (Cmd.Args cc)
                end)).
Proof.
  intros Hcl Hc.
  assert (Hv : hview h !! cmd = Some (view_of cc)) by (by rewrite hview_lookup, Hc).
  destruct (Hcl _ _ Hv) as [Hs Hp].
  destruct (staticWords_Ok h prefix (map_order (map_of (Cmd.staticChildren cc))))
    as (statics & Hst & Hw & Hall).
  { apply Forall_forall. intros [k q] Hk%elem_of_map_order. simpl.
    specialize (Hs k q Hk). by rewrite hview_lookup, fmap_is_Some in Hs. }
  exists statics. split; [done|]. split.
  { eapply Forall_impl; [exact Hall|]. by intros s [? _]. }
  unfold candidates. rewrite (load_Ok _ _ _ Hc), bind_Ok, Hst, bind_Ok.
  destruct (Cmd.paramChild cc) as [q|] eqn:Eq.
  - destruct (Hp q) as [vq Hq]; [done|]. rewrite hview_lookup in Hq.
    unfold name_of. destruct (h !! q) as [qc|] eqn:Hqc; [|done].
    rewrite (load_Ok _ _ _ Hqc), !bind_Ok.
    by destruct (match args with [] => None | _ => _ end).
  - rewrite bind_Ok, app_nil_r.
    by destruct (match args with [] => None | _ => _ end).
Qed.

(** X18: on a store whose links all lead to objects, [getWords] returns
    normally, its candidates sorted by word, and leaves nothing out: every
    static child of the node reached whose name has the prefix is offered
    under its name, the param child is offered as a parameter, and, unless
    the last leftover token names a [Pair] argument, every argument whose
    name is not among the leftover tokens is offered. *)
Theorem getWords_offers_all h root prefix w :
  closed (hview h) -> is_Some (h !! root) ->
  exists r args ctx' cc res,
    FindCmd h root w [] = Ok (r, args, ctx') /\
    h !! default root r = Some cc /\
    getWords h root prefix w = Ok res /\
    Sorted (key_le Suggestion.Word) res /\
    (forall k q, map_of (Cmd.staticChildren cc) !! k = Some q ->
       HasPrefix k prefix = true ->
       exists s, s ∈ res /\ Suggestion.Word s = k /\ Suggestion.Param s = false) /\
    (forall q cq, Cmd.paramChild cc = Some q -> h !! q = Some cq ->
       exists s, s ∈ res /\ Suggestion.Word s = Cmd.Name cq /\
         Suggestion.Param s = true) /\
    ((args = [] \/
      forall spec, spec ∈ Cmd.Args cc -> Arg.Pair spec = true ->
        Arg.Name spec <> List.last args "") ->
     forall spec, spec ∈ Cmd.Args cc -> Arg.Name spec ∉ args ->
       exists s, s ∈ res /\ Suggestion.Word s = Arg.Name spec /\
         Suggestion.Param s = false).
Proof.
  intros Hcl Hroot.
  destruct (FindCmd_loop_splits h root None w [] Hcl Hroot)
    as (r & consumed & args & bound & Hfind & _).
  assert (Hr : is_Some (h !! default root r)).
  { destruct r as [q|]; [|done]. simpl.
    eapply (FindCmd_loop_alloc h root None w []); [done|done|done|exact Hfind|done]. }
  destruct Hr as [cc Hcc].
  destruct (candidates_Ok h prefix (default root r) cc args Hcl Hcc)
    as (statics & Hw & Hnop & Hcand).
  eexists r, args, _, cc, _. split; [exact Hfind|]. split; [done|].
  assert (Hget : getWords h root prefix w = candidates h prefix (default root r) args).
  { unfold getWords, FindCmd. rewrite Hfind, bind_Ok. by destruct r. }
  rewrite Hget. split; [exact Hcand|]. split; [apply sort_by_sorted|].
  split; [|split].
  - intros k q Hk Hpre.
    assert (Hin : k ∈ Suggestion.Word <$> statics).
    { rewrite Hw. apply list_elem_of_filter. split; [done|].
      apply list_elem_of_fmap. exists (k, q). split; [done|]. by apply elem_of_map_order. }
    apply list_elem_of_fmap in Hin as (s & -> & Hs). exists s.
    split; [|split; [done|]].
    + rewrite sort_by_perm, !elem_of_app. auto.
    + rewrite Forall_forall in Hnop. auto.
  - intros q cq Hq Hcq. rewrite Hq. eexists. split.
    + rewrite sort_by_perm, !elem_of_app. left. right. left.
    + unfold name_of. by rewrite Hcq.
  - intros Hslot spec Hin Hnot.
    assert (Hnone : match args with
                    | [] => None
                    | _ => pairSlot (List.last args "") (Cmd.Args cc)
                    end = None).
    { destruct Hslot as [->|Hno]; [done|]. destruct args as [|t rest]; [done|].
      destruct (pairSlot _ _) as [sg|] eqn:E; [|done].
      apply pairSlot_inv in E as (_ & sp & Hsp & Hn & Hp & _).
      by destruct (Hno sp Hsp Hp). }
    rewrite Hnone.
    destruct (argWords_complete (list_to_set args) (Cmd.Args cc) spec Hin)
      as (s & Hs & ? & ?); [by rewrite elem_of_list_to_set|].
    exists s. split; [|done]. rewrite sort_by_perm, !elem_of_app. auto.
Qed.

(** X19: completion does not panic inside the line.  On a store whose
    links all lead to objects, for every line and every cursor position
    that is not beyond the end of the line, [Do] returns normally. *)
Theorem Do_returns_within_line h root disabled line pos :
  closed (hview h) -> is_Some (h !! root) ->
  (pos <= Z.of_nat (String.length line))%Z ->
  exists sugs n off printed,
    Do h root disabled line pos = Ok (sugs, n, off, printed).
Proof.
  intros Hcl Hroot Hpos. unfold Do. case_bool_decide; [by eexists _, _, _, _|].
  assert (exists prefix w, Do_prefix line pos (Do_words line) = Ok (prefix, w))
    as (prefix & w & ->).
  { destruct (decide (0 < pos)%Z) as [H0|H0].
    - destruct (get_in_range (Z.to_nat (pos - 1)) line) as [a Ha]; [lia|].
      destruct (Do_words line) as [|w0 ws] eqn:Ew.
      { rewrite Do_prefix_empty by auto. eauto. }
      destruct (decide (a = " "%char)) as [->|Hsp].
      + rewrite Do_prefix_empty by auto. eauto.
      + rewrite (Do_prefix_nonspace _ _ _ a) by done. eauto.
    - unfold Do_prefix. rewrite (bool_decide_eq_false_2 (0 < pos)%Z) by done.
      rewrite andb_false_r. eauto. }
  rewrite bind_Ok.
  destruct (FindCmd_loop_splits h root None w [] Hcl Hroot)
    as (r & consumed & args & bound & Hfind & _).
  assert (Hr : is_Some (h !! default root r)).
  { destruct r as [q|]; [|done]. simpl.
    eapply (FindCmd_loop_alloc h root None w []); [done|done|done|exact Hfind|done]. }
  destruct Hr as [cc Hcc].
  destruct (candidates_Ok h prefix (default root r) cc args Hcl Hcc)
    as (statics & _ & _ & Hcand).
  assert (Hget : getWords h root prefix w = candidates h prefix (default root r) args).
  { unfold getWords, FindCmd. rewrite Hfind, bind_Ok. by destruct r. }
  rewrite Hget, Hcand, bind_Ok.
  destruct (Do_scan prefix _) as [[suggestions tips] hasParam].
  destruct (match suggestions with
            | [s0] => if negb (String.eqb prefix "") && String.eqb s0 ""
                      then ([" "], false) else (suggestions, hasParam)
            | _ => (suggestions, hasParam)
            end) as [suggestions' hasParam'].
  by eexists _, _, _, _.
Qed.

End Ishell.

(** * The instances meet the assumptions *)

Lemma order_canonical_perm m : order_canonical m ≡ₚ map_to_list m.
Proof. done. Qed.

Lemma order_reversed_perm m : order_reversed m ≡ₚ map_to_list m.
Proof. unfold order_reversed. symmetry. apply Permutation_rev. Qed.

#[local] Instance key_le_total {A : Type} (key : A -> string) : Total (key_le key).
Proof. intros x y. apply String.leb_total. Qed.

Lemma sort_merge_perm (A : Type) (key : A -> string) (l : list A) :
  sort_merge A key l ≡ₚ l.
Proof. apply merge_sort_Permutation. Qed.

Lemma sort_merge_sorted (A : Type) (key : A -> string) (l : list A) :
  Sorted (key_le key) (sort_merge A key l).
Proof. apply Sorted_merge_sort, _. Qed.

Ltac by_eval := vm_compute; reflexivity.

Ltac by_decide := apply (bool_decide_unpack _); vm_compute; exact I.

(** * The properties on the example stores *)

(** ** Wildcard registration *)


(** C2: the code accepts a bare marker as the last segment of a path.
    [AddCmd] of the path [:] and of the path [a/:] return normally and
    leave a param child with the empty name; only a bare marker before the
    last segment, as in [a/:/b], raises the panic. *)
Theorem AddCmd_accepts_bare_final_wildcard :
  (exists h', AddCmd (ex_one ":") 0 1 = Ok h' /\
     Cmd.paramChild <$> h' !! 0 = Some (Some 1) /\
     Cmd.Name <$> h' !! 1 = Some "" /\ Cmd.kind <$> h' !! 1 = Some ParamKind) /\
  (exists h', AddCmd (ex_one "a/:") 0 1 = Ok h' /\
     Cmd.paramChild <$> h' !! 2 = Some (Some 1) /\
     Cmd.Name <$> h' !! 1 = Some "") /\
  AddCmd (ex_one "a/:/b") 0 1
  = Fault (Panic "wildcards must be named with a non-empty name 'a/:/b'").
Proof.
  split; [|split].
  - eexists. split; [by_eval|]. repeat split; by_eval.
  - eexists. split; [by_eval|]. repeat split; by_eval.
  - by_eval.
Qed.

(** ** Faults of registration *)

(** C10 as stated fails on the path [://x]: its second segment is empty,
    yet [AddCmd] raises the documented wildcard panic for the bare marker
    before it, not an index fault. *)
Lemma empty_segment_after_bare_marker_counterexample :
  path_segments "://x" = [":"; ""; "x"] /\
  AddCmd (ex_one "://x") 0 1
  = Fault (Panic "wildcards must be named with a non-empty name '://x'") /\
  AddCmd (ex_one "://x") 0 1 <> Fault IndexOutOfRange.
Proof. split; [by_eval|]. split; [by_eval|]. by vm_compute. Qed.

Lemma empty_segment_index_out_of_range_witness :
  path_segments "a//b" = ["a"] ++ "" :: ["b"] /\
  AddCmd (ex_one "a//b") 0 1 = Fault IndexOutOfRange /\
  AddCmd (ex_one "/") 0 1 = Fault IndexOutOfRange /\
  DeleteCmd (ex_one "a") 0 "" = Fault IndexOutOfRange.
Proof.
  destruct empty_segment_index_out_of_range as [Hdel Hadd].
  split; [by_eval|]. split; [|split].
  - apply (Hadd (ex_one "a//b") 0 1 (Cmd.new "a//b") ["a"] ["b"]);
      [apply wf_no_links; by_decide|by_decide|by_eval|done|by_eval|by_decide].
  - apply (Hadd (ex_one "/") 0 1 (Cmd.new "/") [] []);
      [apply wf_no_links; by_decide|by_decide|by_eval|done|by_eval|by_decide].
  - apply Hdel.
Defined.

(** ** Path resolution *)

Lemma getWords_unmatched_uses_root_witness :
  FindCmd order_canonical ex_service 0 ["zz"; "start"] []
  = Ok (None, ["zz"; "start"], []) /\
  getWords order_canonical sort_merge ex_service 0 "" ["zz"; "start"]
  = candidates order_canonical sort_merge ex_service "" 0 ["zz"; "start"].
Proof.
  assert (H : FindCmd order_canonical ex_service 0 ["zz"; "start"] []
              = Ok (None, ["zz"; "start"], [])) by by_eval.
  split; [exact H|].
  exact (proj2 (getWords_unmatched_uses_root order_canonical sort_merge
                  ex_service 0 "" ["zz"; "start"] ["zz"; "start"] [] H)).
Defined.

(** C8 as stated fails when a sibling carries the same alias: with the
    alias [st] on both [start] and [stop], and [stop] visited first by the
    alias loop (an order the map may take), the token [st] resolves to
    [stop] (address 2) while [start] resolves to [start] (address 1). *)
Lemma alias_shared_by_sibling_counterexample :
  (forall m, order_canonical m ≡ₚ map_to_list m) /\
  order_canonical (<["start" := 1]> (<["stop" := 2]> ∅)) = [("stop", 2); ("start", 1)] /\
  FindCmd order_canonical ex_two_aliases 0 ["st"] [] = Ok (Some 2, [], []) /\
  FindCmd order_canonical ex_two_aliases 0 ["start"] [] = Ok (Some 1, [], []).
Proof.
  split; [apply order_canonical_perm|]. split; [by_eval|]. split; by_eval.
Qed.

Lemma FindCmd_alias_same_node_witness :
  map_of (Cmd.staticChildren
            (Cmd.mk "" [] "" "" [] None
               (Some (<["start" := 1]> (<["stop" := 2]> (<["status" := 3]> ∅))))
               None StaticKind)) !! "st" = None /\
  exists ctx1 ctx2,
    FindCmd order_canonical ex_service 0 ["st"] [] = Ok (Some 1, [], ctx1) /\
    FindCmd order_canonical ex_service 0 ["start"] [] = Ok (Some 1, [], ctx2).
Proof.
  split; [by_eval|].
  refine (proj1 (FindCmd_alias_same_node order_canonical order_canonical_perm
            ex_service 0
            (Cmd.mk "" [] "" "" [] None
               (Some (<["start" := 1]> (<["stop" := 2]> (<["status" := 3]> ∅))))
               None StaticKind)
            "start" "st" 1 [] _ _ _ _ _ _)).
  - by_eval.
  - by_decide.
  - by_eval.
  - eexists. split; [by_eval|]. by left.
  - by_eval.
  - intros k q Hq (cq & Hcq & Hin). simpl in Hq.
    apply lookup_insert_Some in Hq as [[_ <-]|[_ Hq]]; [done|].
    apply lookup_insert_Some in Hq as [[_ <-]|[_ Hq]].
    + vm_compute in Hcq. simplify_eq. by apply elem_of_nil in Hin.
    + apply lookup_insert_Some in Hq as [[_ <-]|[_ Hq]]; [|done].
      vm_compute in Hcq. simplify_eq. by apply elem_of_nil in Hin.
Defined.

(** ** Completion *)


(** C7 as stated fails for whitespace other than the space character:
    with a tab before the cursor, the code takes the last token as the
    prefix and resolves no token, where the rule of the specification has
    an empty prefix and resolves the token. *)
Lemma Do_prefix_tab_counterexample :
  Do_words shlex_unquoted ("foo" +:+ tab) = ["foo"] /\
  String.get 3 ("foo" +:+ tab) = Some (ascii_of_nat 9) /\
  isSpace (ascii_of_nat 9) = true /\
  Do_prefix ("foo" +:+ tab) 4 ["foo"] = Ok ("foo", []) /\
  Do_prefix_spec ("foo" +:+ tab) 4 ["foo"] = ("", ["foo"]).
Proof. repeat split; by_eval. Qed.

Lemma Do_prefix_rule_witness :
  (0 <= 2 <= Z.of_nat (String.length "st"))%Z /\
  Do_prefix "st" 2 ["st"] = Ok ("st", []) /\
  Do_prefix "st " 3 ["st"] = Ok ("", ["st"]).
Proof.
  split; [simpl; lia|]. split.
  - apply (proj1 (Do_prefix_rule "st" 2 ["st"] ltac:(simpl; lia)) "t"%char);
      [lia|reflexivity|discriminate|discriminate].
  - apply (proj1 (proj2 (Do_prefix_rule "st " 3 ["st"] ltac:(simpl; lia)))).
    right. right. reflexivity.
Defined.

Lemma Do_completes_prefix_st_witness :
  Do_words shlex_unquoted "st" = [] ++ ["st"] /\
  FindCmd order_canonical ex_service 0 [] [] = Ok (None, [], []) /\
  exists printed,
    Do order_canonical sort_merge shlex_unquoted ex_service 0 None "st" 2
    = Ok (["art"; "atus"; "op"], 3%Z, 2%Z, printed).
Proof.
  split; [by_eval|]. split; [by_eval|].
  apply (Do_completes_prefix_st order_canonical sort_merge shlex_unquoted
           order_canonical_perm sort_merge_perm sort_merge_sorted
           ex_service 0 None "st" 2 [] "t"%char None [] []
           (Cmd.mk "" [] "" "" [] None
              (Some (<["start" := 1]> (<["stop" := 2]> (<["status" := 3]> ∅))))
              None StaticKind) 1 2 3);
    first [done | by_eval | by_decide].
Defined.

(** ** Help *)

(** C6 as stated fails on the help column: [HelpText] pairs every child
    with its one-line [Help] field.  [stop] has a long help and [status]
    no help at all; the code prints the short help of [stop] and nothing
    for [status], where the claim has the long help and the line
    "status has no help". *)
Lemma HelpText_child_help_counterexample :
  HelpText order_canonical sort_merge ex_service 0
  = Ok (nl +:+ "Commands:" +:+ nl
          +:+ "  start       starts the service" +:+ nl
          +:+ "  status      " +:+ nl
          +:+ "  stop        stops the service" +:+ nl +:+ nl) /\
  FullHelp order_canonical sort_merge ex_service 0
  = Ok (nl +:+ "Commands:" +:+ nl
          +:+ "  start       starts the service" +:+ nl
          +:+ "  status      status has no help" +:+ nl
          +:+ "  stop        stops the service, waiting for it" +:+ nl +:+ nl) /\
  HelpText order_canonical sort_merge ex_service 0
  <> FullHelp order_canonical sort_merge ex_service 0.
Proof. split; [by_eval|]. split; [by_eval|]. by vm_compute. Qed.

(** The table of [HelpText] on names with bytes of more than one kind:
    a name of one rune in three bytes takes one column; a vertical tab in
    a name ends a cell, and a form feed ends the table, so such names are
    not laid out as [aligned_row] says. *)
Lemma tabwriter_on_special_bytes :
  let zhong := String (ascii_of_nat 228) (String (ascii_of_nat 184)
                 (String (ascii_of_nat 173) "")) in
  tabwriter 0 2 (rows_text [(zhong, "h"); ("abc", "x")])
  = aligned_row 5 zhong "h" +:+ nl +:+ aligned_row 5 "abc" "x" +:+ nl /\
  RuneCount zhong = 1 /\ String.length zhong = 3 /\
  tabwriter 0 2 (rows_text [("a" +:+ String tw_vtab "b", "x"); ("cc", "")])
  = "  a   b      x" +:+ nl +:+ "  cc       " +:+ nl /\
  tabwriter 0 2 (rows_text [("a" +:+ String tw_formfeed "b", "x"); ("cc", "")])
  = "  a" +:+ nl +:+ "b        x" +:+ nl +:+ "   cc      " +:+ nl.
Proof. repeat split; by_eval. Qed.

Lemma HelpText_lists_children_with_Help_witness :
  hasSubcommand ex_service 0 = Ok true /\
  exists cs,
    Children order_canonical sort_merge ex_service 0 = Ok cs /\
    Sorted (key_le (name_of ex_service)) cs /\
    HelpText order_canonical sort_merge ex_service 0
    = Ok (helpParagraph (Cmd.new "") +:+ nl +:+ "Commands:" +:+ nl
            +:+ aligned_rows ex_service cs +:+ nl).
Proof.
  split; [by_eval|].
  destruct (HelpText_lists_children_with_Help order_canonical sort_merge
              order_canonical_perm sort_merge_perm sort_merge_sorted ex_service 0
              (Cmd.mk "" [] "" "" [] None
                 (Some (<["start" := 1]> (<["stop" := 2]> (<["status" := 3]> ∅))))
                 None StaticKind))
    as (cs & Hcs & _ & Hsorted & Htext).
  - by_eval.
  - by_eval.
  - apply Forall_forall. intros p Hp. vm_compute in Hp.
    repeat (apply elem_of_cons in Hp as [->|Hp];
            [eexists; split; [by_eval|split; by_eval]|]).
    by apply elem_of_nil in Hp.
  - exists cs. split; [exact Hcs|]. split; [exact Hsorted|]. exact Htext.
Defined.

(** ** Registration and resolution of two paths *)

(** C1 as stated fails when the second path is a prefix of the first:
    registering [a/b] creates a placeholder (address 3) at [a]; the later
    registration of node 2 at [a] returns that placeholder and drops node
    2, so that [a] resolves to the placeholder.  It fails in the same way
    for two wildcard paths [:a] and [:b] (the second node is dropped, [:b]
    resolves to the first), and when the second node carries the
    wildcard-marked alias [:a] (the alias wins over the param child, [:a]
    resolves to the second node). *)
Lemma later_prefix_path_counterexample :
  (AddCmd (ex_two "a/b" "a") 0 1 = Ok (registered (ex_two "a/b" "a") [1]) /\
   AddCmd (registered (ex_two "a/b" "a") [1]) 0 2
   = Ok (registered (ex_two "a/b" "a") [1; 2]) /\
   FindCmd order_canonical (registered (ex_two "a/b" "a") [1; 2]) 0
     (path_segments "a/b") [] = Ok (Some 1, [], []) /\
   FindCmd order_canonical (registered (ex_two "a/b" "a") [1; 2]) 0
     (path_segments "a") [] = Ok (Some 3, [], [])) /\
  (AddCmd (ex_two ":a" ":b") 0 1 = Ok (registered (ex_two ":a" ":b") [1]) /\
   AddCmd (registered (ex_two ":a" ":b") [1]) 0 2
   = Ok (registered (ex_two ":a" ":b") [1; 2]) /\
   FindCmd order_canonical (registered (ex_two ":a" ":b") [1; 2]) 0
     (path_segments ":b") [] = Ok (Some 1, [], [Param.mk "a" ":b"])) /\
  (AddCmd ex_marked_alias 0 1 = Ok (registered ex_marked_alias [1]) /\
   AddCmd (registered ex_marked_alias [1]) 0 2
   = Ok (registered ex_marked_alias [1; 2]) /\
   FindCmd order_canonical (registered ex_marked_alias [1; 2]) 0
     (path_segments ":a") [] = Ok (Some 2, [], [])).
Proof. repeat split; by_eval. Qed.

Lemma FindCmd_resolves_registered_paths_witness :
  AddCmd (ex_two "/users/:id" "users/list") 0 1
  = Ok (registered (ex_two "/users/:id" "users/list") [1]) /\
  AddCmd (registered (ex_two "/users/:id" "users/list") [1]) 0 2
  = Ok (registered (ex_two "/users/:id" "users/list") [1; 2]) /\
  sim_prefix (path_segments "users/list") (path_segments "/users/:id") = false /\
  (exists ctx1,
      FindCmd order_canonical (registered (ex_two "/users/:id" "users/list") [1; 2]) 0
        (path_segments "/users/:id") [] = Ok (Some 1, [], ctx1)) /\
  (exists ctx2,
      FindCmd order_canonical (registered (ex_two "/users/:id" "users/list") [1; 2]) 0
        (path_segments "users/list") [] = Ok (Some 2, [], ctx2)).
Proof.
  assert (H1 : AddCmd (ex_two "/users/:id" "users/list") 0 1
               = Ok (registered (ex_two "/users/:id" "users/list") [1])) by by_eval.
  assert (H2 : AddCmd (registered (ex_two "/users/:id" "users/list") [1]) 0 2
               = Ok (registered (ex_two "/users/:id" "users/list") [1; 2])) by by_eval.
  assert (H3 : sim_prefix (path_segments "users/list") (path_segments "/users/:id")
               = false) by by_eval.
  split; [exact H1|]. split; [exact H2|]. split; [exact H3|].
  apply (FindCmd_resolves_registered_paths order_canonical order_canonical_perm
           (ex_two "/users/:id" "users/list") 0 1 2
           (Cmd.new "/users/:id") (Cmd.new "users/list") _ _ []
           ltac:(apply wf_no_links; by_decide)
           ltac:(done) ltac:(done) ltac:(done)
           ltac:(eapply childless_lookup; by_eval)
           ltac:(eapply childless_lookup; by_eval)
           ltac:(eapply childless_lookup; by_eval)
           ltac:(by_eval) ltac:(by_eval)
           ltac:(constructor) ltac:(constructor) H1 H2 H3).
Defined.

(** ** Further properties on the example stores *)

(** A store checked link by link is well formed. *)
Lemma wf_check V :
  map_Forall (fun _ v =>
    map_Forall (fun k q =>
        is_wild k = false /\ is_Some (V !! q) /\
        Forall (fun a => is_wild a = false) (default [] (v_aliases <$> V !! q)))
      (v_static v) /\
    Forall (fun q => is_Some (V !! q)) (option_list (v_param v))) V ->
  wf V.
Proof.
  intros Hall. split; [|split].
  - intros p v Hv. destruct (Hall _ _ Hv) as [Hs Hp]. split.
    + intros k q Hq. by destruct (Hs _ _ Hq) as (_ & ? & _).
    + intros q Hq. rewrite Hq in Hp. simpl in Hp. by inversion Hp.
  - intros p v k q Hv Hq. destruct (Hall _ _ Hv) as [Hs _].
    by destruct (Hs _ _ Hq) as (? & _).
  - intros p v k q vq Hv Hq Hvq. destruct (Hall _ _ Hv) as [Hs _].
    destruct (Hs _ _ Hq) as (_ & _ & Ha). by rewrite Hvq in Ha.
Qed.

Lemma addCmd_first_static_wins_witness :
  exists h1 p1 c1,
    addCmd (ex_one "a") 0 1 = Ok (h1, 1) /\
    h1 !! 0 = Some p1 /\
    map_of (Cmd.staticChildren p1)
      = <[Cmd.Name (Cmd.new "a") := 1]> (map_of (Cmd.staticChildren (Cmd.new ""))) /\
    h1 !! 1 = Some c1 /\ Cmd.Name c1 = Cmd.Name (Cmd.new "a") /\
    Cmd.kind c1 = StaticKind /\ Cmd.parent c1 = Some 0 /\
    (forall cb c', h1 !! cb = Some c' -> Cmd.Name c' = Cmd.Name (Cmd.new "a") ->
       addCmd h1 0 cb = Ok (h1, 1)).
Proof.
  apply (addCmd_first_static_wins (ex_one "a") 0 1 (Cmd.new "") (Cmd.new "a"));
    [by_eval|by_eval|done|done|done].
Defined.

Lemma DeleteCmd_then_register_wildcard_witness :
  exists p cq, ex_wild !! 0 = Some p /\ ex_wild !! 1 = Some cq /\
  exists h1 p1 h2 p2 c2,
    DeleteCmd ex_wild 0 (String paramLabel (Cmd.Name cq)) = Ok h1 /\
    h1 !! 0 = Some p1 /\ Cmd.paramChild p1 = None /\
    Cmd.staticChildren p1 = Cmd.staticChildren p /\
    (forall x, x <> 0 -> h1 !! x = ex_wild !! x) /\
    addCmd h1 0 2 = Ok (h2, 2) /\
    h2 !! 0 = Some p2 /\ Cmd.paramChild p2 = Some 2 /\
    h2 !! 2 = Some c2 /\ Cmd.Name c2 = "b" /\ Cmd.kind c2 = ParamKind.
Proof.
  eexists _, _. split; [by_eval|]. split; [by_eval|].
  apply (DeleteCmd_then_register_wildcard ex_wild 0 _ 1 _ 2 (Cmd.new ":b") "b");
    by_eval.
Defined.

Lemma DeleteCmd_wildcard_mismatch_witness :
  DeleteCmd ex_wild 0 ":b" = Ok ex_wild /\
  DeleteCmd ex_service 0 ":start" = Ok ex_service.
Proof.
  split.
  - apply (DeleteCmd_wildcard_mismatch ex_wild 0
             (Cmd.mk "" [] "" "" [] None None (Some 1) StaticKind) "b");
      [by_eval|].
    eexists. split; [by_eval|done].
  - eapply (DeleteCmd_wildcard_mismatch ex_service 0 _ "start"); [by_eval|done].
Defined.

Lemma DeleteCmd_static_witness :
  exists cc, ex_service !! 0 = Some cc /\
  exists h1 cc1,
    DeleteCmd ex_service 0 "stop" = Ok h1 /\ h1 !! 0 = Some cc1 /\
    map_of (Cmd.staticChildren cc1) = delete "stop" (map_of (Cmd.staticChildren cc)) /\
    Cmd.paramChild cc1 = Cmd.paramChild cc /\ Cmd.Name cc1 = Cmd.Name cc /\
    (forall x, x <> 0 -> h1 !! x = ex_service !! x) /\
    (map_of (Cmd.staticChildren cc) !! "stop" = None -> h1 = ex_service).
Proof.
  eexists. split; [by_eval|].
  apply (DeleteCmd_static ex_service 0 _ "stop"); [by_eval|done|done].
Defined.

Lemma FindCmd_splits_tokens_witness :
  exists r consumed rest bound,
    FindCmd order_canonical ex_service 0 ["start"; "zz"; "stop"] []
    = Ok (r, rest, [] ++ bound) /\
    ["start"; "zz"; "stop"] = consumed ++ rest /\
    (r = None <-> consumed = []) /\
    length bound <= length consumed /\
    Forall (fun b => Param.Value b ∈ consumed) bound.
Proof.
  apply (FindCmd_splits_tokens order_canonical order_canonical_perm ex_service 0).
  - apply wf_check. by_decide.
  - eexists. by_eval.
Defined.

Lemma FindCmd_app_witness :
  FindCmd order_canonical (registered (ex_one "a/b") [1]) 0 ["a"] []
  = Ok (Some 2, [], []) /\
  FindCmd order_canonical (registered (ex_one "a/b") [1]) 0 (["a"] ++ ["b"; "c"]) []
  = '(r, rest, ctx2) ← FindCmd order_canonical (registered (ex_one "a/b") [1]) 2
                         ["b"; "c"] [];
    Ok (Some (default 2 r), rest, ctx2).
Proof.
  assert (H : FindCmd order_canonical (registered (ex_one "a/b") [1]) 0 ["a"] []
              = Ok (Some 2, [], [])) by by_eval.
  split; [exact H|].
  exact (FindCmd_app order_canonical (registered (ex_one "a/b") [1]) 0
           ["a"] ["b"; "c"] [] 2 [] H).
Defined.

Lemma FindCmd_stops_only_when_unmatched_witness :
  FindCmd order_canonical ex_service 0 ["start"; "zz"] [] = Ok (Some 1, ["zz"], []) /\
  exists cc, ex_service !! 1 = Some cc /\
    Cmd.paramChild cc = None /\
    map_of (Cmd.staticChildren cc) !! "zz" = None /\
    forall k q cq, map_of (Cmd.staticChildren cc) !! k = Some q ->
      ex_service !! q = Some cq -> "zz" ∉ Cmd.Aliases cq.
Proof.
  assert (H : FindCmd order_canonical ex_service 0 ["start"; "zz"] []
              = Ok (Some 1, ["zz"], [])) by by_eval.
  split; [exact H|].
  exact (FindCmd_stops_only_when_unmatched order_canonical order_canonical_perm
           ex_service 0 ["start"; "zz"] [] (Some 1) "zz" [] [] H).
Defined.

Lemma AddCmd_keeps_children_witness :
  AddCmd (registered (ex_two "a/b" "a/c") [1]) 0 2
  = Ok (registered (ex_two "a/b" "a/c") [1; 2]) /\
  exists cx, registered (ex_two "a/b" "a/c") [1] !! 3 = Some cx /\
    map_of (Cmd.staticChildren cx) !! "b" = Some 1 /\
  exists cx', registered (ex_two "a/b" "a/c") [1; 2] !! 3 = Some cx' /\
    map_of (Cmd.staticChildren cx) ⊆ map_of (Cmd.staticChildren cx') /\
    (forall q, Cmd.paramChild cx = Some q -> Cmd.paramChild cx' = Some q) /\
    Cmd.Aliases cx' = Cmd.Aliases cx.
Proof.
  assert (H : AddCmd (registered (ex_two "a/b" "a/c") [1]) 0 2
              = Ok (registered (ex_two "a/b" "a/c") [1; 2])) by by_eval.
  split; [exact H|]. eexists. split; [by_eval|]. split; [by_eval|].
  apply (AddCmd_keeps_children _ 0 2 _ 3 _ H). by_eval.
Defined.

Lemma AddCmd_Ok_iff_valid_path_witness :
  valid_path "users/:id/show" /\
  ((exists h', AddCmd (ex_one "users/:id/show") 0 1 = Ok h')
   <-> valid_path (Cmd.Name (Cmd.new "users/:id/show"))).
Proof.
  split.
  - split; [done|]. split; [|by vm_compute].
    apply (bool_decide_unpack _). by_eval.
  - apply (AddCmd_Ok_iff_valid_path (ex_one "users/:id/show") 0 1).
    + apply wf_no_links. by_decide.
    + eexists. by_eval.
    + by_eval.
Defined.

Lemma AddCmd_keeps_wf_witness :
  AddCmd (registered (ex_two "a/b" ":x/c") [1]) 0 2
  = Ok (registered (ex_two "a/b" ":x/c") [1; 2]) /\
  wf (hview (registered (ex_two "a/b" ":x/c") [1; 2])).
Proof.
  assert (H : AddCmd (registered (ex_two "a/b" ":x/c") [1]) 0 2
              = Ok (registered (ex_two "a/b" ":x/c") [1; 2])) by by_eval.
  split; [exact H|].
  apply (AddCmd_keeps_wf (registered (ex_two "a/b" ":x/c") [1]) 0 2
           (Cmd.new ":x/c") _); [|eexists; by_eval|by_eval|constructor|exact H].
  apply wf_check. by_decide.
Defined.

Lemma AddCmd_then_FindCmd_witness :
  AddCmd (registered (ex_two "a/b" "a") [1]) 0 2
  = Ok (registered (ex_two "a/b" "a") [1; 2]) /\
  walk (hview (registered (ex_two "a/b" "a") [1])) 0 (path_segments "a") = Some 3 /\
  exists ctx',
    FindCmd order_canonical (registered (ex_two "a/b" "a") [1; 2]) 0
      (path_segments (Cmd.Name (Cmd.new "a"))) []
    = Ok (Some (default 2 (walk (hview (registered (ex_two "a/b" "a") [1])) 0
                             (path_segments (Cmd.Name (Cmd.new "a"))))), [], ctx').
Proof.
  assert (H : AddCmd (registered (ex_two "a/b" "a") [1]) 0 2
              = Ok (registered (ex_two "a/b" "a") [1; 2])) by by_eval.
  split; [exact H|]. split; [by_eval|].
  apply (AddCmd_then_FindCmd order_canonical order_canonical_perm
           (registered (ex_two "a/b" "a") [1]) 0 2 (Cmd.new "a") _ []);
    [|eexists; by_eval|by_eval|constructor|exact H].
  apply wf_check. by_decide.
Defined.

Lemma Do_suggestions_complete_prefix_witness :
  exists printed,
    Do order_canonical sort_merge shlex_unquoted ex_service 0 None "st" 2
    = Ok (["art"; "atus"; "op"], 3%Z, 2%Z, printed) /\
  exists prefix w cWords,
    Do_prefix "st" 2 (Do_words shlex_unquoted "st") = Ok (prefix, w) /\
    getWords order_canonical sort_merge ex_service 0 prefix w = Ok cWords /\
    2%Z = Z.of_nat (String.length prefix) /\
    ((["art"; "atus"; "op"] = [" "] /\ prefix <> "" /\
      exists c, c ∈ cWords /\ Suggestion.Param c = false /\ Suggestion.Word c = prefix)
     \/ Forall (fun s => exists c, c ∈ cWords /\ Suggestion.Param c = false /\
                           Suggestion.Word c = prefix +:+ s) ["art"; "atus"; "op"]) /\
    (Z.of_nat (length ["art"; "atus"; "op"]) <= 3
     <= Z.of_nat (length ["art"; "atus"; "op"]) + 1)%Z /\
    (printed = [] \/ printed = "" :: (Do_tip <$> cWords)).
Proof.
  eexists. split; [by_eval|].
  apply (Do_suggestions_complete_prefix order_canonical sort_merge shlex_unquoted
           ex_service 0 None "st" 2); [done|by_eval].
Defined.

Lemma Do_full_name_single_space_witness :
  Do order_canonical sort_merge shlex_unquoted ex_service 0 None "stop" 4
  = Ok ([" "], 1%Z, Z.of_nat (String.length "stop"), []).
Proof.
  apply (Do_full_name_single_space order_canonical sort_merge shlex_unquoted
           ex_service 0 None "stop" 4 "stop" []
           [Suggestion.mk "stop" false false "stops the service, waiting for it"]
           (Suggestion.mk "stop" false false "stops the service, waiting for it"));
    [done|by_eval|done|by_eval|by_eval|done].
Defined.

Lemma Do_cursor_beyond_line_witness :
  Do order_canonical sort_merge shlex_unquoted ex_service 0 None "st" 5
  = Fault IndexOutOfRange.
Proof.
  apply (Do_cursor_beyond_line order_canonical sort_merge shlex_unquoted
           ex_service 0 None "st" 5); [done|by vm_compute|by_eval].
Defined.

Lemma getWords_candidate_sources_witness :
  FindCmd order_canonical ex_run 0 ["run"; "--verbose"] []
  = Ok (Some 1, ["--verbose"], []) /\
  exists cc res,
    ex_run !! 1 = Some cc /\
    getWords order_canonical sort_merge ex_run 0 "" ["run"; "--verbose"] = Ok res /\
    Suggestion.Word <$> res = ["--out"] /\
    Forall (candidate_source ex_run "" cc ["--verbose"]) res.
Proof.
  assert (H : FindCmd order_canonical ex_run 0 ["run"; "--verbose"] []
              = Ok (Some 1, ["--verbose"], [])) by by_eval.
  split; [exact H|]. eexists _, _. split; [by_eval|].
  assert (forall P Q R : Prop, P -> (P -> Q /\ R) -> P /\ Q /\ R) as Hcut by tauto.
  apply Hcut; [by_eval|]. intros Hres. split; [by_eval|].
  apply (getWords_candidate_sources order_canonical sort_merge order_canonical_perm
           sort_merge_perm ex_run 0 "" ["run"; "--verbose"] (Some 1) ["--verbose"] []
           _ _ H); [by_eval|exact Hres].
Defined.

Lemma hasSubcommand_hides_lone_help_witness :
  exists cc, ex_help !! 0 = Some cc /\
    map_of (Cmd.staticChildren cc) !! "help" = Some 1 /\
  exists b,
    hasSubcommand ex_help 0 = Ok b /\
    (b = true <->
       Cmd.paramChild cc <> None \/
       exists k q, k <> "help" /\ map_of (Cmd.staticChildren cc) !! k = Some q) /\
    (b = false ->
     HelpText order_canonical sort_merge ex_help 0 = Ok (helpParagraph cc)).
Proof.
  eexists. split; [by_eval|]. split; [by_eval|].
  apply (hasSubcommand_hides_lone_help order_canonical sort_merge ex_help 0).
  by_eval.
Defined.

Lemma AddCmd_binds_path_parameters_witness :
  AddCmd (ex_one "users/:id/show") 0 1 = Ok (registered (ex_one "users/:id/show") [1]) /\
  path_bindings (path_segments "users/:id/show") ["users"; "42"; "show"]
  = [Param.mk "id" "42"] /\
  FindCmd order_canonical (registered (ex_one "users/:id/show") [1]) 0
    ["users"; "42"; "show"] []
  = Ok (Some 1, [],
        [] ++ path_bindings (path_segments (Cmd.Name (Cmd.new "users/:id/show")))
                ["users"; "42"; "show"]).
Proof.
  assert (H : AddCmd (ex_one "users/:id/show") 0 1
              = Ok (registered (ex_one "users/:id/show") [1])) by by_eval.
  split; [exact H|]. split; [by_eval|].
  apply (AddCmd_binds_path_parameters order_canonical order_canonical_perm
           (ex_one "users/:id/show") 0 1 (Cmd.new "") (Cmd.new "users/:id/show")
           _ ["users"; "42"; "show"] []);
    [by_eval|done|by_eval|done|exact H|by_eval].
Defined.

Lemma getWords_offers_all_witness :
  exists r args ctx' cc res,
    FindCmd order_canonical ex_run 0 ["run"] [] = Ok (r, args, ctx') /\
    ex_run !! default 0 r = Some cc /\
    getWords order_canonical sort_merge ex_run 0 "--" ["run"] = Ok res /\
    Sorted (key_le Suggestion.Word) res /\
    (forall k q, map_of (Cmd.staticChildren cc) !! k = Some q ->
       HasPrefix k "--" = true ->
       exists s, s ∈ res /\ Suggestion.Word s = k /\ Suggestion.Param s = false) /\
    (forall q cq, Cmd.paramChild cc = Some q -> ex_run !! q = Some cq ->
       exists s, s ∈ res /\ Suggestion.Word s = Cmd.Name cq /\
         Suggestion.Param s = true) /\
    ((args = [] \/
      forall spec, spec ∈ Cmd.Args cc -> Arg.Pair spec = true ->
        Arg.Name spec <> List.last args "") ->
     forall spec, spec ∈ Cmd.Args cc -> Arg.Name spec ∉ args ->
       exists s, s ∈ res /\ Suggestion.Word s = Arg.Name spec /\
         Suggestion.Param s = false).
Proof.
  apply (getWords_offers_all order_canonical sort_merge order_canonical_perm
           sort_merge_perm sort_merge_sorted ex_run 0 "--" ["run"]).
  - refine (proj1 (wf_check _ _)). by_decide.
  - eexists. by_eval.
Defined.

Lemma Do_returns_within_line_witness :
  exists sugs n off printed,
    Do order_canonical sort_merge shlex_unquoted ex_run 0 None "run --out x " 12
    = Ok (sugs, n, off, printed).
Proof.
  apply (Do_returns_within_line order_canonical sort_merge shlex_unquoted
           order_canonical_perm ex_run 0 None "run --out x " 12).
  - refine (proj1 (wf_check _ _)). by_decide.
  - eexists. by_eval.
  - by vm_compute.
Defined.
